(** * scgenome.snvphylo: presence/absence likelihoods of SNVs per cluster

    A shallow embedding of [scgenome/snvphylo.py]:
    - the likelihood model ([log_binomial_pdf], [log_likelihood_absent],
      [log_likelihood_present], [calculate_likelihood_absent],
      [calculate_likelihood_present], [compute_log_likelihoods]);
    - the interval annotator ([find_overlapping_segments],
      [annotate_copy_number]);
    - the aggregation pipeline ([compute_snv_log_likelihoods]).
    [compute_dollo_ml_tree] drives the external [dollo] library and is not
    embedded.

    Conventions.  A pandas DataFrame is a list of rows (a record per row,
    one field per column); a Python exception is an [Error] result; a
    float64 cell that holds an integer value or NaN is an [option Z]
    ([None] is NaN).  The numerical library (numpy float arithmetic,
    [scipy.stats.binom.logpmf], [scipy.misc.logsumexp]) is an interface,
    the class [Numerics]; the statements that do not depend on the value of
    a floating-point result hold for every instance, the others are proved
    for the instance [ExactNumerics] of real arithmetic, which leaves the
    rounding of float64 out and keeps NaN and the infinities. *)

From Stdlib Require Import ZArith List Bool String Ascii Lia Permutation Sorted.
From Stdlib Require Import QArith Qround DecimalString DecimalZ DecimalPos.
From Stdlib Require Import Reals Lra Qreals.
Import ListNotations.

#[local] Open Scope string_scope.
#[local] Open Scope list_scope.
#[local] Open Scope Z_scope.

(** ** Python exceptions and the error monad *)

Inductive exn : Type :=
| ValueError (msg : string)
| IndexError (msg : string)
| KeyError (msg : string).

Inductive result (A : Type) : Type :=
| Ok (a : A)
| Error (e : exn).
Arguments Ok {A} a.
Arguments Error {A} e.

Definition bind {A B : Type} (r : result A) (k : A -> result B) : result B :=
  match r with
  | Ok a => k a
  | Error e => Error e
  end.

Notation "'do' x <- r ; k" := (bind r (fun x => k))
  (at level 10, x name, r at level 100, k at level 200).

(** A [for] loop whose body may raise, collecting one value per iteration. *)
Fixpoint mapM {A B : Type} (f : A -> result B) (l : list A) : result (list B) :=
  match l with
  | [] => Ok []
  | x :: l' => do y <- f x; do ys <- mapM f l'; Ok (y :: ys)
  end.

Definition is_ok {A : Type} (r : result A) : bool :=
  match r with Ok _ => true | Error _ => false end.

(** The exception raised by [find_overlapping_segments]:
    [raise ValueError('duplicate columns')]. *)
Definition DuplicateSegmentBoundary : exn := ValueError "duplicate columns".

(** ** numpy helpers on integers *)

(** [ceil(a / b)] for [b > 0]. *)
Definition ceil_div (a b : Z) : Z := - ((- a) / b).

(** [np.arange(start, stop, step)] for [step > 0] on integer-valued floats:
    [ceil((stop - start) / step)] elements [start + i * step]; an empty array
    when that length is not positive. *)
Definition np_arange (start stop step : Z) : list Z :=
  map (fun i => start + Z.of_nat i * step)
      (seq 0 (Z.to_nat (ceil_div (stop - start) step))).

(** [np.arange(1., c_m + 1., 1.)] where [c_m] is a float64 cell: when [c_m]
    is NaN the length cannot be computed and numpy raises [ValueError]
    ("arange: cannot compute length"; "Maximum allowed size exceeded" in
    older releases). *)
Definition arange_cell (c_m : option Z) : result (list Z) :=
  match c_m with
  | Some m => Ok (np_arange 1 (m + 1) 1)
  | None => Error (ValueError "arange: cannot compute length")
  end.

(** Addition of two float64 cells; NaN is absorbing. *)
Definition cell_add (a b : option Z) : option Z :=
  match a, b with
  | Some x, Some y => Some (x + y)
  | _, _ => None
  end.

(** [c == 0] on a float64 cell; every comparison with NaN is false. *)
Definition cell_eq0 (c : option Z) : bool :=
  match c with
  | Some z => z =? 0
  | None => false
  end.

(** ** The numerical library *)

Class Numerics : Type := {
  float : Type;
  (** an integer as a float64 *)
  of_int : Z -> float;
  (** a decimal literal such as [1e-3] as a float64 *)
  of_Q : Q -> float;
  (** the float64 NaN *)
  fnan : float;
  (** float64 division *)
  fdiv : float -> float -> float;
  (** [scipy.stats.binom.logpmf(x, n, p)] *)
  binom_logpmf : Z -> Z -> float -> float;
  (** [scipy.misc.logsumexp] of a non-empty list *)
  logsumexp : list float -> float
}.

Definition of_cell `{Numerics} (c : option Z) : float :=
  match c with
  | Some z => of_int z
  | None => fnan
  end.

(** ** LikelihoodModel *)

Section LikelihoodModel.
Context `{N : Numerics}.

Definition log_binomial_pdf (x n : Z) (p : float) : float :=
  binom_logpmf x n p.

Definition log_likelihood_absent (e_s : float) (n_v n_t : Z) : float :=
  log_binomial_pdf n_v n_t e_s.

(** [log_sum_exp] of a Python list: the reduction over an empty list raises
    [ValueError]. *)
Definition log_sum_exp (l : list float) : result float :=
  match l with
  | [] => Error (ValueError "zero-size array to reduction operation maximum which has no identity")
  | _ :: _ => Ok (logsumexp l)
  end.

(** The body of the [for c_v in ...] loop: one [append]. *)
Definition present_step (c_t : option Z) (n_v n_t : Z)
    (conditional_log_likelihoods : list float) (c_v : Z) : list float :=
  let r := fdiv (of_int c_v) (of_cell c_t) in
  conditional_log_likelihoods ++ [log_binomial_pdf n_v n_t r].

Definition log_likelihood_present (c_m c_t : option Z) (e_s : float)
    (n_v n_t : Z) : result float :=
  if cell_eq0 c_m then Ok (log_likelihood_absent e_s n_v n_t)
  else
    do c_vs <- arange_cell c_m;
    log_sum_exp (fold_left (present_step c_t n_v n_t) c_vs []).

End LikelihoodModel.

(** ** Tables of the likelihood stage *)

(** A row of the table handed to [compute_log_likelihoods]: the aggregated
    counts of a (variant, cluster) pair and the copy number columns written by
    the annotator, float64 cells that are NaN where no segment was found. *)
Record VariantClusterRecord : Type := {
  chrom : string;
  coord : Z;
  ref : string;
  alt : string;
  cluster_id : string;
  alt_counts : Z;
  ref_counts : Z;
  total_counts : Z;
  variant_id : string;
  major_cn : option Z;
  minor_cn : option Z;
  total_cn : option Z
}.

(** The same row once the two likelihood columns are assigned. *)
Record LikelihoodRow `{Numerics} : Type := {
  record : VariantClusterRecord;
  ll_absent : float;
  ll_present : float
}.

Section LikelihoodStage.
Context `{N : Numerics}.

Definition calculate_likelihood_absent (row : VariantClusterRecord)
    (e_s : float) : float :=
  log_likelihood_absent e_s (alt_counts row) (alt_counts row + ref_counts row).

Definition calculate_likelihood_present (row : VariantClusterRecord)
    (e_s : float) : result float :=
  log_likelihood_present
    (major_cn row)
    (cell_add (major_cn row) (minor_cn row))
    e_s
    (alt_counts row)
    (ref_counts row + alt_counts row).

(** [df.apply(f, axis=1)] on a table with rows: [f] on every row in order;
    an exception raised by [f] ends the whole call. *)
Definition apply_rows {A B : Type} (f : A -> result B) (df : list A)
    : result (list B) := mapM f df.

Definition compute_log_likelihoods_with (df : list VariantClusterRecord)
    (error_rate : float) : result (list LikelihoodRow) :=
  do absent <- apply_rows (fun row => Ok (calculate_likelihood_absent row error_rate)) df;
  do present <- apply_rows (fun row => calculate_likelihood_present row error_rate) df;
  Ok (map (fun '(row, (a, p)) =>
             {| record := row; ll_absent := a; ll_present := p |})
          (combine df (combine absent present))).

(** The value of [calculate_likelihood_present] when it returns. *)
Definition present_or_nan (e_s : float) (row : VariantClusterRecord) : float :=
  match calculate_likelihood_present row e_s with
  | Ok v => v
  | Error _ => fnan
  end.

(** The default [error_rate=1e-3]. *)
Definition default_error_rate : float := of_Q (1 # 1000).

Definition compute_log_likelihoods (df : list VariantClusterRecord)
    : result (list LikelihoodRow) :=
  compute_log_likelihoods_with df default_error_rate.

End LikelihoodStage.

(** ** pandas and numpy helpers on lists *)

(** A stable insertion sort: [sort_values] on the key order [leb]. *)
Fixpoint insert_sorted {A : Type} (leb : A -> A -> bool) (x : A) (l : list A)
    : list A :=
  match l with
  | [] => [x]
  | y :: l' => if leb x y then x :: l else y :: insert_sorted leb x l'
  end.

Definition sort_by {A : Type} (leb : A -> A -> bool) (l : list A) : list A :=
  fold_right (insert_sorted leb) [] l.

(** [Series.unique()]: the distinct values in order of first appearance. *)
Fixpoint unique {A : Type} (eqb : A -> A -> bool) (l : list A) : list A :=
  match l with
  | [] => []
  | x :: l' => x :: filter (fun y => negb (eqb x y)) (unique eqb l')
  end.

(** [duplicated(...).any()]: does some value occur at two positions? *)
Fixpoint has_duplicate {A : Type} (eqb : A -> A -> bool) (l : list A) : bool :=
  match l with
  | [] => false
  | x :: l' => existsb (eqb x) l' || has_duplicate eqb l'
  end.

(** The binary search of [np.searchsorted] (side [left]) for one key,
    between [lo] and [hi]: the [while (min_idx < max_idx)] loop of numpy's
    [binsearch]; [fuel] bounds the number of halvings.  The loop ends with
    [min_idx = max_idx], the index returned. *)
Fixpoint bisect_left (fuel : nat) (a : list Z) (key : Z) (lo hi : nat) : nat :=
  match fuel with
  | O => lo
  | S fuel' =>
      if (lo <? hi)%nat then
        let mid := (lo + (hi - lo) / 2)%nat in
        if nth mid a 0 <? key
        then bisect_left fuel' a key (mid + 1) hi
        else bisect_left fuel' a key lo mid
      else lo
  end.

(** The loop of numpy's [binsearch] over the keys.  The bounds of the search
    of a key are taken over from the search of the key before it: after a
    smaller key the search starts at the index found for that key
    ([max_idx = arr_len]), after a key that is not smaller it starts at 0 and
    ends one past the index found for that key.  [min_idx] and [max_idx] are
    both the index found for [last_key_val], except before the first key. *)
Fixpoint binsearch (a : list Z) (last_key_val : Z) (min_idx max_idx : nat)
    (keys : list Z) : list nat :=
  match keys with
  | [] => []
  | key_val :: keys' =>
      let arr_len := List.length a in
      let lo := if last_key_val <? key_val then min_idx else 0%nat in
      let hi := if last_key_val <? key_val then arr_len
                else if (max_idx <? arr_len)%nat then (max_idx + 1)%nat
                     else arr_len in
      let idx := bisect_left arr_len a key_val lo hi in
      idx :: binsearch a key_val idx idx keys'
  end.

(** [np.searchsorted(a, keys)] on an array of keys: [last_key_val] starts as
    the first key, with the bounds 0 and [len(a)]. *)
Definition searchsorted (a keys : list Z) : list nat :=
  match keys with
  | [] => []
  | key :: _ => binsearch a key 0 (List.length a) keys
  end.

(** [values.iloc[i]]: positional lookup; a negative position counts from the
    end, a position outside the column raises [IndexError]. *)
Definition iloc {V : Type} (values : list V) (i : Z) : result V :=
  let n := Z.of_nat (List.length values) in
  let j := if i <? 0 then i + n else i in
  if (0 <=? j) && (j <? n) then
    match nth_error values (Z.to_nat j) with
    | Some v => Ok v
    | None => Error (IndexError "positional indexers are out-of-bounds")
    end
  else Error (IndexError "positional indexers are out-of-bounds").

(** [start_idx == end_idx] on two arrays of indices. *)
Definition idx_eq (start_idx end_idx : list Z) : list bool :=
  map (fun '(s, e) => s =? e) (combine start_idx end_idx).

(** [pd.concat(frames)]: an empty list of frames raises [ValueError]. *)
Definition pd_concat {A : Type} (frames : list (list A)) : result (list A) :=
  match frames with
  | [] => Error (ValueError "No objects to concatenate")
  | _ :: _ => Ok (List.concat frames)
  end.

(** Lexicographic order on the sort key [(start, end)]. *)
Definition boundary_leb (a b : Z * Z) : bool :=
  (fst a <? fst b) || ((fst a =? fst b) && (snd a <=? snd b)).

Definition boundary_eqb (a b : Z * Z) : bool :=
  (fst a =? fst b) && (snd a =? snd b).

(** ** IntervalAnnotator *)

(** A row of an annotated table: the row of the positions table and the
    columns assigned by the annotator, NaN ([None]) or a value.  [C] is the
    type of the column names. *)
Record Annotated (P C V : Type) : Type := {
  position : P;
  columns_of : list (C * option V)
}.
Arguments position {P C V} _.
Arguments columns_of {P C V} _.

Section Cells.
Context {C V : Type}.
Variable col_eq_dec : forall a b : C, {a = b} + {a <> b}.

(** [df[col] = value] on one row: the column is overwritten when it exists
    and added after the others when it does not. *)
Fixpoint set_cell (col : C) (v : option V) (cells : list (C * option V))
    : list (C * option V) :=
  match cells with
  | [] => [(col, v)]
  | (c, w) :: cells' =>
      if col_eq_dec c col then (c, v) :: cells'
      else (c, w) :: set_cell col v cells'
  end.

(** [row[col]]. *)
Fixpoint get_cell (col : C) (cells : list (C * option V))
    : result (option V) :=
  match cells with
  | [] => Error (KeyError "column")
  | (c, w) :: cells' =>
      if col_eq_dec c col then Ok w else get_cell col cells'
  end.

Definition set_column {P : Type} (col : C) (v : option V)
    (r : Annotated P C V) : Annotated P C V :=
  {| position := position r; columns_of := set_cell col v (columns_of r) |}.

(** [results.loc[mask, col] = values]: the rows selected by [mask] receive
    the values in order. *)
Fixpoint assign_masked {P : Type} (col : C) (rows : list (Annotated P C V))
    (mask : list bool) (values : list V) : list (Annotated P C V) :=
  match rows, mask with
  | r :: rows', true :: mask' =>
      match values with
      | v :: values' =>
          set_column col (Some v) r :: assign_masked col rows' mask' values'
      | [] => r :: assign_masked col rows' mask' []
      end
  | r :: rows', false :: mask' => r :: assign_masked col rows' mask' values
  | _, _ => rows
  end.
End Cells.

Section IntervalAnnotator.
(** The positions table has rows [P], the segments table rows [S]; [C] is
    the type of the names of the attribute columns of the segments table
    and [V] the type of their values. *)
Context {P S C V : Type}.
Variable col_eq_dec : forall a b : C, {a = b} + {a <> b}.
(** [pos[sample_col]], [pos['chrom']], [pos['coord']]. *)
Variables (pos_sample pos_chrom : P -> string) (pos_coord : P -> Z).
(** [seg[sample_col]], [seg['chr']], [seg['start']], [seg['end']],
    [seg[col]]. *)
Variables (seg_sample seg_chr : S -> string) (seg_start seg_end : S -> Z).
Variable seg_col : C -> S -> V.

Definition boundary (s : S) : Z * Z := (seg_start s, seg_end s).

(** [results[col] = np.nan] followed by
    [results.loc[mask, col] = seg[col].iloc[end_idx[mask]].values]. *)
Definition assign_column (seg : list S) (mask : list bool) (end_idx : list Z)
    (results : list (Annotated P C V)) (col : C)
    : result (list (Annotated P C V)) :=
  let results := map (set_column col_eq_dec col None) results in
  do values <- mapM (iloc (map (seg_col col) seg))
                    (map snd (filter fst (combine mask end_idx)));
  Ok (assign_masked col_eq_dec col results mask values).

(** The [for col in columns] loop. *)
Fixpoint assign_columns (seg : list S) (mask : list bool) (end_idx : list Z)
    (results : list (Annotated P C V)) (columns : list C)
    : result (list (Annotated P C V)) :=
  match columns with
  | [] => Ok results
  | col :: columns' =>
      do results <- assign_column seg mask end_idx results col;
      assign_columns seg mask end_idx results columns'
  end.

(** [np.searchsorted(seg['start'].values, coords) - 1] and
    [np.searchsorted(seg['end'].values, coords)] for the array of the
    coordinates. *)
Definition start_idx_of (seg : list S) (coords : list Z) : list Z :=
  map (fun i => Z.of_nat i - 1) (searchsorted (map seg_start seg) coords).

Definition end_idx_of (seg : list S) (coords : list Z) : list Z :=
  map Z.of_nat (searchsorted (map seg_end seg) coords).

Definition find_overlapping_segments (pos : list P) (seg : list S)
    (columns : list C) : result (list (Annotated P C V)) :=
  let seg := sort_by (fun a b => boundary_leb (boundary a) (boundary b)) seg in
  if has_duplicate boundary_eqb (map boundary seg)
  then Error DuplicateSegmentBoundary
  else
    let start_idx := start_idx_of seg (map pos_coord pos) in
    let end_idx := end_idx_of seg (map pos_coord pos) in
    let mask := idx_eq start_idx end_idx in
    let results := map (fun p => {| position := p; columns_of := [] |}) pos in
    assign_columns seg mask end_idx results columns.

Definition annotate_copy_number (pos : list P) (seg : list S)
    (columns : list C) : result (list (Annotated P C V)) :=
  do results <-
    mapM (fun sample_id =>
            let sample_pos := filter (fun p => String.eqb (pos_sample p) sample_id) pos in
            let sample_seg := filter (fun s => String.eqb (seg_sample s) sample_id) seg in
            mapM (fun chrom =>
                    let _pos := filter (fun p => String.eqb (pos_chrom p) chrom) sample_pos in
                    let _seg := filter (fun s => String.eqb (seg_chr s) chrom) sample_seg in
                    find_overlapping_segments _pos _seg columns)
                 (unique String.eqb (map seg_chr seg)))
         (unique String.eqb (map seg_sample seg));
  pd_concat (List.concat results).

(** *** Reading the result *)

(** Every requested column of a row is missing. *)
Definition all_missing (columns : list C) (r : Annotated P C V) : Prop :=
  forall col, In col columns -> get_cell col_eq_dec col (columns_of r) = Ok None.

(** The segments of a partition. *)
Definition segments_of (seg : list S) (sample chrom : string) : list S :=
  filter (fun s => String.eqb (seg_chr s) chrom)
         (filter (fun s => String.eqb (seg_sample s) sample) seg).

(** The positions of a partition, in the order of the table. *)
Definition partition_of (pos : list P) (sample chrom : string) : list P :=
  filter (fun p => String.eqb (pos_chrom p) chrom)
         (filter (fun p => String.eqb (pos_sample p) sample) pos).

(** The positions of the result: partition after partition, the groups and
    the chromosomes in their order of first appearance in the segments. *)
Definition positions_by_partition (pos : list P) (seg : list S) : list P :=
  flat_map (fun sample =>
              flat_map (fun chrom => partition_of pos sample chrom)
                       (unique String.eqb (map seg_chr seg)))
           (unique String.eqb (map seg_sample seg)).

(** The positions whose group and whose chromosome occur in the segments. *)
Definition known_positions (pos : list P) (seg : list S) : list P :=
  filter (fun p => existsb (String.eqb (pos_sample p)) (map seg_sample seg)
                   && existsb (String.eqb (pos_chrom p)) (map seg_chr seg))
         pos.

End IntervalAnnotator.

(** ** SnvAggregator *)

(** Modelled from the spec: the columns of the three input tables, which the
    source declares nowhere (it names [chrom], [coord], [ref], [alt],
    [alt_counts], [ref_counts] and [cluster_id] of the reads and clusters,
    and [chr], [start], [end], [cluster_id], [total_cn], [minor_cn],
    [major_cn] of the copy number table); the column the reads and the
    clusters share is [sample_id].  A row of [snv_data]: *)
Record SnvRead : Type := {
  snv_sample_id : string;
  snv_chrom : string;
  snv_coord : Z;
  snv_ref : string;
  snv_alt : string;
  snv_ref_counts : Z;
  snv_alt_counts : Z
}.

(** Modelled from the spec: a row of [clusters], columns [sample_id] and
    [cluster_id]. *)
Record ClusterAssignment : Type := {
  cl_sample_id : string;
  cl_cluster_id : string
}.

(** A row of [snv_data.merge(clusters)]. *)
Record MergedRead : Type := {
  read : SnvRead;
  read_cluster_id : string
}.

(** [snv_data.merge(clusters)]: the inner join on the one common column,
    [sample_id]. *)
Definition merge (snv_data : list SnvRead) (clusters : list ClusterAssignment)
    : list MergedRead :=
  flat_map
    (fun r =>
       map (fun c => {| read := r; read_cluster_id := cl_cluster_id c |})
           (filter (fun c => String.eqb (snv_sample_id r) (cl_sample_id c)) clusters))
    snv_data.

(** The key of a variant locus, [(chrom, coord, ref, alt)]. *)
Definition Locus : Type := string * Z * string * string.

Definition locus_of_read (r : SnvRead) : Locus :=
  (snv_chrom r, snv_coord r, snv_ref r, snv_alt r).

Definition locus_of (m : MergedRead) : Locus := locus_of_read (read m).

Definition locus_eqb (a b : Locus) : bool :=
  let '(c1, k1, r1, a1) := a in
  let '(c2, k2, r2, a2) := b in
  String.eqb c1 c2 && (k1 =? k2) && String.eqb r1 r2 && String.eqb a1 a2.

(** The order of the group keys: lexicographic, strings by code point. *)
Definition locus_leb (a b : Locus) : bool :=
  let '(c1, k1, r1, a1) := a in
  let '(c2, k2, r2, a2) := b in
  match String.compare c1 c2 with
  | Lt => true
  | Gt => false
  | Eq =>
      match Z.compare k1 k2 with
      | Lt => true
      | Gt => false
      | Eq =>
          match String.compare r1 r2 with
          | Lt => true
          | Gt => false
          | Eq => String.leb a1 a2
          end
      end
  end.

(** The sorted distinct values of a key. *)
Definition sorted_keys {A : Type} (eqb leb : A -> A -> bool) (l : list A)
    : list A := sort_by leb (unique eqb l).

Definition sum_Z (l : list Z) : Z := fold_right Z.add 0 l.

(** The reads of one group: a locus and a cluster. *)
Definition group_of (merged : list MergedRead) (l : Locus) (c : string)
    : list MergedRead :=
  filter (fun m => locus_eqb (locus_of m) l && String.eqb (read_cluster_id m) c)
         merged.

(** [str(coord)]. *)
Definition str_of_Z (z : Z) : string := NilZero.string_of_int (Z.to_int z).

(** [':'.join([chrom, str(coord), ref, alt])]. *)
Definition variant_id_of (l : Locus) : string :=
  let '(c, k, r, a) := l in
  String.concat ":" [c; str_of_Z k; r; a].

(** A row of [snv_matrix]. *)
Record SnvCount : Type := {
  sc_chrom : string;
  sc_coord : Z;
  sc_ref : string;
  sc_alt : string;
  sc_cluster_id : string;
  sc_alt_counts : Z;
  sc_ref_counts : Z;
  sc_total_counts : Z;
  sc_variant_id : string
}.

(** [groupby([...]).sum().unstack().fillna(0).astype(int).stack().reset_index()]
    followed by the [total_counts] and [variant_id] columns: the groups are
    summed, the cluster level is pivoted into columns (one per cluster of the
    joined table), the holes are filled with 0, and the cluster level is
    stacked back; rows come in the order of the sorted loci and, inside a
    locus, of the sorted clusters. *)
Definition aggregate (merged : list MergedRead) : list SnvCount :=
  let loci := sorted_keys locus_eqb locus_leb (map locus_of merged) in
  let cluster_ids := sorted_keys String.eqb String.leb (map read_cluster_id merged) in
  flat_map
    (fun l =>
       map (fun c =>
              let g := group_of merged l c in
              let alt_counts := sum_Z (map (fun m => snv_alt_counts (read m)) g) in
              let ref_counts := sum_Z (map (fun m => snv_ref_counts (read m)) g) in
              let '(chrom, coord, ref, alt) := l in
              {| sc_chrom := chrom; sc_coord := coord; sc_ref := ref; sc_alt := alt;
                 sc_cluster_id := c;
                 sc_alt_counts := alt_counts;
                 sc_ref_counts := ref_counts;
                 sc_total_counts := ref_counts + alt_counts;
                 sc_variant_id := variant_id_of l |})
           cluster_ids)
    loci.

(** The key [(locus, cluster)] of a row of [snv_matrix]. *)
Definition key_of (r : SnvCount) : Locus * string :=
  ((sc_chrom r, sc_coord r, sc_ref r, sc_alt r), sc_cluster_id r).

(** The number of rows of the cluster table that assign [sample] to
    [cluster]. *)
Definition assignments_to (clusters : list ClusterAssignment)
    (sample cluster : string) : nat :=
  List.length
    (filter (fun a => String.eqb sample (cl_sample_id a)
                      && String.eqb (cl_cluster_id a) cluster) clusters).

(** ** The copy number table and the pipeline *)

(** A numeric cell of the caller's [allele_cn] table: an int64, a float64
    with a finite value, or NaN. *)
Inductive num : Type :=
| IntV (z : Z)
| FloatV (q : Q)
| NaNV.

(** [astype(int)] on one cell: a float is truncated towards zero; pandas
    raises [ValueError] on NaN. *)
Definition astype_int (c : num) : result Z :=
  match c with
  | IntV z => Ok z
  | FloatV q => Ok (Z.quot (Qnum q) (Z.pos (Qden q)))
  | NaNV => Error (ValueError "Cannot convert non-finite values (NA or inf) to integer")
  end.

(** Modelled from the spec: a row of the caller's [allele_cn], with the
    columns the source selects. *)
Record AlleleCn : Type := {
  cn_chr : string;
  cn_start : Z;
  cn_end : Z;
  cn_cluster_id : string;
  cn_total_cn : num;
  cn_minor_cn : num;
  cn_major_cn : num
}.

Definition set_total_cn (r : AlleleCn) (v : num) : AlleleCn :=
  {| cn_chr := cn_chr r; cn_start := cn_start r; cn_end := cn_end r;
     cn_cluster_id := cn_cluster_id r;
     cn_total_cn := v; cn_minor_cn := cn_minor_cn r; cn_major_cn := cn_major_cn r |}.

Definition set_minor_cn (r : AlleleCn) (v : num) : AlleleCn :=
  {| cn_chr := cn_chr r; cn_start := cn_start r; cn_end := cn_end r;
     cn_cluster_id := cn_cluster_id r;
     cn_total_cn := cn_total_cn r; cn_minor_cn := v; cn_major_cn := cn_major_cn r |}.

Definition set_major_cn (r : AlleleCn) (v : num) : AlleleCn :=
  {| cn_chr := cn_chr r; cn_start := cn_start r; cn_end := cn_end r;
     cn_cluster_id := cn_cluster_id r;
     cn_total_cn := cn_total_cn r; cn_minor_cn := cn_minor_cn r; cn_major_cn := v |}.

(** [df[col] = df[col].astype(int)]: the right-hand side is evaluated first
    (and may raise), then the column of [df] itself is replaced. *)
Definition astype_int_column (get : AlleleCn -> num)
    (set : AlleleCn -> num -> AlleleCn) (df : list AlleleCn)
    : result (list AlleleCn) :=
  do ints <- mapM (fun r => astype_int (get r)) df;
  Ok (map (fun '(r, z) => set r (IntV z)) (combine df ints)).

(** The value of an int64 cell. *)
Definition int_value (c : num) : Z :=
  match c with
  | IntV z => z
  | FloatV q => Z.quot (Qnum q) (Z.pos (Qden q))
  | NaNV => 0
  end.

(** A row of the local table
    [allele_cn[['chr', 'start', 'end', 'cluster_id', 'total_cn', 'minor_cn', 'major_cn']]],
    whose three copy number columns are int64 after the casts. *)
Record CnSegment : Type := {
  acn_chr : string;
  acn_start : Z;
  acn_end : Z;
  acn_cluster_id : string;
  acn_total_cn : Z;
  acn_minor_cn : Z;
  acn_major_cn : Z
}.

Definition select_columns (r : AlleleCn) : CnSegment :=
  {| acn_chr := cn_chr r; acn_start := cn_start r; acn_end := cn_end r;
     acn_cluster_id := cn_cluster_id r;
     acn_total_cn := int_value (cn_total_cn r);
     acn_minor_cn := int_value (cn_minor_cn r);
     acn_major_cn := int_value (cn_major_cn r) |}.

Definition CnSegment_eqb (a b : CnSegment) : bool :=
  String.eqb (acn_chr a) (acn_chr b) && (acn_start a =? acn_start b)
  && (acn_end a =? acn_end b)
  && String.eqb (acn_cluster_id a) (acn_cluster_id b)
  && (acn_total_cn a =? acn_total_cn b) && (acn_minor_cn a =? acn_minor_cn b)
  && (acn_major_cn a =? acn_major_cn b).

(** [drop_duplicates()] keeps the first of equal rows. *)
Definition drop_duplicates (df : list CnSegment) : list CnSegment :=
  unique CnSegment_eqb df.

(** The columns requested from the annotator. *)
Inductive CnColumn : Type := MajorCn | MinorCn | TotalCn.

Definition CnColumn_eq_dec (a b : CnColumn) : {a = b} + {a <> b}.
Proof. decide equality. Defined.

Definition cn_column (col : CnColumn) (s : CnSegment) : Z :=
  match col with
  | MajorCn => acn_major_cn s
  | MinorCn => acn_minor_cn s
  | TotalCn => acn_total_cn s
  end.

(** An annotated row of [snv_matrix] read as a record of the likelihood
    stage: [row['major_cn']], [row['minor_cn']], [row['total_cn']]. *)
Definition to_record (r : Annotated SnvCount CnColumn Z)
    : result VariantClusterRecord :=
  let p := position r in
  do major <- get_cell CnColumn_eq_dec MajorCn (columns_of r);
  do minor <- get_cell CnColumn_eq_dec MinorCn (columns_of r);
  do total <- get_cell CnColumn_eq_dec TotalCn (columns_of r);
  Ok {| chrom := sc_chrom p; coord := sc_coord p; ref := sc_ref p; alt := sc_alt p;
        cluster_id := sc_cluster_id p;
        alt_counts := sc_alt_counts p; ref_counts := sc_ref_counts p;
        total_counts := sc_total_counts p; variant_id := sc_variant_id p;
        major_cn := major; minor_cn := minor; total_cn := total |}.

Section Pipeline.
Context `{N : Numerics}.

(** [annotate_copy_number(snv_matrix, allele_cn,
      columns=['major_cn', 'minor_cn', 'total_cn'], sample_col='cluster_id')]. *)
Definition annotate_snv_matrix (snv_matrix : list SnvCount)
    (allele_cn : list CnSegment) : result (list (Annotated SnvCount CnColumn Z)) :=
  annotate_copy_number CnColumn_eq_dec
    sc_cluster_id sc_chrom sc_coord
    acn_cluster_id acn_chr acn_start acn_end cn_column
    snv_matrix allele_cn [MajorCn; MinorCn; TotalCn].

(** The part of [compute_snv_log_likelihoods] after the casts. *)
Definition annotate_and_score (snv_matrix : list SnvCount)
    (allele_cn : list AlleleCn) : result (list LikelihoodRow) :=
  let allele_cn := drop_duplicates (map select_columns allele_cn) in
  do snv_log_likelihoods <- annotate_snv_matrix snv_matrix allele_cn;
  do df <- mapM to_record snv_log_likelihoods;
  compute_log_likelihoods df.

(** [compute_snv_log_likelihoods(snv_data, allele_cn, clusters)].  The first
    component is the caller's [allele_cn] table when the call ends (by
    return or by exception): the three column assignments act on the
    object that was passed in.  The second component is the returned table
    or the exception. *)
Definition compute_snv_log_likelihoods (snv_data : list SnvRead)
    (allele_cn : list AlleleCn) (clusters : list ClusterAssignment)
    : list AlleleCn * result (list LikelihoodRow) :=
  let snv_matrix := aggregate (merge snv_data clusters) in
  match astype_int_column cn_total_cn set_total_cn allele_cn with
  | Error e => (allele_cn, Error e)
  | Ok allele_cn =>
  match astype_int_column cn_minor_cn set_minor_cn allele_cn with
  | Error e => (allele_cn, Error e)
  | Ok allele_cn =>
  match astype_int_column cn_major_cn set_major_cn allele_cn with
  | Error e => (allele_cn, Error e)
  | Ok allele_cn => (allele_cn, annotate_and_score snv_matrix allele_cn)
  end end end.

End Pipeline.

(** ** The numerical library in exact arithmetic *)

(** A float64 read as an extended real: the rounding of float64 is left
    out, its special values are kept. *)
Inductive xreal : Type :=
| XNaN
| XNegInf
| XPosInf
| XFin (r : R).

(** Division of float64's, with the special cases of IEEE 754 (the sign of a
    zero apart). *)
Definition xdiv (a b : xreal) : xreal :=
  match a, b with
  | XNaN, _ | _, XNaN => XNaN
  | XFin x, XFin y =>
      if Req_dec_T y 0 then
        if Req_dec_T x 0 then XNaN
        else if Rlt_dec 0 x then XPosInf else XNegInf
      else XFin (x / y)
  | XFin _, (XPosInf | XNegInf) => XFin 0
  | XPosInf, XFin y => if Rlt_dec y 0 then XNegInf else XPosInf
  | XNegInf, XFin y => if Rlt_dec y 0 then XPosInf else XNegInf
  | (XPosInf | XNegInf), (XPosInf | XNegInf) => XNaN
  end.

(** The logarithm of a non-negative real, [-inf] at 0. *)
Definition xln (x : R) : xreal :=
  if Rlt_dec 0 x then XFin (ln x) else XNegInf.

(** The binomial probability [C(n, k) p^k (1 - p)^(n - k)]. *)
Definition binom_pmf (k n : nat) (p : R) : R :=
  (C n k * p ^ k * (1 - p) ^ (n - k))%R.

(** [scipy.stats.binom.logpmf(k, n, p)]: NaN when the parameters are not
    those of a binomial law ([n < 0], [p] outside [[0, 1]]), [-inf] outside
    the support, the logarithm of the probability elsewhere. *)
Definition xbinom_logpmf (k n : Z) (p : xreal) : xreal :=
  match p with
  | XFin p =>
      if n <? 0 then XNaN
      else if Rle_dec 0 p then
        if Rle_dec p 1 then
          if (k <? 0) || (n <? k) then XNegInf
          else xln (binom_pmf (Z.to_nat k) (Z.to_nat n) p)
        else XNaN
      else XNaN
  | _ => XNaN
  end.

Definition is_nan (x : xreal) : bool :=
  match x with XNaN => true | _ => false end.

Definition is_pos_inf (x : xreal) : bool :=
  match x with XPosInf => true | _ => false end.

(** The sum of the exponentials of the finite elements ([exp(-inf)] is 0). *)
Fixpoint sum_exp (l : list xreal) : R :=
  match l with
  | [] => 0%R
  | XFin r :: l' => (exp r + sum_exp l')%R
  | _ :: l' => sum_exp l'
  end.

(** [scipy.misc.logsumexp(l)]: the logarithm of the sum of the
    exponentials. *)
Definition xlogsumexp (l : list xreal) : xreal :=
  if existsb is_nan l then XNaN
  else if existsb is_pos_inf l then XPosInf
  else xln (sum_exp l).

#[export] Instance ExactNumerics : Numerics := {
  float := xreal;
  of_int z := XFin (IZR z);
  of_Q q := XFin (Q2R q);
  fnan := XNaN;
  fdiv := xdiv;
  binom_logpmf := xbinom_logpmf;
  logsumexp := xlogsumexp
}.

(** The order of float64's; NaN is comparable with nothing. *)
Definition xle (a b : xreal) : Prop :=
  match a, b with
  | XNaN, _ | _, XNaN => False
  | XNegInf, _ => True
  | _, XPosInf => True
  | XFin x, XFin y => (x <= y)%R
  | _, _ => False
  end.


(** ** What the specification says *)

(** A joined read contributes to a row of the aggregated table when it has
    the locus [(chrom, coord, ref, alt)] and the cluster of the row. *)
Definition contributes_to (m : MergedRead) (r : SnvCount) : Prop :=
  snv_chrom (read m) = sc_chrom r
  /\ snv_coord (read m) = sc_coord r
  /\ snv_ref (read m) = sc_ref r
  /\ snv_alt (read m) = sc_alt r
  /\ read_cluster_id m = sc_cluster_id r.

(** The candidate numbers of mutated copies, [1, 2, ..., major_cn]. *)
Definition candidate_copy_numbers (major_cn : Z) : list Z :=
  map Z.of_nat (seq 1 (Z.to_nat major_cn)).

(** The log-sum-exp over the candidates [c_v] of
    [logBinomialPMF(alt_counts, total_counts, c_v / (major_cn + minor_cn))]. *)
Definition marginal_present `{Numerics} (major_cn minor_cn alt_counts total_counts : Z)
    : float :=
  logsumexp
    (map (fun c_v =>
            binom_logpmf alt_counts total_counts
              (fdiv (of_int c_v) (of_int (major_cn + minor_cn))))
         (candidate_copy_numbers major_cn)).

(** The probability of the present model: the sum over the candidates of the
    binomial probabilities. *)
Definition sum_R (l : list R) : R := fold_right Rplus 0%R l.

Definition present_probability (major total_cn alt_counts total_counts : Z) : R :=
  sum_R (map (fun c_v => binom_pmf (Z.to_nat alt_counts) (Z.to_nat total_counts)
                           (IZR c_v / IZR total_cn))
             (candidate_copy_numbers major)).

(** ** Examples *)

Definition ex_read : SnvRead :=
  {| snv_sample_id := "sampleA"; snv_chrom := "chr1"; snv_coord := 100;
     snv_ref := "A"; snv_alt := "T"; snv_ref_counts := 8; snv_alt_counts := 2 |}.

Definition ex_clusters : list ClusterAssignment :=
  [{| cl_sample_id := "sampleA"; cl_cluster_id := "cluster1" |}].

Definition ex_segment (cluster : string) (start end_ : Z) (total minor major : num)
    : AlleleCn :=
  {| cn_chr := "chr1"; cn_start := start; cn_end := end_;
     cn_cluster_id := cluster;
     cn_total_cn := total; cn_minor_cn := minor; cn_major_cn := major |}.

Definition ex_allele_cn : list AlleleCn :=
  [ex_segment "cluster1" 0 200 (IntV 2) (IntV 1) (IntV 1)].

(** The same read at coordinate 500, outside the segment [[0, 200)]. *)
Definition ex_read_500 : SnvRead :=
  {| snv_sample_id := "sampleA"; snv_chrom := "chr1"; snv_coord := 500;
     snv_ref := "A"; snv_alt := "T"; snv_ref_counts := 8; snv_alt_counts := 2 |}.

(** A cluster table in which [sampleA] appears in two rows. *)
Definition ex_clusters_twice : list ClusterAssignment :=
  [{| cl_sample_id := "sampleA"; cl_cluster_id := "cluster1" |};
   {| cl_sample_id := "sampleA"; cl_cluster_id := "cluster2" |}].

Definition ex_allele_cn_two_clusters : list AlleleCn :=
  [ex_segment "cluster1" 0 200 (IntV 2) (IntV 1) (IntV 1);
   ex_segment "cluster2" 0 200 (IntV 2) (IntV 1) (IntV 1)].

(** A copy number table with float64 columns, as a segmentation tool writes
    them: 2.0, 1.0, 1.0 and 3.7, 1.2, 2.5. *)
Definition ex_allele_cn_float : list AlleleCn :=
  [ex_segment "cluster1" 0 200 (FloatV (2 # 1)) (FloatV (1 # 1)) (FloatV (1 # 1));
   ex_segment "cluster1" 200 400 (FloatV (37 # 10)) (FloatV (12 # 10)) (FloatV (25 # 10))].

(** The row of [snv_matrix] of the read of the example. *)
Definition ex_count (cluster : string) (coord : Z) : SnvCount :=
  {| sc_chrom := "chr1"; sc_coord := coord; sc_ref := "A"; sc_alt := "T";
     sc_cluster_id := cluster;
     sc_alt_counts := 2; sc_ref_counts := 8; sc_total_counts := 10;
     sc_variant_id := variant_id_of ("chr1", coord, "A", "T") |}.

Definition ex_cn_segment (cluster : string) (start end_ major minor : Z)
    : CnSegment :=
  {| acn_chr := "chr1"; acn_start := start; acn_end := end_;
     acn_cluster_id := cluster;
     acn_total_cn := major + minor; acn_minor_cn := minor; acn_major_cn := major |}.

(** Five segments of one partition, some inside others: sorted by
    [(start, end)] as given, their ends 12, 8, 14, 10, 14 are not in order.
    Their [major_cn] are 1 to 5. *)
Definition ex_nested_segments : list CnSegment :=
  [ex_cn_segment "cluster1" 0 12 1 0; ex_cn_segment "cluster1" 4 8 2 0;
   ex_cn_segment "cluster1" 4 14 3 0; ex_cn_segment "cluster1" 8 10 4 0;
   ex_cn_segment "cluster1" 8 14 5 0].

(** A record of the likelihood stage. *)
Definition ex_record (major minor : option Z) : VariantClusterRecord :=
  {| chrom := "chr1"; coord := 100; ref := "A"; alt := "T";
     cluster_id := "cluster1";
     alt_counts := 2; ref_counts := 8; total_counts := 10;
     variant_id := "chr1:100:A:T";
     major_cn := major; minor_cn := minor; total_cn := cell_add major minor |}.

(** ** Closed forms

    The definitions of this part are not functions of the source: they are
    the closed forms that the theorems on the annotator, on the casts and on
    the aggregation compare the code with. *)

(** The search of one key on its own, between 0 and [len(a)]:
    [np.searchsorted(a, key)] for a single key. *)
Definition search_alone (a : list Z) (key : Z) : nat :=
  bisect_left (List.length a) a key 0 (List.length a).

Section RowWise.
Context {P S C V : Type}.
Variable col_eq_dec : forall a b : C, {a = b} + {a <> b}.
Variable pos_coord : P -> Z.
Variables seg_start seg_end : S -> Z.
Variable seg_col : C -> S -> V.

(** The pairs [(start_idx[i], end_idx[i])] of the coordinates. *)
Definition idx_of (seg : list S) (coords : list Z) : list (Z * Z) :=
  combine (start_idx_of seg_start seg coords) (end_idx_of seg_end seg coords).

(** The pair of indices of a coordinate searched on its own. *)
Definition idx_alone (seg : list S) (coord : Z) : Z * Z :=
  (Z.of_nat (search_alone (map seg_start seg) coord) - 1,
   Z.of_nat (search_alone (map seg_end seg) coord)).

(** The cell that a position with the indices [idx = (start_idx, end_idx)]
    receives in column [col]: the attribute of the row [end_idx] of the
    sorted segments when [start_idx == end_idx], NaN otherwise. *)
Definition lookup_cell (seg : list S) (col : C) (idx : Z * Z) : option V :=
  if fst idx =? snd idx then
    match nth_error seg (Z.to_nat (snd idx)) with
    | Some s => Some (seg_col col s)
    | None => None
    end
  else None.

(** The annotated row of one position, given its indices: the requested
    columns are assigned one after the other. *)
Definition annotate_row (seg : list S) (columns : list C) (p : P)
    (idx : Z * Z) : Annotated P C V :=
  fold_left (fun r col => set_column col_eq_dec col (lookup_cell seg col idx) r)
            columns {| position := p; columns_of := [] |}.

(** The table of a partition: every position annotated from its own pair of
    indices in the two arrays of the search. *)
Definition annotate_rows (seg : list S) (columns : list C) (pos : list P)
    : list (Annotated P C V) :=
  map (fun '(p, idx) => annotate_row seg columns p idx)
      (combine pos (idx_of seg (map pos_coord pos))).

(** The first segment that contains [coord], the intervals being open on the
    left and closed on the right: [start < coord <= end]. *)
Definition covering (seg : list S) (coord : Z) : option S :=
  find (fun s => (seg_start s <? coord) && (coord <=? seg_end s)) seg.

(** Segments in order that do not overlap: every segment has
    [start < end], and ends where the next one starts or before. *)
Fixpoint ordered_disjoint (seg : list S) : Prop :=
  match seg with
  | [] => True
  | s :: seg' =>
      seg_start s < seg_end s
      /\ match seg' with
         | [] => True
         | s' :: _ => seg_end s <= seg_start s'
         end
      /\ ordered_disjoint seg'
  end.
End RowWise.

Section ByPartition.
Context {P S C V : Type}.
Variable col_eq_dec : forall a b : C, {a = b} + {a <> b}.
Variables (pos_sample pos_chrom : P -> string) (pos_coord : P -> Z).
Variables (seg_sample seg_chr : S -> string) (seg_start seg_end : S -> Z).
Variable seg_col : C -> S -> V.

(** The annotated rows, partition after partition, the positions of a
    partition annotated from the sorted segments of that partition. *)
Definition annotated_by_partition (pos : list P) (seg : list S)
    (columns : list C) : list (Annotated P C V) :=
  flat_map
    (fun sample =>
       flat_map
         (fun chrom =>
            annotate_rows col_eq_dec pos_coord seg_start seg_end seg_col
              (sort_by (fun a b => boundary_leb (boundary seg_start seg_end a)
                                                (boundary seg_start seg_end b))
                       (segments_of seg_sample seg_chr seg sample chrom))
              columns
              (partition_of pos_sample pos_chrom pos sample chrom))
         (unique String.eqb (map seg_chr seg)))
    (unique String.eqb (map seg_sample seg)).
End ByPartition.

(** Is a cell NaN? *)
Definition num_is_nan (c : num) : bool :=
  match c with NaNV => true | _ => false end.

(** Does a column of the copy number table hold a NaN? *)
Definition column_has_nan (get : AlleleCn -> num) (df : list AlleleCn) : bool :=
  existsb (fun r => num_is_nan (get r)) df.

(** A row of the copy number table once a column is cast. *)
Definition cast_total_cn (r : AlleleCn) : AlleleCn :=
  set_total_cn r (IntV (int_value (cn_total_cn r))).

Definition cast_minor_cn (r : AlleleCn) : AlleleCn :=
  set_minor_cn r (IntV (int_value (cn_minor_cn r))).

Definition cast_major_cn (r : AlleleCn) : AlleleCn :=
  set_major_cn r (IntV (int_value (cn_major_cn r))).

Definition cast_row (r : AlleleCn) : AlleleCn :=
  cast_major_cn (cast_minor_cn (cast_total_cn r)).

(** The exception of [astype(int)] on a column with a NaN. *)
Definition CannotConvert : exn :=
  ValueError "Cannot convert non-finite values (NA or inf) to integer".

(** The row of [snv_matrix] inside a record of the likelihood stage. *)
Definition count_of_record (r : VariantClusterRecord) : SnvCount :=
  {| sc_chrom := chrom r; sc_coord := coord r; sc_ref := ref r; sc_alt := alt r;
     sc_cluster_id := cluster_id r;
     sc_alt_counts := alt_counts r; sc_ref_counts := ref_counts r;
     sc_total_counts := total_counts r; sc_variant_id := variant_id r |}.

(** The exceptions that [compute_snv_log_likelihoods] can raise. *)
Definition pipeline_exceptions : list exn :=
  [CannotConvert;
   DuplicateSegmentBoundary;
   ValueError "No objects to concatenate";
   ValueError "arange: cannot compute length";
   ValueError "zero-size array to reduction operation maximum which has no identity"].

(** The cell of a copy number column for a row of [snv_matrix] with the
    indices [idx], from the sorted segments of its partition. *)
Definition cn_cell (seg : list CnSegment) (col : CnColumn) (idx : Z * Z)
    : option Z :=
  lookup_cell cn_column seg col idx.

(** The record of the likelihood stage of a row of [snv_matrix] annotated
    from the segments [seg] at the indices [idx]. *)
Definition record_of (seg : list CnSegment) (idx : Z * Z) (p : SnvCount)
    : VariantClusterRecord :=
  {| chrom := sc_chrom p; coord := sc_coord p; ref := sc_ref p; alt := sc_alt p;
     cluster_id := sc_cluster_id p;
     alt_counts := sc_alt_counts p; ref_counts := sc_ref_counts p;
     total_counts := sc_total_counts p; variant_id := sc_variant_id p;
     major_cn := cn_cell seg MajorCn idx;
     minor_cn := cn_cell seg MinorCn idx;
     total_cn := cn_cell seg TotalCn idx |}.

(** The number of rows of the cluster table for a sample. *)
Definition n_assignments (clusters : list ClusterAssignment) (sample : string)
    : nat :=
  List.length (filter (fun a => String.eqb sample (cl_sample_id a)) clusters).

(** Equality of the keys [(locus, cluster)] of the aggregated table. *)
Definition key_eqb (a b : Locus * string) : bool :=
  locus_eqb (fst a) (fst b) && String.eqb (snd a) (snd b).

(** [':' in s]. *)
Fixpoint has_colon (s : string) : bool :=
  match s with
  | EmptyString => false
  | String c s' => Ascii.eqb c ":" || has_colon s'
  end.

(** * Proofs *)

(** ** The error monad *)

Lemma mapM_length {A B : Type} (f : A -> result B) (l : list A) (ys : list B) :
  mapM f l = Ok ys -> List.length ys = List.length l.
Proof.
  revert ys; induction l as [|x l IH]; simpl; intros ys H.
  - injection H as <-. reflexivity.
  - destruct (f x) as [y|e]; simpl in H; [|discriminate].
    destruct (mapM f l) as [zs|e]; simpl in H; [|discriminate].
    injection H as <-. simpl. f_equal. now apply IH.
Qed.

Lemma mapM_total {A B : Type} (f : A -> result B) (g : A -> B) (l : list A) :
  (forall x, In x l -> f x = Ok (g x)) -> mapM f l = Ok (map g l).
Proof.
  induction l as [|x l IH]; simpl; intros H; [reflexivity|].
  rewrite (H x (or_introl eq_refl)). simpl.
  rewrite IH by (intros y Hy; apply H; now right). reflexivity.
Qed.

Lemma mapM_error {A B : Type} (f : A -> result B) (l : list A) (e : exn) :
  (forall x, In x l -> is_ok (f x) = true \/ f x = Error e) ->
  (exists x, In x l /\ f x = Error e) ->
  mapM f l = Error e.
Proof.
  induction l as [|x l IH]; simpl; intros Hall [y [Hy He]]; [contradiction|].
  destruct (Hall x (or_introl eq_refl)) as [Hok|Herr].
  - destruct (f x) as [b|e'] eqn:Hfx; [|discriminate]. simpl.
    rewrite IH; [reflexivity| |].
    + intros z Hz. apply Hall. now right.
    + destruct Hy as [<-|Hy]; [congruence|]. now exists y.
  - rewrite Herr. reflexivity.
Qed.

(** ** LikelihoodModel *)

Lemma ceil_div_1 (a : Z) : ceil_div a 1 = a.
Proof. unfold ceil_div. rewrite Z.div_1_r. lia. Qed.

(** [np.arange(1., c_m + 1., 1.)] enumerates the candidates 1, ..., [c_m]. *)
Lemma np_arange_candidates (c_m : Z) :
  np_arange 1 (c_m + 1) 1 = candidate_copy_numbers c_m.
Proof.
  unfold np_arange, candidate_copy_numbers.
  replace (c_m + 1 - 1) with c_m by lia. rewrite ceil_div_1.
  rewrite <- seq_shift, map_map. apply map_ext. intros i. lia.
Qed.

Lemma candidate_copy_numbers_nonempty (c_m : Z) :
  1 <= c_m -> candidate_copy_numbers c_m <> [].
Proof.
  intros H. unfold candidate_copy_numbers.
  destruct (Z.to_nat c_m) as [|n] eqn:E; [lia|]. simpl. discriminate.
Qed.

Lemma In_candidate_copy_numbers (c_m c_v : Z) :
  In c_v (candidate_copy_numbers c_m) <-> 1 <= c_v <= c_m.
Proof.
  unfold candidate_copy_numbers. rewrite in_map_iff. split.
  - intros [i [<- Hi]]. apply in_seq in Hi. lia.
  - intros H. exists (Z.to_nat c_v). split; [lia|]. apply in_seq. lia.
Qed.

Section LikelihoodFacts.
Context `{N : Numerics}.

(** The loop of [log_likelihood_present] appends one conditional
    log-likelihood per candidate, in order. *)
Lemma fold_present_step (c_t : option Z) (n_v n_t : Z) (c_vs : list Z)
    (acc : list float) :
  fold_left (present_step c_t n_v n_t) c_vs acc =
  acc ++ map (fun c_v => log_binomial_pdf n_v n_t (fdiv (of_int c_v) (of_cell c_t)))
             c_vs.
Proof.
  revert acc; induction c_vs as [|c l IH]; intros acc; simpl.
  - now rewrite app_nil_r.
  - rewrite IH. unfold present_step. now rewrite <- app_assoc.
Qed.

Lemma log_sum_exp_nonempty (l : list float) :
  l <> [] -> log_sum_exp l = Ok (logsumexp l).
Proof. destruct l; [congruence|reflexivity]. Qed.

Lemma log_likelihood_present_marginal (c_m minor n_v n_t : Z) (e_s : float) :
  1 <= c_m ->
  log_likelihood_present (Some c_m) (Some (c_m + minor)) e_s n_v n_t =
  Ok (marginal_present c_m minor n_v n_t).
Proof.
  intros Hm. unfold log_likelihood_present. simpl.
  destruct (c_m =? 0) eqn:E; [lia|]. simpl.
  rewrite fold_present_step, np_arange_candidates. simpl.
  rewrite log_sum_exp_nonempty; [reflexivity|].
  intros H. apply map_eq_nil in H. now apply candidate_copy_numbers_nonempty in H.
Qed.

(** C1. For a record with a defined copy number and [major_cn >= 1],
    the present log-likelihood is the log-sum-exp, over the candidate
    numbers of mutated copies [c_v = 1, ..., major_cn], of the binomial
    log-probability of [alt_counts] among
    [total_counts = ref_counts + alt_counts] reads at the allele fraction
    [c_v / (major_cn + minor_cn)]. *)
Theorem present_is_marginal_over_candidates (row : VariantClusterRecord)
    (e_s : float) (major minor : Z) :
  major_cn row = Some major ->
  minor_cn row = Some minor ->
  1 <= major ->
  calculate_likelihood_present row e_s =
  Ok (marginal_present major minor (alt_counts row)
        (ref_counts row + alt_counts row)).
Proof.
  intros Hmaj Hmin Hm. unfold calculate_likelihood_present.
  rewrite Hmaj, Hmin. simpl. now apply log_likelihood_present_marginal.
Qed.

(** C4. With [major_cn = 0] the present log-likelihood of a record is its
    absent log-likelihood, for the same counts and error rate. *)
Theorem present_degenerates_to_absent (row : VariantClusterRecord)
    (e_s : float) :
  major_cn row = Some 0 ->
  calculate_likelihood_present row e_s =
  Ok (calculate_likelihood_absent row e_s).
Proof.
  intros Hmaj. unfold calculate_likelihood_present, calculate_likelihood_absent.
  rewrite Hmaj. unfold log_likelihood_present. simpl.
  now rewrite (Z.add_comm (ref_counts row)).
Qed.

End LikelihoodFacts.

(** ** The likelihood stage *)

Lemma combine_map_pair {A B D : Type} (f : A -> B) (g : A -> D) (l : list A) :
  combine l (combine (map f l) (map g l)) = map (fun x => (x, (f x, g x))) l.
Proof. induction l as [|x l IH]; simpl; [reflexivity|now rewrite IH]. Qed.

Section LikelihoodStageFacts.
Context `{N : Numerics}.

(** The present log-likelihood of a record whose [major_cn] is defined and
    not negative: the call returns. *)
Lemma calculate_likelihood_present_returns (row : VariantClusterRecord)
    (e_s : float) (m : Z) :
  major_cn row = Some m -> 0 <= m ->
  exists v, calculate_likelihood_present row e_s = Ok v.
Proof.
  intros Hmaj Hm. unfold calculate_likelihood_present, log_likelihood_present.
  rewrite Hmaj. simpl. destruct (m =? 0) eqn:E; [eexists; reflexivity|].
  simpl. rewrite fold_present_step, np_arange_candidates. simpl.
  rewrite log_sum_exp_nonempty; [eexists; reflexivity|].
  intros H. apply map_eq_nil in H.
  apply candidate_copy_numbers_nonempty in H; [exact H|lia].
Qed.

(** A record whose [major_cn] is NaN: the call raises. *)
Lemma calculate_likelihood_present_nan (row : VariantClusterRecord)
    (e_s : float) :
  major_cn row = None ->
  calculate_likelihood_present row e_s =
  Error (ValueError "arange: cannot compute length").
Proof.
  intros Hmaj. unfold calculate_likelihood_present, log_likelihood_present.
  rewrite Hmaj. reflexivity.
Qed.

Lemma compute_log_likelihoods_with_defined (df : list VariantClusterRecord)
    (e_s : float) :
  (forall row, In row df -> exists m, major_cn row = Some m /\ 0 <= m) ->
  compute_log_likelihoods_with df e_s =
  Ok (map (fun row => {| record := row;
                         ll_absent := calculate_likelihood_absent row e_s;
                         ll_present := present_or_nan e_s row |}) df).
Proof.
  intros Hdf. unfold compute_log_likelihoods_with, apply_rows.
  rewrite (mapM_total _ (fun row => calculate_likelihood_absent row e_s))
    by reflexivity.
  simpl.
  rewrite (mapM_total _ (present_or_nan e_s)).
  - simpl. rewrite combine_map_pair, map_map. reflexivity.
  - intros row Hrow. destruct (Hdf row Hrow) as [m [Hm Hge]].
    destruct (calculate_likelihood_present_returns row e_s m Hm Hge) as [v Hv].
    unfold present_or_nan. now rewrite Hv.
Qed.

(** C6, as the code has it. When every row of a table with rows has a
    defined [major_cn >= 0], the likelihood stage does not fail: it returns every
    row of its input, in order and with its copy number attributes as they
    were (no row is excluded), each with its absent log-likelihood, which
    is computed from the counts and the error rate alone, and with its
    present log-likelihood. *)
Theorem likelihood_stage_on_defined_rows (df : list VariantClusterRecord) :
  df <> [] ->
  (forall row, In row df -> exists m, major_cn row = Some m /\ 0 <= m) ->
  exists out,
    compute_log_likelihoods df = Ok out
    /\ map record out = df
    /\ forall r, In r out ->
         ll_absent r =
           log_likelihood_absent default_error_rate (alt_counts (record r))
             (alt_counts (record r) + ref_counts (record r))
         /\ calculate_likelihood_present (record r) default_error_rate =
            Ok (ll_present r).
Proof.
  intros _ Hdf. unfold compute_log_likelihoods.
  rewrite (compute_log_likelihoods_with_defined df default_error_rate Hdf).
  eexists; split; [reflexivity|]. split.
  - rewrite map_map. simpl. apply map_id.
  - intros r Hr. apply in_map_iff in Hr. destruct Hr as [row [<- Hrow]]. simpl.
    split; [reflexivity|].
    destruct (Hdf row Hrow) as [m [Hm Hge]].
    destruct (calculate_likelihood_present_returns row default_error_rate m Hm Hge)
      as [v Hv].
    unfold present_or_nan. now rewrite Hv.
Qed.

End LikelihoodStageFacts.

(** ** Lists: sorting, distinct values, duplicates *)

Lemma insert_sorted_perm {A : Type} (leb : A -> A -> bool) (x : A) (l : list A) :
  Permutation (insert_sorted leb x l) (x :: l).
Proof.
  induction l as [|y l IH]; simpl; [reflexivity|].
  destruct (leb x y); [reflexivity|].
  rewrite IH. apply perm_swap.
Qed.

Lemma sort_by_perm {A : Type} (leb : A -> A -> bool) (l : list A) :
  Permutation (sort_by leb l) l.
Proof.
  induction l as [|x l IH]; simpl; [reflexivity|].
  unfold sort_by in *. simpl. rewrite insert_sorted_perm. now constructor.
Qed.

Lemma sort_by_length {A : Type} (leb : A -> A -> bool) (l : list A) :
  List.length (sort_by leb l) = List.length l.
Proof. apply Permutation_length, sort_by_perm. Qed.

Section Unique.
Context {A : Type} (eqb : A -> A -> bool).
Hypothesis eqb_spec : forall x y, eqb x y = true <-> x = y.

Lemma eqb_refl' (x : A) : eqb x x = true.
Proof. now apply eqb_spec. Qed.

Lemma In_unique (x : A) (l : list A) : In x (unique eqb l) <-> In x l.
Proof.
  induction l as [|y l IH]; simpl; [tauto|].
  rewrite filter_In, IH. split.
  - intros [H|[H _]]; tauto.
  - intros [H|H]; [now left|].
    destruct (eqb y x) eqn:E.
    + left. now apply eqb_spec.
    + right. now split.
Qed.

Lemma NoDup_unique (l : list A) : NoDup (unique eqb l).
Proof.
  induction l as [|y l IH]; simpl; constructor.
  - rewrite filter_In. intros [_ H]. cbv beta in H. now rewrite eqb_refl' in H.
  - now apply NoDup_filter.
Qed.

Lemma has_duplicate_false_NoDup (l : list A) :
  has_duplicate eqb l = false <-> NoDup l.
Proof.
  induction l as [|x l IH]; simpl.
  - split; [constructor|reflexivity].
  - rewrite orb_false_iff, IH. split.
    + intros [Hx Hl]. constructor; [|exact Hl].
      intros Hin. assert (existsb (eqb x) l = true) as E.
      { apply existsb_exists. exists x. split; [exact Hin|apply eqb_refl']. }
      congruence.
    + intros H. inversion H as [|? ? Hx Hl]; subst. split; [|exact Hl].
      destruct (existsb (eqb x) l) eqn:E; [|reflexivity].
      apply existsb_exists in E. destruct E as [y [Hy Hxy]].
      apply eqb_spec in Hxy. subst. contradiction.
Qed.
End Unique.

Lemma boundary_eqb_spec (a b : Z * Z) : boundary_eqb a b = true <-> a = b.
Proof.
  destruct a as [a1 a2], b as [b1 b2]. unfold boundary_eqb. simpl.
  rewrite andb_true_iff, !Z.eqb_eq. split; [intros []; congruence|].
  intros H; injection H; auto.
Qed.

(** ** The binary search *)

Lemma bisect_left_S (fuel : nat) (a : list Z) (key : Z) (lo hi : nat) :
  bisect_left (S fuel) a key lo hi =
  if (lo <? hi)%nat then
    if nth (lo + (hi - lo) / 2) a 0 <? key
    then bisect_left fuel a key (lo + (hi - lo) / 2 + 1) hi
    else bisect_left fuel a key lo (lo + (hi - lo) / 2)
  else lo.
Proof. reflexivity. Qed.

Lemma bisect_left_bounds (fuel : nat) (a : list Z) (key : Z) (lo hi : nat) :
  (lo <= hi)%nat ->
  (lo <= bisect_left fuel a key lo hi <= hi)%nat.
Proof.
  revert lo hi; induction fuel as [|fuel IH]; intros lo hi Hle.
  - simpl. lia.
  - rewrite bisect_left_S.
    destruct (lo <? hi)%nat eqn:E; [|lia].
    apply Nat.ltb_lt in E.
    assert ((hi - lo) / 2 < hi - lo)%nat as Hhalf
      by (apply Nat.div_lt; lia).
    remember ((hi - lo) / 2)%nat as half eqn:Ehalf. clear Ehalf.
    destruct (nth (lo + half) a 0 <? key).
    + assert (lo + half + 1 <= hi)%nat as H1 by lia.
      specialize (IH _ _ H1). lia.
    + assert (lo <= lo + half)%nat as H1 by lia.
      specialize (IH _ _ H1). lia.
Qed.

Lemma search_alone_bounds (a : list Z) (key : Z) :
  (search_alone a key <= List.length a)%nat.
Proof.
  unfold search_alone.
  pose proof (bisect_left_bounds (List.length a) a key 0 (List.length a)). lia.
Qed.

Lemma binsearch_length (a : list Z) (keys : list Z) :
  forall last_key_val min_idx max_idx,
  List.length (binsearch a last_key_val min_idx max_idx keys) = List.length keys.
Proof.
  induction keys as [|key keys IH]; intros last lo hi; cbn [binsearch List.length];
    [reflexivity|].
  now rewrite IH.
Qed.

Lemma searchsorted_length (a keys : list Z) :
  List.length (searchsorted a keys) = List.length keys.
Proof. destruct keys; [reflexivity|apply binsearch_length]. Qed.

(** Whatever the bounds taken over from the key before, an index is between
    0 and [len(a)]. *)
Lemma binsearch_bounds (a : list Z) (keys : list Z) :
  forall last_key_val min_idx max_idx,
  (min_idx <= List.length a)%nat ->
  Forall (fun idx => (idx <= List.length a)%nat)
         (binsearch a last_key_val min_idx max_idx keys).
Proof.
  induction keys as [|key keys IH]; intros last lo hi Hlo; cbn [binsearch];
    [constructor|].
  set (lo' := if last <? key then lo else 0%nat).
  set (hi' := if last <? key then List.length a
              else if (hi <? List.length a)%nat then (hi + 1)%nat
                   else List.length a).
  assert (lo' <= hi' <= List.length a)%nat as Hb.
  { unfold lo', hi'. destruct (last <? key); [lia|].
    destruct (hi <? List.length a)%nat eqn:E; [apply Nat.ltb_lt in E|]; lia. }
  pose proof (bisect_left_bounds (List.length a) a key lo' hi' (proj1 Hb)) as Hr.
  constructor; [lia|]. apply IH. lia.
Qed.

Lemma searchsorted_bounds (a keys : list Z) :
  Forall (fun idx => (idx <= List.length a)%nat) (searchsorted a keys).
Proof.
  destruct keys as [|key keys]; [constructor|].
  unfold searchsorted. apply binsearch_bounds. lia.
Qed.

Lemma searchsorted_nil (keys : list Z) :
  searchsorted [] keys = map (fun _ => 0%nat) keys.
Proof.
  destruct keys as [|key0 keys0]; [reflexivity|].
  unfold searchsorted. cbn [List.length].
  generalize key0 at 1. generalize 0%nat at 2.
  generalize (key0 :: keys0). clear.
  intros keys; induction keys as [|key keys IH]; intros hi last;
    [reflexivity|].
  cbn [binsearch map List.length bisect_left].
  destruct (last <? key); f_equal; apply IH.
Qed.

Lemma searchsorted_one (a : list Z) (key : Z) :
  searchsorted a [key] = [search_alone a key].
Proof.
  unfold searchsorted, search_alone. cbn [binsearch].
  now rewrite Z.ltb_irrefl, Nat.ltb_irrefl.
Qed.

(** The fuel of the search is enough: more fuel gives the same index. *)
Lemma bisect_left_fuel (f1 f2 : nat) (a : list Z) (key : Z) (lo hi : nat) :
  (hi - lo <= f1)%nat -> (hi - lo <= f2)%nat ->
  bisect_left f1 a key lo hi = bisect_left f2 a key lo hi.
Proof.
  revert f2 lo hi; induction f1 as [|f1 IH]; intros f2 lo hi H1 H2.
  - destruct f2 as [|f2]; [reflexivity|]. rewrite bisect_left_S. simpl.
    destruct (lo <? hi)%nat eqn:E; [|reflexivity]. apply Nat.ltb_lt in E. lia.
  - destruct f2 as [|f2].
    + rewrite bisect_left_S. simpl.
      destruct (lo <? hi)%nat eqn:E; [|reflexivity]. apply Nat.ltb_lt in E. lia.
    + rewrite !bisect_left_S.
      destruct (lo <? hi)%nat eqn:E; [|reflexivity]. apply Nat.ltb_lt in E.
      assert ((hi - lo) / 2 < hi - lo)%nat as Hhalf by (apply Nat.div_lt; lia).
      remember ((hi - lo) / 2)%nat as half eqn:Ehalf. clear Ehalf.
      destruct (nth (lo + half) a 0 <? key); apply IH; lia.
Qed.

(** On a sorted array the index is the insertion point of [key] on the left:
    the elements before it are smaller than [key], the others are not. *)
Lemma bisect_left_sorted (fuel : nat) (a : list Z) (key : Z) (lo hi : nat) :
  (forall i j, (i <= j < List.length a)%nat -> nth i a 0 <= nth j a 0) ->
  (lo <= hi <= List.length a)%nat ->
  (hi - lo <= fuel)%nat ->
  (forall i, (i < lo)%nat -> nth i a 0 < key) ->
  (forall i, (hi <= i < List.length a)%nat -> key <= nth i a 0) ->
  let r := bisect_left fuel a key lo hi in
  (forall i, (i < r)%nat -> nth i a 0 < key)
  /\ (forall i, (r <= i < List.length a)%nat -> key <= nth i a 0).
Proof.
  intros Hsorted. revert lo hi.
  induction fuel as [|fuel IH]; intros lo hi Hb Hfuel Hlo Hhi.
  - simpl. split; [exact Hlo|]. intros i Hi. apply Hhi. lia.
  - cbv zeta. rewrite bisect_left_S.
    destruct (lo <? hi)%nat eqn:E.
    + apply Nat.ltb_lt in E.
      assert ((hi - lo) / 2 < hi - lo)%nat as Hhalf by (apply Nat.div_lt; lia).
      remember ((hi - lo) / 2)%nat as half eqn:Ehalf. clear Ehalf.
      destruct (nth (lo + half) a 0 <? key) eqn:Ek.
      * apply Z.ltb_lt in Ek. apply IH; [lia|lia| |exact Hhi].
        intros i Hi. specialize (Hsorted i (lo + half)%nat). lia.
      * apply Z.ltb_ge in Ek. apply IH; [lia|lia|exact Hlo|].
        intros i Hi. specialize (Hsorted (lo + half)%nat i). lia.
    + apply Nat.ltb_ge in E. split; [exact Hlo|].
      intros i Hi. apply Hhi. lia.
Qed.

Lemma search_alone_sorted (a : list Z) (key : Z) :
  (forall i j, (i <= j < List.length a)%nat -> nth i a 0 <= nth j a 0) ->
  (forall i, (i < search_alone a key)%nat -> nth i a 0 < key)
  /\ (forall i, (search_alone a key <= i < List.length a)%nat -> key <= nth i a 0).
Proof.
  intros Hsorted. unfold search_alone.
  apply (bisect_left_sorted (List.length a) a key 0 (List.length a) Hsorted);
    intros; lia.
Qed.

(** The insertion point is unique. *)
Lemma insertion_point_unique (a : list Z) (key : Z) (r1 r2 : nat) :
  (r1 <= List.length a)%nat -> (r2 <= List.length a)%nat ->
  (forall i, (i < r1)%nat -> nth i a 0 < key) ->
  (forall i, (r1 <= i < List.length a)%nat -> key <= nth i a 0) ->
  (forall i, (i < r2)%nat -> nth i a 0 < key) ->
  (forall i, (r2 <= i < List.length a)%nat -> key <= nth i a 0) ->
  r1 = r2.
Proof.
  intros Hb1 Hb2 Hlt1 Hge1 Hlt2 Hge2.
  destruct (Nat.lt_trichotomy r1 r2) as [H|[H|H]]; [|exact H|]; exfalso.
  - specialize (Hlt2 r1 H). specialize (Hge1 r1 ltac:(lia)). lia.
  - specialize (Hlt1 r2 H). specialize (Hge2 r2 ltac:(lia)). lia.
Qed.

(** On a sorted array the bounds taken over from the key before never cut
    the insertion point off: every key gets the index it gets on its own. *)
Lemma binsearch_sorted (a : list Z) (keys : list Z) :
  (forall i j, (i <= j < List.length a)%nat -> nth i a 0 <= nth j a 0) ->
  forall last_key_val min_idx max_idx,
  (min_idx <= List.length a)%nat ->
  (forall i, (i < min_idx)%nat -> nth i a 0 < last_key_val) ->
  (forall i, (max_idx <= i < List.length a)%nat -> last_key_val <= nth i a 0) ->
  binsearch a last_key_val min_idx max_idx keys = map (search_alone a) keys.
Proof.
  intros Hsorted.
  induction keys as [|key keys IH]; intros last lo hi Hlo Hlt Hge;
    cbn [binsearch map]; [reflexivity|].
  set (lo' := if last <? key then lo else 0%nat).
  set (hi' := if last <? key then List.length a
              else if (hi <? List.length a)%nat then (hi + 1)%nat
                   else List.length a).
  assert (lo' <= hi' <= List.length a)%nat as Hb.
  { unfold lo', hi'. destruct (last <? key); [lia|].
    destruct (hi <? List.length a)%nat eqn:E; [apply Nat.ltb_lt in E|]; lia. }
  assert (forall i, (i < lo')%nat -> nth i a 0 < key) as Hlt'.
  { unfold lo'. destruct (last <? key) eqn:E; [|intros; lia].
    apply Z.ltb_lt in E. intros i Hi. specialize (Hlt i Hi). lia. }
  assert (forall i, (hi' <= i < List.length a)%nat -> key <= nth i a 0) as Hge'.
  { unfold hi'. destruct (last <? key) eqn:E; [intros; lia|].
    apply Z.ltb_ge in E. intros i Hi.
    assert (hi <= i < List.length a)%nat as Hi'
      by (destruct (hi <? List.length a)%nat eqn:E'; [apply Nat.ltb_lt in E'|]; lia).
    specialize (Hge i Hi'). lia. }
  pose proof (bisect_left_bounds (List.length a) a key lo' hi' (proj1 Hb)) as Hr.
  destruct (bisect_left_sorted (List.length a) a key lo' hi' Hsorted Hb
              ltac:(lia) Hlt' Hge') as [H1 H2].
  destruct (search_alone_sorted a key Hsorted) as [H3 H4].
  pose proof (search_alone_bounds a key) as Hs.
  assert (bisect_left (List.length a) a key lo' hi' = search_alone a key) as E
    by (apply (insertion_point_unique a key); try assumption; lia).
  rewrite E in *. f_equal. apply IH; [exact Hs|exact H3|exact H4].
Qed.

Lemma searchsorted_sorted (a keys : list Z) :
  (forall i j, (i <= j < List.length a)%nat -> nth i a 0 <= nth j a 0) ->
  searchsorted a keys = map (search_alone a) keys.
Proof.
  intros Hsorted. destruct keys as [|key keys]; [reflexivity|].
  unfold searchsorted. apply binsearch_sorted; [exact Hsorted|lia| |];
    intros; lia.
Qed.

(** ** Cells and columns *)

Lemma mapM_exists {A B : Type} (f : A -> result B) (Q : A -> B -> Prop)
    (l : list A) :
  (forall x, In x l -> exists y, f x = Ok y /\ Q x y) ->
  exists ys, mapM f l = Ok ys /\ Forall2 Q l ys.
Proof.
  induction l as [|x l IH]; simpl; intros H.
  - exists []. split; [reflexivity|constructor].
  - destruct (H x (or_introl eq_refl)) as [y [Hy HQ]].
    destruct IH as [ys [Hys HF]]; [intros z Hz; apply H; now right|].
    exists (y :: ys). rewrite Hy, Hys. split; [reflexivity|now constructor].
Qed.

Lemma combine_map {A B D : Type} (f : A -> B) (g : A -> D) (l : list A) :
  combine (map f l) (map g l) = map (fun x => (f x, g x)) l.
Proof. induction l as [|x l IH]; simpl; [reflexivity|now rewrite IH]. Qed.

Lemma iloc_in_bounds {V : Type} (values : list V) (i : Z) :
  0 <= i < Z.of_nat (List.length values) ->
  exists v, iloc values i = Ok v /\ nth_error values (Z.to_nat i) = Some v.
Proof.
  intros H. unfold iloc.
  destruct (i <? 0) eqn:E; [lia|].
  replace ((0 <=? i) && (i <? Z.of_nat (List.length values))) with true
    by (symmetry; apply andb_true_iff; lia).
  destruct (nth_error values (Z.to_nat i)) as [v|] eqn:Hn.
  - now exists v.
  - apply nth_error_None in Hn. lia.
Qed.

Section CellFacts.
Context {C V : Type}.
Variable col_eq_dec : forall a b : C, {a = b} + {a <> b}.

Lemma get_set_cell (col : C) (v : option V) (cells : list (C * option V)) :
  get_cell col_eq_dec col (set_cell col_eq_dec col v cells) = Ok v.
Proof.
  induction cells as [|[c w] cells IH]; simpl.
  - destruct (col_eq_dec col col); [reflexivity|congruence].
  - destruct (col_eq_dec c col) as [->|Hne]; simpl.
    + destruct (col_eq_dec col col); [reflexivity|congruence].
    + destruct (col_eq_dec c col); [congruence|exact IH].
Qed.

Lemma get_set_cell_other (col col' : C) (v : option V)
    (cells : list (C * option V)) :
  col <> col' ->
  get_cell col_eq_dec col (set_cell col_eq_dec col' v cells) =
  get_cell col_eq_dec col cells.
Proof.
  intros Hne. induction cells as [|[c w] cells IH]; simpl.
  - destruct (col_eq_dec col' col); [congruence|reflexivity].
  - destruct (col_eq_dec c col') as [->|Hc]; simpl.
    + destruct (col_eq_dec col' col); [congruence|reflexivity].
    + destruct (col_eq_dec c col); [reflexivity|exact IH].
Qed.

Lemma assign_masked_position {P : Type} (col : C) (rows : list (Annotated P C V))
    (mask : list bool) (values : list V) :
  map position (assign_masked col_eq_dec col rows mask values) = map position rows.
Proof.
  revert mask values; induction rows as [|r rows IH]; intros mask values.
  - destruct mask; reflexivity.
  - destruct mask as [|[|] mask]; simpl; [reflexivity| |].
    + destruct values as [|v values]; simpl; now rewrite IH.
    + now rewrite IH.
Qed.

Lemma assign_masked_no_values {P : Type} (col : C) (rows : list (Annotated P C V))
    (mask : list bool) :
  assign_masked col_eq_dec col rows mask [] = rows.
Proof.
  revert mask; induction rows as [|r rows IH]; intros mask.
  - destruct mask; reflexivity.
  - destruct mask as [|[|] mask]; simpl; [reflexivity| |]; now rewrite IH.
Qed.

Lemma set_column_position {P : Type} (col : C) (v : option V)
    (rows : list (Annotated P C V)) :
  map position (map (set_column col_eq_dec col v) rows) = map position rows.
Proof. rewrite map_map. reflexivity. Qed.

End CellFacts.

(** ** Lists: loops that collect tables *)

Lemma mapM_cases {A B : Type} (f : A -> result B) (l : list A) (e : exn) :
  (forall x, In x l -> is_ok (f x) = true \/ f x = Error e) ->
  is_ok (mapM f l) = true \/ mapM f l = Error e.
Proof.
  induction l as [|x l IH]; simpl; intros Hall; [now left|].
  destruct (Hall x (or_introl eq_refl)) as [Hok|Herr].
  - destruct (f x) as [b|e']; [|discriminate]. simpl.
    destruct IH as [H|H]; [intros z Hz; apply Hall; now right| |].
    + destruct (mapM f l); [now left|discriminate].
    + rewrite H. now right.
  - rewrite Herr. now right.
Qed.

Lemma Forall2_In_r {A B : Type} (Q : A -> B -> Prop) (l : list A) (ys : list B)
    (y : B) :
  Forall2 Q l ys -> In y ys -> exists x, In x l /\ Q x y.
Proof.
  induction 1 as [|x y' l ys HQ _ IH]; simpl; [contradiction|].
  intros [<-|Hy].
  - exists x. auto.
  - destruct (IH Hy) as [x' [Hx' HQ']]. exists x'. auto.
Qed.

Lemma Forall2_flat_map {A B D : Type} (g : B -> list D) (h : A -> list D)
    (l : list A) (ys : list B) :
  Forall2 (fun x y => g y = h x) l ys -> flat_map g ys = flat_map h l.
Proof. induction 1 as [|x y l ys E _ IH]; simpl; [reflexivity|now rewrite E, IH]. Qed.

Lemma map_concat_flat_map {A B : Type} (f : A -> B) (ls : list (list A)) :
  map f (List.concat ls) = flat_map (map f) ls.
Proof.
  induction ls as [|l ls IH]; simpl; [reflexivity|].
  now rewrite map_app, IH.
Qed.

Lemma filter_or_disjoint {A : Type} (p q : A -> bool) (l : list A) :
  (forall x, p x = true -> q x = true -> False) ->
  Permutation (filter (fun x => p x || q x) l) (filter p l ++ filter q l).
Proof.
  intros Hdis. induction l as [|x l IH]; simpl; [constructor|].
  destruct (p x) eqn:Hp, (q x) eqn:Hq; simpl.
  - exfalso. eauto.
  - now constructor.
  - now apply Permutation_cons_app.
  - exact IH.
Qed.

Lemma flat_map_perm_ext {A B : Type} (f g : A -> list B) (l : list A) :
  (forall x, Permutation (f x) (g x)) ->
  Permutation (flat_map f l) (flat_map g l).
Proof.
  intros H. induction l as [|x l IH]; simpl; [constructor|].
  now apply Permutation_app.
Qed.

Lemma filter_filter_comm {A : Type} (p q : A -> bool) (l : list A) :
  filter p (filter q l) = filter q (filter p l).
Proof.
  induction l as [|x l IH]; simpl; [reflexivity|].
  destruct (p x) eqn:Hp, (q x) eqn:Hq; simpl; rewrite ?Hp, ?Hq, IH; reflexivity.
Qed.

Lemma filter_filter_andb {A : Type} (p q : A -> bool) (l : list A) :
  filter p (filter q l) = filter (fun x => p x && q x) l.
Proof.
  induction l as [|x l IH]; simpl; [reflexivity|].
  destruct (p x) eqn:Hp, (q x) eqn:Hq; simpl; rewrite ?Hp, IH; reflexivity.
Qed.

Lemma existsb_unique (x : string) (l : list string) :
  existsb (String.eqb x) (unique String.eqb l) = existsb (String.eqb x) l.
Proof.
  apply eq_true_iff_eq. rewrite !existsb_exists. split.
  - intros [y [Hy E]]. exists y. split; [|exact E].
    apply (In_unique String.eqb String.eqb_eq). exact Hy.
  - intros [y [Hy E]]. exists y. split; [|exact E].
    apply (In_unique String.eqb String.eqb_eq). exact Hy.
Qed.

(** The rows selected key by key, for distinct keys, are the rows whose key
    is one of the keys. *)
Lemma flat_map_filter_keys {A : Type} (key : A -> string) (keys : list string)
    (l : list A) :
  NoDup keys ->
  Permutation
    (flat_map (fun k => filter (fun x => String.eqb (key x) k) l) keys)
    (filter (fun x => existsb (String.eqb (key x)) keys) l).
Proof.
  induction 1 as [|k keys Hk _ IH]; simpl.
  - induction l as [|x l IHl]; simpl; [constructor|exact IHl].
  - rewrite filter_or_disjoint.
    + now apply Permutation_app_head.
    + intros x Hx Hex. apply String.eqb_eq in Hx.
      apply existsb_exists in Hex. destruct Hex as [k' [Hk' E]].
      apply String.eqb_eq in E. congruence.
Qed.

Lemma combine_fst {A B : Type} (xs : list A) (ys : list B) :
  List.length xs = List.length ys -> map fst (combine xs ys) = xs.
Proof.
  revert ys; induction xs as [|x xs IH]; intros [|y ys] H; try discriminate;
    [reflexivity|].
  simpl. f_equal. apply IH. now injection H.
Qed.

Lemma combine_snd {A B : Type} (xs : list A) (ys : list B) :
  List.length xs = List.length ys -> map snd (combine xs ys) = ys.
Proof.
  revert ys; induction xs as [|x xs IH]; intros [|y ys] H; try discriminate;
    [reflexivity|].
  simpl. f_equal. apply IH. now injection H.
Qed.

(** ** IntervalAnnotator: one partition *)

Section AnnotatorFacts.
Context {P S C V : Type}.
Variable col_eq_dec : forall a b : C, {a = b} + {a <> b}.
Variables (pos_sample pos_chrom : P -> string) (pos_coord : P -> Z).
Variables (seg_sample seg_chr : S -> string) (seg_start seg_end : S -> Z).
Variable seg_col : C -> S -> V.

Local Notation bnd := (boundary seg_start seg_end).
Local Notation find :=
  (find_overlapping_segments col_eq_dec pos_coord seg_start seg_end seg_col).
Local Notation annotate :=
  (annotate_copy_number col_eq_dec pos_sample pos_chrom pos_coord
     seg_sample seg_chr seg_start seg_end seg_col).
Local Notation by_boundary := (fun a b => boundary_leb (bnd a) (bnd b)).
Local Notation all_missing := (all_missing col_eq_dec).
Local Notation segments_of := (segments_of seg_sample seg_chr).
Local Notation partition_of := (partition_of pos_sample pos_chrom).
Local Notation positions_by_partition :=
  (positions_by_partition pos_sample pos_chrom seg_sample seg_chr).
Local Notation known_positions :=
  (known_positions pos_sample pos_chrom seg_sample seg_chr).
Local Notation indices := (idx_of seg_start seg_end).
Local Notation mask_of idx := (idx_eq (map fst idx) (map snd idx)).
Local Notation in_range seg :=
  (fun i : Z * Z => -1 <= fst i <= Z.of_nat (List.length seg) - 1
                    /\ 0 <= snd i <= Z.of_nat (List.length seg)).

Lemma start_idx_length (seg : list S) (coords : list Z) :
  List.length (start_idx_of seg_start seg coords) = List.length coords.
Proof. unfold start_idx_of. now rewrite length_map, searchsorted_length. Qed.

Lemma end_idx_length (seg : list S) (coords : list Z) :
  List.length (end_idx_of seg_end seg coords) = List.length coords.
Proof. unfold end_idx_of. now rewrite length_map, searchsorted_length. Qed.

Lemma start_idx_range (seg : list S) (coords : list Z) :
  Forall (fun s => -1 <= s <= Z.of_nat (List.length seg) - 1)
         (start_idx_of seg_start seg coords).
Proof.
  unfold start_idx_of. apply Forall_map.
  pose proof (searchsorted_bounds (map seg_start seg) coords) as H.
  rewrite length_map in H. eapply Forall_impl; [|exact H].
  intros idx Hidx. cbv beta in *. lia.
Qed.

Lemma end_idx_range (seg : list S) (coords : list Z) :
  Forall (fun e => 0 <= e <= Z.of_nat (List.length seg))
         (end_idx_of seg_end seg coords).
Proof.
  unfold end_idx_of. apply Forall_map.
  pose proof (searchsorted_bounds (map seg_end seg) coords) as H.
  rewrite length_map in H. eapply Forall_impl; [|exact H].
  intros idx Hidx. cbv beta in *. lia.
Qed.

Lemma idx_of_fst (seg : list S) (coords : list Z) :
  map fst (indices seg coords) = start_idx_of seg_start seg coords.
Proof.
  unfold idx_of. apply combine_fst.
  now rewrite start_idx_length, end_idx_length.
Qed.

Lemma idx_of_snd (seg : list S) (coords : list Z) :
  map snd (indices seg coords) = end_idx_of seg_end seg coords.
Proof.
  unfold idx_of. apply combine_snd.
  now rewrite start_idx_length, end_idx_length.
Qed.

Lemma idx_of_length (seg : list S) (coords : list Z) :
  List.length (indices seg coords) = List.length coords.
Proof. rewrite <- (length_map fst), idx_of_fst. apply start_idx_length. Qed.

Lemma idx_of_range (seg : list S) (coords : list Z) :
  Forall (in_range seg) (indices seg coords).
Proof.
  apply Forall_forall. intros [s e] Hin. cbn [fst snd]. split.
  - assert (In s (start_idx_of seg_start seg coords)) as Hs
      by (rewrite <- idx_of_fst; apply (in_map fst _ _ Hin)).
    exact (proj1 (Forall_forall _ _) (start_idx_range seg coords) s Hs).
  - assert (In e (end_idx_of seg_end seg coords)) as He
      by (rewrite <- idx_of_snd; apply (in_map snd _ _ Hin)).
    exact (proj1 (Forall_forall _ _) (end_idx_range seg coords) e He).
Qed.

Lemma contained_idx_range (seg : list S) (i : Z * Z) :
  in_range seg i -> fst i = snd i ->
  0 <= snd i < Z.of_nat (List.length seg).
Proof. cbv beta. lia. Qed.

(** C10. Whenever the containment test [start_idx == end_idx] holds at a
    position of the two arrays of indices, the common index is the index of a
    row of the segments of the partition, [0 <= end_idx < len(seg)], so that
    the lookup [seg[col].iloc[end_idx]] returns the attribute of that row; in
    particular the partition is not empty: with zero segments no point passes
    the test.  This for every array of coordinates, whatever bounds the
    search of a coordinate takes over from the coordinates before it. *)
Theorem contained_index_in_bounds (seg : list S) (coords : list Z) (i : nat)
    (idx : Z) :
  nth_error (start_idx_of seg_start seg coords) i = Some idx ->
  nth_error (end_idx_of seg_end seg coords) i = Some idx ->
  0 <= idx < Z.of_nat (List.length seg)
  /\ (exists s, nth_error seg (Z.to_nat idx) = Some s
                /\ forall col, iloc (map (seg_col col) seg) idx
                               = Ok (seg_col col s))
  /\ seg <> [].
Proof.
  intros Hs He.
  assert (0 <= idx < Z.of_nat (List.length seg)) as Hb.
  { apply nth_error_In in Hs, He.
    pose proof (proj1 (Forall_forall _ _) (start_idx_range seg coords) idx Hs).
    pose proof (proj1 (Forall_forall _ _) (end_idx_range seg coords) idx He).
    cbv beta in *. lia. }
  split; [exact Hb|]. split.
  - destruct (nth_error seg (Z.to_nat idx)) as [s|] eqn:Hn.
    + exists s. split; [reflexivity|]. intros col.
      destruct (iloc_in_bounds (map (seg_col col) seg) idx)
        as [v [Hv Hnth]]; [now rewrite length_map|].
      rewrite nth_error_map, Hn in Hnth. simpl in Hnth. congruence.
    + apply nth_error_None in Hn. lia.
  - intros ->. simpl in Hb. lia.
Qed.

Lemma masked_indices (idx : list (Z * Z)) :
  map snd (filter fst (combine (mask_of idx) (map snd idx))) =
  map snd (filter (fun i => fst i =? snd i) idx).
Proof.
  unfold idx_eq. induction idx as [|[s e] idx IH]; simpl; [reflexivity|].
  destruct (s =? e); simpl; now rewrite IH.
Qed.

Lemma assign_column_ok (seg : list S) (idx : list (Z * Z))
    (results : list (Annotated P C V)) (col : C) :
  Forall (in_range seg) idx ->
  exists res,
    assign_column col_eq_dec seg_col seg (mask_of idx) (map snd idx) results col
    = Ok res
    /\ map position res = map position results.
Proof.
  intros Hrange. unfold assign_column. rewrite masked_indices.
  destruct (mapM_exists (iloc (map (seg_col col) seg)) (fun _ _ => True)
              (map snd (filter (fun i => fst i =? snd i) idx)))
    as [values [Hvalues _]].
  - intros e He. apply in_map_iff in He. destruct He as [i [<- Hi]].
    apply filter_In in Hi. destruct Hi as [Hin Hi]. apply Z.eqb_eq in Hi.
    pose proof (contained_idx_range seg i
                  (proj1 (Forall_forall _ _) Hrange i Hin) Hi) as Hb.
    destruct (iloc_in_bounds (map (seg_col col) seg) (snd i))
      as [v [Hv _]]; [now rewrite length_map|].
    now exists v.
  - rewrite Hvalues. simpl. eexists; split; [reflexivity|].
    now rewrite assign_masked_position, set_column_position.
Qed.

Lemma assign_columns_ok (seg : list S) (idx : list (Z * Z)) (columns : list C)
    (results : list (Annotated P C V)) :
  Forall (in_range seg) idx ->
  exists res,
    assign_columns col_eq_dec seg_col seg (mask_of idx) (map snd idx) results
      columns = Ok res
    /\ map position res = map position results.
Proof.
  intros Hrange.
  revert results; induction columns as [|col columns IH]; intros results; simpl.
  - now exists results.
  - destruct (assign_column_ok seg idx results col Hrange) as [res1 [H1 Hp1]].
    rewrite H1. simpl. destruct (IH res1) as [res [H Hp]].
    exists res. split; [exact H|congruence].
Qed.

(** The body of [find_overlapping_segments], the two arrays of indices read
    as one array of pairs. *)
Lemma find_overlapping_segments_unfold (pos : list P) (seg : list S)
    (columns : list C) :
  find pos seg columns =
  let seg' := sort_by by_boundary seg in
  if has_duplicate boundary_eqb (map bnd seg')
  then Error DuplicateSegmentBoundary
  else
    let idx := indices seg' (map pos_coord pos) in
    assign_columns col_eq_dec seg_col seg' (mask_of idx) (map snd idx)
      (map (fun p => {| position := p; columns_of := [] |}) pos) columns.
Proof.
  unfold find_overlapping_segments. cbv zeta.
  now rewrite idx_of_fst, idx_of_snd.
Qed.

(** A partition whose boundaries are distinct is annotated: every position
    comes back, in order. *)
Lemma find_overlapping_segments_ok (pos : list P) (seg : list S)
    (columns : list C) :
  NoDup (map bnd seg) ->
  exists res, find pos seg columns = Ok res /\ map position res = pos.
Proof.
  intros Hnd. rewrite find_overlapping_segments_unfold. cbv zeta.
  replace (has_duplicate boundary_eqb (map bnd (sort_by by_boundary seg)))
    with false.
  - destruct (assign_columns_ok (sort_by by_boundary seg)
                (indices (sort_by by_boundary seg) (map pos_coord pos))
                columns (map (fun p => {| position := p; columns_of := [] |}) pos)
                (idx_of_range _ _))
      as [res [H Hp]].
    exists res. split; [exact H|].
    rewrite Hp, map_map. simpl. apply map_id.
  - symmetry. apply (has_duplicate_false_NoDup _ boundary_eqb_spec).
    eapply Permutation_NoDup; [|exact Hnd].
    apply Permutation_map, Permutation_sym, sort_by_perm.
Qed.

(** A partition in which two segments have the same boundaries raises. *)
Lemma find_overlapping_segments_duplicate (pos : list P) (seg : list S)
    (columns : list C) :
  ~ NoDup (map bnd seg) ->
  find pos seg columns = Error DuplicateSegmentBoundary.
Proof.
  intros Hnd. unfold find_overlapping_segments.
  destruct (has_duplicate boundary_eqb (map bnd (sort_by by_boundary seg))) eqn:E;
    [reflexivity|].
  exfalso. apply Hnd.
  apply (has_duplicate_false_NoDup _ boundary_eqb_spec) in E.
  eapply Permutation_NoDup; [|exact E].
  apply Permutation_map, sort_by_perm.
Qed.

Lemma NoDup_boundary_dec (seg : list S) :
  {NoDup (map bnd seg)} + {~ NoDup (map bnd seg)}.
Proof.
  destruct (has_duplicate boundary_eqb (map bnd seg)) eqn:E.
  - right. intros H. apply (has_duplicate_false_NoDup _ boundary_eqb_spec) in H.
    congruence.
  - left. now apply (has_duplicate_false_NoDup _ boundary_eqb_spec).
Qed.

(** The only exception of a partition is the one of duplicate boundaries. *)
Lemma find_overlapping_segments_cases (pos : list P) (seg : list S)
    (columns : list C) :
  is_ok (find pos seg columns) = true
  \/ find pos seg columns = Error DuplicateSegmentBoundary.
Proof.
  destruct (NoDup_boundary_dec seg) as [Hnd|Hnd].
  - left. destruct (find_overlapping_segments_ok pos seg columns Hnd) as [res [H _]].
    now rewrite H.
  - right. now apply find_overlapping_segments_duplicate.
Qed.

(** *** A partition without segments *)

Lemma idx_of_without_segments (coords : list Z) :
  indices [] coords = map (fun _ => (-1, 0)) coords.
Proof.
  unfold idx_of, start_idx_of, end_idx_of. cbn [map].
  rewrite searchsorted_nil, !map_map.
  induction coords as [|c coords IH]; [reflexivity|].
  cbn [map combine]. now rewrite IH.
Qed.

Lemma no_contained_point_without_segments (coords : list Z) :
  filter (fun i : Z * Z => fst i =? snd i) (indices [] coords) = [].
Proof.
  rewrite idx_of_without_segments.
  induction coords as [|c coords IH]; simpl; [reflexivity|exact IH].
Qed.

Lemma assign_column_without_segments (coords : list Z)
    (results : list (Annotated P C V)) (col : C) :
  assign_column col_eq_dec seg_col [] (mask_of (indices [] coords))
    (map snd (indices [] coords)) results col =
  Ok (map (set_column col_eq_dec col None) results).
Proof.
  unfold assign_column. rewrite masked_indices.
  rewrite no_contained_point_without_segments. simpl.
  now rewrite assign_masked_no_values.
Qed.

Lemma assign_columns_without_segments (coords : list Z) (columns done : list C)
    (results : list (Annotated P C V)) :
  Forall (all_missing done) results ->
  exists res,
    assign_columns col_eq_dec seg_col [] (mask_of (indices [] coords))
      (map snd (indices [] coords)) results columns = Ok res
    /\ map position res = map position results
    /\ Forall (all_missing (done ++ columns)) res.
Proof.
  revert done results; induction columns as [|col columns IH];
    intros done results Hdone.
  - exists results. rewrite app_nil_r. auto.
  - cbn [assign_columns]. rewrite assign_column_without_segments. simpl.
    destruct (IH (done ++ [col]) (map (set_column col_eq_dec col None) results))
      as [res [H [Hp Hall]]].
    + apply Forall_map. eapply Forall_impl; [|exact Hdone].
      intros r Hr c Hc. simpl. apply in_app_or in Hc.
      destruct (col_eq_dec c col) as [->|Hne].
      * apply get_set_cell.
      * rewrite get_set_cell_other by exact Hne.
        destruct Hc as [Hc|[Hc|[]]]; [now apply Hr|congruence].
    + exists res. split; [exact H|]. split.
      * now rewrite Hp, set_column_position.
      * now rewrite <- app_assoc in Hall.
Qed.

Lemma find_overlapping_segments_without_segments (pos : list P)
    (columns : list C) :
  exists res,
    find pos [] columns = Ok res
    /\ map position res = pos
    /\ Forall (all_missing columns) res.
Proof.
  rewrite find_overlapping_segments_unfold. simpl.
  destruct (assign_columns_without_segments (map pos_coord pos) columns []
              (map (fun p => {| position := p; columns_of := [] |}) pos))
    as [res [H [Hp Hall]]].
  - apply Forall_map, Forall_forall. intros p _ c [].
  - exists res. split; [exact H|]. split; [|exact Hall].
    rewrite Hp, map_map. simpl. apply map_id.
Qed.

(** *** The loops over the partitions *)

Local Notation sample_is k := (fun x => String.eqb (seg_sample x) k).
Local Notation chr_is k := (fun x => String.eqb (seg_chr x) k).
Local Notation pos_sample_is k := (fun x => String.eqb (pos_sample x) k).
Local Notation pos_chrom_is k := (fun x => String.eqb (pos_chrom x) k).

(** C3. When two rows of the segments table belong to the same partition
    (same group, same chromosome) and have the same [(start, end)], the
    annotation raises the exception of duplicate boundaries,
    [ValueError('duplicate columns')], and returns no table; this for every
    positions table, the empty one included. *)
Theorem duplicate_boundaries_raise (pos : list P) (seg : list S)
    (columns : list C) (l1 l2 l3 : list S) (a b : S) :
  seg = l1 ++ a :: l2 ++ b :: l3 ->
  seg_sample a = seg_sample b ->
  seg_chr a = seg_chr b ->
  seg_start a = seg_start b ->
  seg_end a = seg_end b ->
  annotate_copy_number col_eq_dec pos_sample pos_chrom pos_coord
    seg_sample seg_chr seg_start seg_end seg_col pos seg columns
  = Error DuplicateSegmentBoundary.
Proof.
  intros Hseg Hsample Hchr Hstart Hend.
  assert (~ NoDup (map bnd (filter (chr_is (seg_chr a))
                              (filter (sample_is (seg_sample a)) seg)))) as Hdup.
  { rewrite filter_filter_andb, Hseg.
    rewrite filter_app. cbn [filter].
    rewrite !String.eqb_refl. cbn [andb].
    rewrite filter_app. cbn [filter].
    rewrite <- Hchr, <- Hsample, !String.eqb_refl. cbn [andb].
    rewrite map_app. cbn [map]. rewrite map_app. cbn [map].
    intros Hnd. apply NoDup_remove_2 in Hnd. apply Hnd.
    apply in_or_app. right. apply in_or_app. right. left.
    unfold boundary. now rewrite Hstart, Hend. }
  unfold annotate_copy_number.
  rewrite (mapM_error _ _ DuplicateSegmentBoundary); [reflexivity| |].
  - intros sample _. apply mapM_cases. intros chrom _.
    apply find_overlapping_segments_cases.
  - exists (seg_sample a). split.
    + apply (In_unique String.eqb String.eqb_eq), in_map.
      rewrite Hseg. apply in_or_app. right. now left.
    + apply mapM_error.
      * intros chrom _. apply find_overlapping_segments_cases.
      * exists (seg_chr a). split.
        -- apply (In_unique String.eqb String.eqb_eq), in_map.
           rewrite Hseg. apply in_or_app. right. now left.
        -- now apply find_overlapping_segments_duplicate.
Qed.

Lemma positions_by_partition_perm (pos : list P) (seg : list S) :
  Permutation (positions_by_partition pos seg) (known_positions pos seg).
Proof.
  unfold positions_by_partition, known_positions, partition_of.
  transitivity
    (flat_map (fun sample =>
                 filter (pos_sample_is sample)
                   (filter (fun p => existsb (String.eqb (pos_chrom p))
                                       (unique String.eqb (map seg_chr seg))) pos))
              (unique String.eqb (map seg_sample seg))).
  - apply flat_map_perm_ext. intros sample.
    rewrite (flat_map_filter_keys pos_chrom)
      by apply (NoDup_unique String.eqb String.eqb_eq).
    now rewrite filter_filter_comm.
  - rewrite (flat_map_filter_keys pos_sample)
      by apply (NoDup_unique String.eqb String.eqb_eq).
    rewrite filter_filter_andb.
    erewrite filter_ext; [reflexivity|].
    intros p. cbv beta. now rewrite !existsb_unique.
Qed.

(** C2, as the code has it. When the segments table is not empty and no
    partition has two segments with the same boundaries, the annotation
    returns a table whose rows are the positions of the input taken partition
    after partition (the groups, then the chromosomes, in their order of
    first appearance in the segments table, the positions of a partition in
    input order): these are exactly the positions whose group occurs in the
    group column of the segments and whose chromosome occurs in their [chr]
    column, each one once.  Such a row whose own (group, chromosome)
    partition has zero segments has every requested column missing. *)
Theorem annotation_rows (pos : list P) (seg : list S) (columns : list C) :
  seg <> [] ->
  (forall sample chrom,
     NoDup (map (boundary seg_start seg_end) (segments_of seg sample chrom))) ->
  exists res,
    annotate_copy_number col_eq_dec pos_sample pos_chrom pos_coord
      seg_sample seg_chr seg_start seg_end seg_col pos seg columns = Ok res
    /\ map position res = positions_by_partition pos seg
    /\ Permutation (map position res) (known_positions pos seg)
    /\ forall r, In r res ->
         (forall s, In s seg ->
            ~ (seg_sample s = pos_sample (position r)
               /\ seg_chr s = pos_chrom (position r))) ->
         forall col, In col columns ->
           get_cell col_eq_dec col (columns_of r) = Ok None.
Proof.
  intros Hne Hnd. unfold annotate_copy_number.
  set (part_seg := fun sample chrom =>
         filter (chr_is chrom) (filter (sample_is sample) seg)).
  set (Qin := fun (sample chrom : string) (tbl : list (Annotated P C V)) =>
         map position tbl = partition_of pos sample chrom
         /\ (part_seg sample chrom = [] -> Forall (all_missing columns) tbl)).
  destruct (mapM_exists
              (fun sample =>
                 mapM (fun chrom =>
                         find (filter (pos_chrom_is chrom)
                                 (filter (pos_sample_is sample) pos))
                              (filter (chr_is chrom)
                                 (filter (sample_is sample) seg)) columns)
                      (unique String.eqb (map seg_chr seg)))
              (fun sample tbls =>
                 Forall2 (Qin sample) (unique String.eqb (map seg_chr seg)) tbls)
              (unique String.eqb (map seg_sample seg)))
    as [results [Hres HF]].
  { intros sample _. apply mapM_exists. intros chrom _.
    destruct (find_overlapping_segments_ok
                (partition_of pos sample chrom) (part_seg sample chrom)
                columns (Hnd sample chrom)) as [tbl [Htbl Hp]].
    exists tbl. split; [exact Htbl|]. split; [exact Hp|].
    intros Hempty. unfold part_seg in Hempty.
    unfold part_seg, partition_of in Htbl. rewrite Hempty in Htbl.
    destruct (find_overlapping_segments_without_segments
                (partition_of pos sample chrom) columns) as [tbl' [Htbl' [_ Hall]]].
    unfold partition_of in Htbl'. congruence. }
  rewrite Hres. simpl.
  assert (List.concat results <> []) as Hnonempty.
  { destruct seg as [|s0 seg0]; [congruence|].
    simpl in HF. inversion HF as [|sample tbls ? ? Hin _]; subst.
    inversion Hin; subst. simpl. discriminate. }
  unfold pd_concat. destruct (List.concat results) as [|t ts] eqn:Hc;
    [congruence|]. rewrite <- Hc. clear Hnonempty.
  eexists; split; [reflexivity|].
  assert (map position (List.concat (List.concat results)) =
          positions_by_partition pos seg) as Hpos.
  { unfold positions_by_partition. clear Hres Hc.
    induction HF as [|sample tbls samples rest HQ _ IH]; [reflexivity|].
    simpl. rewrite concat_app, map_app, IH. f_equal.
    rewrite map_concat_flat_map. apply Forall2_flat_map.
    eapply Forall2_impl; [|exact HQ]. intros chrom tbl [Hp _]. exact Hp. }
  split; [exact Hpos|]. split.
  - rewrite Hpos. apply positions_by_partition_perm.
  - intros r Hr Hnone col Hcol.
    apply in_concat in Hr. destruct Hr as [tbl [Htbl Hr]].
    apply in_concat in Htbl. destruct Htbl as [tbls [Htbls Htbl]].
    destruct (Forall2_In_r _ _ _ _ HF Htbls) as [sample [_ HQ]].
    destruct (Forall2_In_r _ _ _ _ HQ Htbl) as [chrom [_ [Hp Hall]]].
    assert (In (position r) (partition_of pos sample chrom)) as Hin
      by (rewrite <- Hp; now apply in_map).
    unfold partition_of in Hin. rewrite !filter_In in Hin.
    destruct Hin as [[_ Hs] Hch].
    apply String.eqb_eq in Hs. apply String.eqb_eq in Hch.
    assert (part_seg sample chrom = []) as Hempty.
    { unfold part_seg.
      destruct (filter (chr_is chrom) (filter (sample_is sample) seg))
        as [|s rest] eqn:E; [reflexivity|].
      exfalso. assert (In s (s :: rest)) as Hin by now left.
      rewrite <- E, !filter_In in Hin. destruct Hin as [[Hin Hs'] Hch'].
      apply String.eqb_eq in Hs'. apply String.eqb_eq in Hch'.
      apply (Hnone s Hin). split; congruence. }
    specialize (Hall Hempty). rewrite Forall_forall in Hall.
    now apply (Hall r Hr).
Qed.

End AnnotatorFacts.

(** ** SnvAggregator *)

Lemma locus_eqb_spec (a b : Locus) : locus_eqb a b = true <-> a = b.
Proof.
  destruct a as [[[c1 k1] r1] a1], b as [[[c2 k2] r2] a2]. unfold locus_eqb.
  rewrite !andb_true_iff, !String.eqb_eq, Z.eqb_eq. split.
  - intros [[[-> ->] ->] ->]. reflexivity.
  - intros H; injection H; auto.
Qed.

Lemma In_sorted_keys {A : Type} (eqb leb : A -> A -> bool) (x : A) (l : list A) :
  (forall a b, eqb a b = true <-> a = b) ->
  In x (sorted_keys eqb leb l) <-> In x l.
Proof.
  intros Hspec. unfold sorted_keys. rewrite <- (In_unique eqb Hspec x l). split.
  - apply Permutation_in, sort_by_perm.
  - apply Permutation_in, Permutation_sym, sort_by_perm.
Qed.

Lemma NoDup_sorted_keys {A : Type} (eqb leb : A -> A -> bool) (l : list A) :
  (forall a b, eqb a b = true <-> a = b) ->
  NoDup (sorted_keys eqb leb l).
Proof.
  intros Hspec. unfold sorted_keys.
  eapply Permutation_NoDup; [apply Permutation_sym, sort_by_perm|].
  now apply NoDup_unique.
Qed.

Lemma NoDup_list_prod {A B : Type} (l : list A) (l' : list B) :
  NoDup l -> NoDup l' -> NoDup (list_prod l l').
Proof.
  intros Hl Hl'. induction Hl as [|x l Hx _ IH]; simpl; [constructor|].
  apply NoDup_app; [|exact IH|].
  - apply Finite.Injective_map_NoDup; [|exact Hl'].
    intros y1 y2 H. now injection H.
  - intros [a b] Hin Hin'. apply in_map_iff in Hin. destruct Hin as [y [E _]].
    injection E as <- <-. apply in_prod_iff in Hin'. tauto.
Qed.

Lemma sum_Z_app (l1 l2 : list Z) : sum_Z (l1 ++ l2) = sum_Z l1 + sum_Z l2.
Proof. induction l1 as [|x l1 IH]; simpl; [reflexivity|]. rewrite IH. lia. Qed.

Lemma sum_Z_const {A : Type} (z : Z) (l : list A) :
  sum_Z (map (fun _ => z) l) = z * Z.of_nat (List.length l).
Proof. induction l as [|x l IH]; cbn [map sum_Z fold_right List.length]; [lia|]. unfold sum_Z in IH. rewrite IH. lia. Qed.

Lemma aggregate_keys (merged : list MergedRead) :
  map key_of (aggregate merged) =
  list_prod (sorted_keys locus_eqb locus_leb (map locus_of merged))
            (sorted_keys String.eqb String.leb (map read_cluster_id merged)).
Proof.
  unfold aggregate. rewrite list_prod_as_flat_map.
  induction (sorted_keys locus_eqb locus_leb (map locus_of merged))
    as [|l loci IH]; simpl; [reflexivity|].
  rewrite map_app, IH. f_equal. rewrite map_map. apply map_ext.
  intros c. destruct l as [[[ch k] r] a]. reflexivity.
Qed.

Lemma In_aggregate (merged : list MergedRead) (r : SnvCount) :
  In r (aggregate merged) ->
  sc_alt_counts r =
    sum_Z (map (fun m => snv_alt_counts (read m))
               (group_of merged (fst (key_of r)) (snd (key_of r))))
  /\ sc_ref_counts r =
    sum_Z (map (fun m => snv_ref_counts (read m))
               (group_of merged (fst (key_of r)) (snd (key_of r))))
  /\ sc_total_counts r = sc_ref_counts r + sc_alt_counts r.
Proof.
  unfold aggregate. rewrite in_flat_map. intros [l [_ Hr]].
  apply in_map_iff in Hr. destruct Hr as [c [<- _]].
  destruct l as [[[ch k] rf] a]. simpl. auto.
Qed.

Lemma In_group_of (merged : list MergedRead) (l : Locus) (c : string)
    (m : MergedRead) :
  In m (group_of merged l c) <->
  In m merged /\ locus_of m = l /\ read_cluster_id m = c.
Proof.
  unfold group_of. rewrite filter_In, andb_true_iff, locus_eqb_spec, String.eqb_eq.
  tauto.
Qed.

(** A list splits into the elements that pass a test and the others. *)
Lemma filter_split_perm {A : Type} (test : A -> bool) (l : list A) :
  Permutation l (filter test l ++ filter (fun x => negb (test x)) l).
Proof.
  induction l as [|x l IH]; [constructor|].
  cbn [filter]. destruct (test x); cbn [negb app].
  - now constructor.
  - now apply Permutation_cons_app.
Qed.

(** C5. After the aggregation, every variant locus of the joined reads and
    every cluster of the joined reads have exactly one row: the keys
    [(locus, cluster)] of the rows are distinct and are all the pairs of a
    locus and a cluster of the joined reads.  The counts of a row are the sums
    over all the joined reads that contribute to it: the joined reads split
    into those with the locus and the cluster of the row, over which
    [alt_counts] and [ref_counts] are summed, and the others, none of which
    has that locus and that cluster.  Hence the counts are 0 for a pair
    without any read, which is kept. *)
Theorem aggregation_is_complete (snv_data : list SnvRead)
    (clusters : list ClusterAssignment) :
  let merged := merge snv_data clusters in
  let out := aggregate merged in
  NoDup (map key_of out)
  /\ (forall l c, In (l, c) (map key_of out) <->
                  In l (map locus_of merged) /\ In c (map read_cluster_id merged))
  /\ (forall r, In r out ->
        exists contributing others,
          Permutation merged (contributing ++ others)
          /\ Forall (fun m => contributes_to m r) contributing
          /\ Forall (fun m => ~ contributes_to m r) others
          /\ sc_alt_counts r =
             sum_Z (map (fun m => snv_alt_counts (read m)) contributing)
          /\ sc_ref_counts r =
             sum_Z (map (fun m => snv_ref_counts (read m)) contributing))
  /\ (forall r, In r out ->
        (forall m, In m merged ->
           ~ (locus_of m = fst (key_of r) /\ read_cluster_id m = snd (key_of r))) ->
        sc_alt_counts r = 0 /\ sc_ref_counts r = 0).
Proof.
  intros merged out. unfold out. split; [|split; [|split]].
  - rewrite aggregate_keys. apply NoDup_list_prod; apply NoDup_sorted_keys.
    + apply locus_eqb_spec.
    + apply String.eqb_eq.
  - intros l c. rewrite aggregate_keys, in_prod_iff.
    rewrite (In_sorted_keys _ _ _ _ locus_eqb_spec).
    rewrite (In_sorted_keys _ _ _ _ String.eqb_eq). tauto.
  - intros r Hr. destruct (In_aggregate merged r Hr) as [Ha [Hb _]].
    assert (forall m, contributes_to m r <->
                      locus_of m = fst (key_of r)
                      /\ read_cluster_id m = snd (key_of r)) as Hkey.
    { intros m. unfold contributes_to, locus_of, locus_of_read, key_of.
      cbn [fst snd]. split.
      - intros [-> [-> [-> [-> ->]]]]. auto.
      - intros [Hl Hc]. injection Hl as -> -> -> ->. auto. }
    set (test := fun m => locus_eqb (locus_of m) (fst (key_of r))
                          && String.eqb (read_cluster_id m) (snd (key_of r))).
    assert (forall m, test m = true <-> contributes_to m r) as Htest.
    { intros m. unfold test.
      rewrite andb_true_iff, locus_eqb_spec, String.eqb_eq. symmetry. apply Hkey. }
    exists (filter test merged), (filter (fun m => negb (test m)) merged).
    split; [apply filter_split_perm|]. split; [|split; [|split]].
    + apply Forall_forall. intros m Hm. apply filter_In in Hm.
      now apply Htest.
    + apply Forall_forall. intros m Hm Hc. apply filter_In in Hm.
      destruct Hm as [_ Hm]. apply Htest in Hc. rewrite Hc in Hm. discriminate.
    + exact Ha.
    + exact Hb.
  - intros r Hr Hnone. destruct (In_aggregate merged r Hr) as [Ha [Hb _]].
    assert (group_of merged (fst (key_of r)) (snd (key_of r)) = []) as E.
    { destruct (group_of merged (fst (key_of r)) (snd (key_of r))) as [|m g] eqn:E;
        [reflexivity|].
      exfalso. assert (In m (m :: g)) as Hin by now left.
      rewrite <- E in Hin. apply In_group_of in Hin.
      destruct Hin as [Hin Hk]. exact (Hnone m Hin Hk). }
    rewrite E in Ha, Hb. simpl in Ha, Hb. auto.
Qed.

Lemma joined_group_sum (f : SnvRead -> Z) (r : SnvRead)
    (clusters : list ClusterAssignment) (l : Locus) (c : string) :
  sum_Z (map (fun m => f (read m))
           (group_of
              (map (fun a => {| read := r; read_cluster_id := cl_cluster_id a |})
                 (filter (fun a => String.eqb (snv_sample_id r) (cl_sample_id a))
                    clusters)) l c)) =
  if locus_eqb (locus_of_read r) l
  then f r * Z.of_nat (assignments_to clusters (snv_sample_id r) c)
  else 0.
Proof.
  unfold assignments_to, group_of.
  induction clusters as [|a clusters IH]; cbn [filter map].
  - destruct (locus_eqb (locus_of_read r) l); simpl; lia.
  - destruct (String.eqb (snv_sample_id r) (cl_sample_id a)) eqn:Es;
      cbn [filter map andb]; [|exact IH].
    unfold locus_of at 1. cbn [read read_cluster_id].
    destruct (locus_eqb (locus_of_read r) l) eqn:El; cbn [andb].
    + destruct (String.eqb (cl_cluster_id a) c); [|exact IH].
      cbn [map List.length]. unfold sum_Z in IH |- *. cbn [fold_right].
      rewrite IH. cbn [read]. lia.
    + exact IH.
Qed.

Lemma merged_group_sum (f : SnvRead -> Z) (snv_data : list SnvRead)
    (clusters : list ClusterAssignment) (l : Locus) (c : string) :
  sum_Z (map (fun m => f (read m)) (group_of (merge snv_data clusters) l c)) =
  sum_Z (map (fun r => f r * Z.of_nat (assignments_to clusters (snv_sample_id r) c))
             (filter (fun r => locus_eqb (locus_of_read r) l) snv_data)).
Proof.
  induction snv_data as [|r reads IH]; [reflexivity|].
  unfold merge. cbn [flat_map]. fold (merge reads clusters).
  unfold group_of at 1. rewrite filter_app, map_app, sum_Z_app.
  fold (group_of (merge reads clusters) l c). rewrite IH.
  pose proof (joined_group_sum f r clusters l c) as Hr.
  unfold group_of in Hr. rewrite Hr. cbn [filter].
  destruct (locus_eqb (locus_of_read r) l); cbn [map sum_Z fold_right];
    fold sum_Z; unfold sum_Z; lia.
Qed.

(** C7, as the code has it. The aggregation does not check that a sample
    has one cluster: the join pairs a read with every row of the cluster
    table that has its sample, and in the aggregated row of a locus and a
    cluster every read of the locus is counted once for each row that assigns
    its sample to that cluster (twice when the row is repeated, in two
    clusters when the sample has two). *)
Theorem repeated_assignments_are_joined (snv_data : list SnvRead)
    (clusters : list ClusterAssignment) (r : SnvCount) :
  In r (aggregate (merge snv_data clusters)) ->
  sc_alt_counts r =
    sum_Z (map (fun x => snv_alt_counts x
                         * Z.of_nat (assignments_to clusters (snv_sample_id x)
                                       (sc_cluster_id r)))
               (filter (fun x => locus_eqb (locus_of_read x) (fst (key_of r)))
                  snv_data))
  /\ sc_ref_counts r =
    sum_Z (map (fun x => snv_ref_counts x
                         * Z.of_nat (assignments_to clusters (snv_sample_id x)
                                       (sc_cluster_id r)))
               (filter (fun x => locus_eqb (locus_of_read x) (fst (key_of r)))
                  snv_data)).
Proof.
  intros Hr. destruct (In_aggregate _ r Hr) as [Ha [Hb _]].
  rewrite Ha, Hb. split.
  - apply (merged_group_sum snv_alt_counts).
  - apply (merged_group_sum snv_ref_counts).
Qed.

(** ** The pipeline on examples *)

Section PipelineExamples.
Context `{N : Numerics}.

(** The end-to-end example: one read, one cluster, one segment. *)
Lemma end_to_end_example :
  compute_snv_log_likelihoods [ex_read] ex_allele_cn ex_clusters =
  (ex_allele_cn,
   Ok [{| record := ex_record (Some 1) (Some 1);
          ll_absent := binom_logpmf 2 10 (of_Q (1 # 1000));
          ll_present := logsumexp [binom_logpmf 2 10 (fdiv (of_int 1) (of_int 2))] |}]).
Proof. vm_compute. reflexivity. Qed.

(** A variant outside every segment: its copy number is NaN and the
    likelihood stage raises. *)
Lemma uncovered_variant_example :
  annotate_snv_matrix (aggregate (merge [ex_read_500] ex_clusters))
    (drop_duplicates (map select_columns ex_allele_cn)) =
  Ok [{| position := ex_count "cluster1" 500;
         columns_of := [(MajorCn, None); (MinorCn, None); (TotalCn, None)] |}]
  /\ snd (compute_snv_log_likelihoods [ex_read_500] ex_allele_cn ex_clusters) =
     Error (ValueError "arange: cannot compute length").
Proof. split; vm_compute; reflexivity. Qed.

Lemma two_assignments_example :
  exists rows,
    snd (compute_snv_log_likelihoods [ex_read] ex_allele_cn_two_clusters
           ex_clusters_twice) = Ok rows
    /\ map (fun r => (cluster_id (record r), alt_counts (record r),
                      ref_counts (record r))) rows =
       [("cluster1", 2, 8); ("cluster2", 2, 8)].
Proof. eexists. split; vm_compute; reflexivity. Qed.

Lemma float_columns_example :
  fst (compute_snv_log_likelihoods [ex_read] ex_allele_cn_float ex_clusters) =
  [ex_segment "cluster1" 0 200 (IntV 2) (IntV 1) (IntV 1);
   ex_segment "cluster1" 200 400 (IntV 3) (IntV 1) (IntV 2)]
  /\ is_ok (snd (compute_snv_log_likelihoods [ex_read] ex_allele_cn_float
                   ex_clusters)) = true.
Proof. split; vm_compute; reflexivity. Qed.

End PipelineExamples.

(** ** The likelihood in exact arithmetic *)

Lemma C_pos (n k : nat) : (0 < C n k)%R.
Proof.
  unfold C. apply Rdiv_lt_0_compat.
  - apply INR_fact_lt_0.
  - apply Rmult_lt_0_compat; apply INR_fact_lt_0.
Qed.

Lemma binom_pmf_nonneg (k n : nat) (p : R) :
  (0 <= p <= 1)%R -> (0 <= binom_pmf k n p)%R.
Proof.
  intros [H0 H1]. unfold binom_pmf.
  apply Rmult_le_pos; [apply Rmult_le_pos|].
  - apply Rlt_le, C_pos.
  - now apply pow_le.
  - apply pow_le. lra.
Qed.



Lemma sum_R_nonneg (l : list R) :
  Forall (fun x => 0 <= x)%R l -> (0 <= sum_R l)%R.
Proof.
  unfold sum_R. induction 1 as [|x l Hx _ IH]; simpl; lra.
Qed.

Lemma sum_R_le {A : Type} (f g : A -> R) (l : list A) :
  (forall x, In x l -> (f x <= g x)%R) ->
  (sum_R (map f l) <= sum_R (map g l))%R.
Proof.
  unfold sum_R. induction l as [|x l IH]; simpl; intros H; [lra|].
  assert (f x <= g x)%R by (apply H; now left).
  assert (fold_right Rplus 0 (map f l) <= fold_right Rplus 0 (map g l))%R
    by (apply IH; intros y Hy; apply H; now right).
  lra.
Qed.

Lemma xln_not_nan (xs : list R) : existsb is_nan (map xln xs) = false.
Proof.
  induction xs as [|x xs IH]; simpl; [reflexivity|].
  rewrite IH. unfold xln. now destruct (Rlt_dec 0 x).
Qed.

Lemma xln_not_pos_inf (xs : list R) : existsb is_pos_inf (map xln xs) = false.
Proof.
  induction xs as [|x xs IH]; simpl; [reflexivity|].
  rewrite IH. unfold xln. now destruct (Rlt_dec 0 x).
Qed.

Lemma sum_exp_xln (xs : list R) :
  Forall (fun x => 0 <= x)%R xs -> sum_exp (map xln xs) = sum_R xs.
Proof.
  unfold sum_R. induction 1 as [|x xs Hx _ IH]; simpl; [reflexivity|].
  unfold xln at 1. destruct (Rlt_dec 0 x) as [Hpos|Hnpos].
  - rewrite IH, exp_ln by exact Hpos. reflexivity.
  - rewrite IH. assert (x = 0)%R by lra. subst. lra.
Qed.

(** The log-sum-exp of logarithms is the logarithm of the sum. *)
Lemma xlogsumexp_xln (xs : list R) :
  Forall (fun x => 0 <= x)%R xs ->
  xlogsumexp (map xln xs) = xln (sum_R xs).
Proof.
  intros H. unfold xlogsumexp.
  now rewrite xln_not_nan, xln_not_pos_inf, sum_exp_xln.
Qed.

Lemma xln_mono (x y : R) : (0 <= x <= y)%R -> xle (xln x) (xln y).
Proof.
  intros [H0 Hxy]. unfold xln.
  destruct (Rlt_dec 0 x) as [Hx|Hx], (Rlt_dec 0 y) as [Hy|Hy]; simpl; try lra; auto.
  destruct (Rle_lt_or_eq_dec x y Hxy) as [Hlt | ->]; [|lra].
  apply Rlt_le, ln_increasing; assumption.
Qed.

Lemma fraction_bounds (c t : Z) :
  1 <= c <= t -> (0 <= IZR c / IZR t <= 1)%R.
Proof.
  intros H.
  assert (0 < IZR t)%R as Ht by (apply IZR_lt; lia).
  assert (0 < IZR c)%R as Hc by (apply IZR_lt; lia).
  assert (IZR c <= IZR t)%R as Hct by (apply IZR_le; lia).
  split.
  - apply Rlt_le, Rdiv_lt_0_compat; assumption.
  - apply Rmult_le_reg_r with (IZR t); [exact Ht|].
    replace (IZR c / IZR t * IZR t)%R with (IZR c) by (field; lra). lra.
Qed.

(** In exact arithmetic the present log-likelihood is the logarithm of the
    probability of the present model. *)
Lemma present_exact (major minor alt_counts total_counts : Z) (e_s : xreal) :
  1 <= major -> 0 <= minor -> 0 <= alt_counts <= total_counts ->
  log_likelihood_present (N := ExactNumerics) (Some major) (Some (major + minor)) e_s
    alt_counts total_counts =
  Ok (xln (present_probability major (major + minor) alt_counts total_counts)).
Proof.
  intros Hm Hk Ha.
  rewrite log_likelihood_present_marginal by exact Hm.
  unfold marginal_present, present_probability. f_equal.
  rewrite <- xlogsumexp_xln.
  - rewrite map_map. cbn [logsumexp ExactNumerics]. f_equal. apply map_ext_in. intros c Hc.
    apply In_candidate_copy_numbers in Hc.
    assert (0 < IZR (major + minor))%R as Ht by (apply IZR_lt; lia).
    pose proof (fraction_bounds c (major + minor) ltac:(lia)) as [Hp0 Hp1].
    cbn [binom_logpmf fdiv of_int ExactNumerics]. unfold xdiv.
    destruct (Req_dec_T (IZR (major + minor)) 0) as [E|_]; [lra|].
    unfold xbinom_logpmf.
    destruct (total_counts <? 0) eqn:En; [lia|].
    destruct (Rle_dec 0 (IZR c / IZR (major + minor))) as [_|Hn]; [|lra].
    destruct (Rle_dec (IZR c / IZR (major + minor)) 1) as [_|Hn]; [|lra].
    destruct ((alt_counts <? 0) || (total_counts <? alt_counts)) eqn:Eo;
      [apply orb_true_iff in Eo; lia|].
    reflexivity.
  - apply Forall_map, Forall_forall. intros c Hc.
    apply In_candidate_copy_numbers in Hc.
    apply binom_pmf_nonneg, fraction_bounds. lia.
Qed.

Lemma present_probability_nonneg (major minor a n : Z) :
  1 <= major -> 0 <= minor ->
  (0 <= present_probability major (major + minor) a n)%R.
Proof.
  intros Hm Hk. unfold present_probability.
  apply sum_R_nonneg, Forall_map, Forall_forall. intros c Hc.
  apply In_candidate_copy_numbers in Hc.
  apply binom_pmf_nonneg, fraction_bounds. lia.
Qed.





(** ** The claims at concrete inputs *)

Lemma present_is_marginal_over_candidates_witness :
  calculate_likelihood_present (N := ExactNumerics) (ex_record (Some 1) (Some 1))
    (of_Q (1 # 1000)) =
  Ok (marginal_present 1 1 2 (8 + 2)).
Proof.
  apply (present_is_marginal_over_candidates (N := ExactNumerics)
           (ex_record (Some 1) (Some 1)) (of_Q (1 # 1000)) 1 1);
    [reflexivity|reflexivity|lia].
Defined.

Lemma present_degenerates_to_absent_witness :
  calculate_likelihood_present (N := ExactNumerics) (ex_record (Some 0) (Some 2))
    (of_Q (1 # 1000)) =
  Ok (calculate_likelihood_absent (ex_record (Some 0) (Some 2)) (of_Q (1 # 1000))).
Proof.
  apply (present_degenerates_to_absent (N := ExactNumerics)
           (ex_record (Some 0) (Some 2)) (of_Q (1 # 1000))).
  reflexivity.
Defined.

(** C2 fails as stated: a point whose cluster has no segment at all is not
    in the result, and the rows come in the order of the partitions of the
    segments table, not in the order of the points table. *)
Lemma annotation_drops_and_reorders_rows :
  annotate_snv_matrix [ex_count "cluster1" 100]
    [ex_cn_segment "cluster2" 0 200 1 1] = Ok []
  /\ annotate_snv_matrix [ex_count "cluster2" 100; ex_count "cluster1" 100]
       [ex_cn_segment "cluster1" 0 200 1 1; ex_cn_segment "cluster2" 0 200 2 1] =
     Ok [{| position := ex_count "cluster1" 100;
            columns_of := [(MajorCn, Some 1); (MinorCn, Some 1); (TotalCn, Some 2)] |};
         {| position := ex_count "cluster2" 100;
            columns_of := [(MajorCn, Some 2); (MinorCn, Some 1); (TotalCn, Some 3)] |}].
Proof. split; vm_compute; reflexivity. Qed.

Lemma annotation_rows_witness :
  exists res,
    annotate_snv_matrix [ex_count "cluster1" 100; ex_count "cluster2" 100]
      [ex_cn_segment "cluster1" 0 200 1 1] = Ok res
    /\ map position res = [ex_count "cluster1" 100].
Proof.
  destruct (annotation_rows CnColumn_eq_dec sc_cluster_id sc_chrom sc_coord
              acn_cluster_id acn_chr acn_start acn_end cn_column
              [ex_count "cluster1" 100; ex_count "cluster2" 100]
              [ex_cn_segment "cluster1" 0 200 1 1]
              [MajorCn; MinorCn; TotalCn])
    as [res [Hres [Hpos _]]].
  - discriminate.
  - intros sample chrom. unfold segments_of. cbn [filter].
    destruct (String.eqb _ sample); cbn [filter];
      [destruct (String.eqb _ chrom)|]; repeat constructor; simpl; tauto.
  - exists res. split; [exact Hres|]. rewrite Hpos. reflexivity.
Defined.

Lemma duplicate_boundaries_raise_witness :
  annotate_snv_matrix []
    [ex_cn_segment "cluster1" 0 200 1 1; ex_cn_segment "cluster1" 0 200 2 1] =
  Error DuplicateSegmentBoundary.
Proof.
  apply (duplicate_boundaries_raise CnColumn_eq_dec sc_cluster_id sc_chrom sc_coord
           acn_cluster_id acn_chr acn_start acn_end cn_column
           [] _ [MajorCn; MinorCn; TotalCn]
           [] [] [] (ex_cn_segment "cluster1" 0 200 1 1)
           (ex_cn_segment "cluster1" 0 200 2 1)); reflexivity.
Defined.

(** C6 fails as stated: a row whose copy number is NaN is not excluded; the
    present log-likelihood is computed for it, the call raises, and so does
    the pipeline on a variant outside every segment. *)
Lemma undefined_copy_number_raises :
  compute_log_likelihoods (N := ExactNumerics) [ex_record None None] =
    Error (ValueError "arange: cannot compute length")
  /\ snd (compute_snv_log_likelihoods (N := ExactNumerics) [ex_read_500] ex_allele_cn
            ex_clusters) =
     Error (ValueError "arange: cannot compute length").
Proof.
  split; [reflexivity|].
  apply (uncovered_variant_example (N := ExactNumerics)).
Qed.

Lemma likelihood_stage_on_defined_rows_witness :
  exists out,
    compute_log_likelihoods (N := ExactNumerics)
      [ex_record (Some 1) (Some 1); ex_record (Some 0) (Some 2)] = Ok out
    /\ map record out = [ex_record (Some 1) (Some 1); ex_record (Some 0) (Some 2)].
Proof.
  destruct (likelihood_stage_on_defined_rows (N := ExactNumerics)
              [ex_record (Some 1) (Some 1); ex_record (Some 0) (Some 2)])
    as [out [Hout [Hrec _]]].
  - discriminate.
  - intros row [<-|[<-|[]]]; eexists; (split; [reflexivity|lia]).
  - exists out. split; assumption.
Defined.

(** C7 fails as stated: with a sample that appears in two rows of the
    cluster table the call returns a table; the read of the sample is counted
    in both clusters. *)
Lemma ambiguous_assignment_returns :
  exists rows,
    snd (compute_snv_log_likelihoods (N := ExactNumerics) [ex_read]
           ex_allele_cn_two_clusters ex_clusters_twice) = Ok rows
    /\ map (fun r => (cluster_id (record r), alt_counts (record r),
                      ref_counts (record r))) rows =
       [("cluster1", 2, 8); ("cluster2", 2, 8)].
Proof. apply (two_assignments_example (N := ExactNumerics)). Qed.

Lemma repeated_assignments_are_joined_witness :
  sc_alt_counts (ex_count "cluster2" 100) =
    2 * Z.of_nat (assignments_to ex_clusters_twice "sampleA" "cluster2") + 0
  /\ sc_ref_counts (ex_count "cluster2" 100) =
    8 * Z.of_nat (assignments_to ex_clusters_twice "sampleA" "cluster2") + 0.
Proof.
  apply (repeated_assignments_are_joined [ex_read] ex_clusters_twice
           (ex_count "cluster2" 100)).
  vm_compute. right. left. reflexivity.
Defined.


(** C9: the copy number table of the caller after the call.  The float64
    columns [total_cn], [minor_cn] and [major_cn] of the table that was passed
    in have become int64 columns, 3.7, 1.2 and 2.5 have become 3, 1 and 2. *)
Theorem caller_table_is_overwritten :
  fst (compute_snv_log_likelihoods (N := ExactNumerics) [ex_read] ex_allele_cn_float
         ex_clusters) =
    [ex_segment "cluster1" 0 200 (IntV 2) (IntV 1) (IntV 1);
     ex_segment "cluster1" 200 400 (IntV 3) (IntV 1) (IntV 2)]
  /\ fst (compute_snv_log_likelihoods (N := ExactNumerics) [ex_read] ex_allele_cn_float
            ex_clusters) <> ex_allele_cn_float
  /\ is_ok (snd (compute_snv_log_likelihoods (N := ExactNumerics) [ex_read]
                   ex_allele_cn_float ex_clusters)) = true.
Proof.
  destruct (float_columns_example (N := ExactNumerics)) as [Hfst Hsnd].
  split; [exact Hfst|]. split; [|exact Hsnd].
  rewrite Hfst. discriminate.
Qed.

Lemma contained_index_in_bounds_witness :
  nth_error (end_idx_of acn_end [ex_cn_segment "cluster1" 0 200 1 1] [500; 100]) 1
  = Some 0
  /\ iloc (map (cn_column MajorCn) [ex_cn_segment "cluster1" 0 200 1 1]) 0 = Ok 1.
Proof.
  destruct (contained_index_in_bounds acn_start acn_end cn_column
              [ex_cn_segment "cluster1" 0 200 1 1] [500; 100] 1 0 eq_refl eq_refl)
    as [Hb [[s [Hs Hcol]] _]].
  split; [reflexivity|].
  rewrite (Hcol MajorCn). vm_compute in Hs. injection Hs as <-. reflexivity.
Defined.

(** * Further properties of the code *)

Section CellFacts2.
Context {C V : Type}.
Variable col_eq_dec : forall a b : C, {a = b} + {a <> b}.

Lemma set_cell_twice (col : C) (v w : option V) (cells : list (C * option V)) :
  set_cell col_eq_dec col w (set_cell col_eq_dec col v cells) =
  set_cell col_eq_dec col w cells.
Proof.
  induction cells as [|[c u] cells IH]; simpl.
  - destruct (col_eq_dec col col); [reflexivity|congruence].
  - destruct (col_eq_dec c col) as [->|Hne]; simpl.
    + destruct (col_eq_dec col col); [reflexivity|congruence].
    + destruct (col_eq_dec c col); [congruence|now rewrite IH].
Qed.

Lemma set_column_twice {P : Type} (col : C) (v w : option V) (r : Annotated P C V) :
  set_column col_eq_dec col w (set_column col_eq_dec col v r) =
  set_column col_eq_dec col w r.
Proof. unfold set_column. simpl. now rewrite set_cell_twice. Qed.
End CellFacts2.

Section RowWiseFacts.
Context {P S C V : Type}.
Variable col_eq_dec : forall a b : C, {a = b} + {a <> b}.
Variable pos_coord : P -> Z.
Variables seg_start seg_end : S -> Z.
Variable seg_col : C -> S -> V.

Local Notation bnd := (boundary seg_start seg_end).
Local Notation find_ :=
  (find_overlapping_segments col_eq_dec pos_coord seg_start seg_end seg_col).
Local Notation by_boundary := (fun a b => boundary_leb (bnd a) (bnd b)).
Local Notation cell := (lookup_cell seg_col).
Local Notation contained := (fun i : Z * Z => fst i =? snd i).
Local Notation mask_of idx := (idx_eq (map fst idx) (map snd idx)).
Local Notation in_range seg :=
  (fun i : Z * Z => -1 <= fst i <= Z.of_nat (List.length seg) - 1
                    /\ 0 <= snd i <= Z.of_nat (List.length seg)).

Lemma idx_eq_contained (idx : list (Z * Z)) :
  mask_of idx = map contained idx.
Proof. unfold idx_eq. rewrite combine_map, map_map. reflexivity. Qed.

Lemma assign_masked_rowwise (seg : list S) (col : C) (idx : list (Z * Z)) :
  forall (rs : list (Annotated P C V)) (values : list V),
  Forall2 (fun i v => cell seg col i = Some v) (filter contained idx) values ->
  List.length rs = List.length idx ->
  assign_masked col_eq_dec col (map (set_column col_eq_dec col None) rs)
    (map contained idx) values =
  map (fun '(r, i) => set_column col_eq_dec col (cell seg col i) r)
      (combine rs idx).
Proof.
  induction idx as [|i idx IH]; intros rs values HF Hlen.
  - destruct rs; [reflexivity|discriminate].
  - destruct rs as [|r rs]; [discriminate|]. injection Hlen as Hlen.
    cbn [map combine assign_masked filter] in *.
    destruct (fst i =? snd i) eqn:E.
    + inversion HF as [|? v ? values' Hv HF']; subst.
      rewrite set_column_twice, Hv, IH by assumption. reflexivity.
    + rewrite IH by assumption. f_equal.
      unfold lookup_cell. now rewrite E.
Qed.

Lemma iloc_lookup_cell (seg : list S) (col : C) (i : Z * Z) :
  in_range seg i -> fst i = snd i ->
  exists v, iloc (map (seg_col col) seg) (snd i) = Ok v
            /\ cell seg col i = Some v.
Proof.
  intros Hrange Heq.
  pose proof (contained_idx_range seg i Hrange Heq) as Hb.
  destruct (iloc_in_bounds (map (seg_col col) seg) (snd i))
    as [v [Hv Hn]]; [now rewrite length_map|].
  exists v. split; [exact Hv|].
  unfold lookup_cell. rewrite Heq, Z.eqb_refl.
  rewrite nth_error_map in Hn.
  destruct (nth_error seg (Z.to_nat (snd i))); simpl in Hn; congruence.
Qed.

Lemma assign_column_rowwise (seg : list S) (idx : list (Z * Z))
    (rs : list (Annotated P C V)) (col : C) :
  Forall (in_range seg) idx ->
  List.length rs = List.length idx ->
  assign_column col_eq_dec seg_col seg (mask_of idx) (map snd idx) rs col =
  Ok (map (fun '(r, i) => set_column col_eq_dec col (cell seg col i) r)
          (combine rs idx)).
Proof.
  intros Hrange Hlen. unfold assign_column.
  rewrite masked_indices.
  destruct (mapM_exists (iloc (map (seg_col col) seg))
              (fun e v => True)
              (map snd (filter contained idx)))
    as [values0 [H0 _]].
  { intros e He. apply in_map_iff in He. destruct He as [i [<- Hi]].
    apply filter_In in Hi. destruct Hi as [Hin Hi]. apply Z.eqb_eq in Hi.
    destruct (iloc_lookup_cell seg col i
                (proj1 (Forall_forall _ _) Hrange i Hin) Hi) as [v [Hv _]].
    now exists v. }
  rewrite H0. simpl. f_equal.
  rewrite idx_eq_contained. apply assign_masked_rowwise; [|exact Hlen].
  clear Hlen rs. revert values0 H0.
  induction idx as [|i idx IH]; intros values0 H0; simpl in *.
  - injection H0 as <-. constructor.
  - apply Forall_cons_iff in Hrange. destruct Hrange as [Hi Hrange].
    destruct (fst i =? snd i) eqn:E; [|now apply IH].
    apply Z.eqb_eq in E.
    destruct (iloc_lookup_cell seg col i Hi E) as [v [Hv Hc]].
    simpl in H0. rewrite Hv in H0. simpl in H0.
    destruct (mapM (iloc (map (seg_col col) seg))
                (map snd (filter contained idx)))
      as [vs|e] eqn:Hvs; simpl in H0; [|discriminate].
    injection H0 as <-. constructor; [exact Hc|]. now apply IH.
Qed.

Lemma map_combine_fst {A B : Type} (rs : list A) (coords : list B) :
  List.length rs = List.length coords ->
  map (fun '(r, _) => r) (combine rs coords) = rs.
Proof.
  revert coords; induction rs as [|r rs IH]; intros [|c coords] Hlen;
    try discriminate; [reflexivity|].
  simpl. f_equal. apply IH. now injection Hlen.
Qed.

Lemma combine_map_combine {A B : Type} (f : A -> B -> A) (rs : list A)
    (coords : list B) :
  combine (map (fun '(r, c) => f r c) (combine rs coords)) coords =
  map (fun '(r, c) => (f r c, c)) (combine rs coords).
Proof.
  revert coords; induction rs as [|r rs IH]; intros [|c coords];
    try reflexivity.
  simpl. f_equal. apply IH.
Qed.

Lemma combine_map_left {A A' B : Type} (f : A -> A') (xs : list A)
    (ys : list B) :
  combine (map f xs) ys = map (fun '(x, y) => (f x, y)) (combine xs ys).
Proof.
  revert ys; induction xs as [|x xs IH]; intros [|y ys]; try reflexivity.
  simpl. f_equal. apply IH.
Qed.

Lemma assign_columns_rowwise (seg : list S) (idx : list (Z * Z))
    (columns : list C) :
  Forall (in_range seg) idx ->
  forall rs : list (Annotated P C V),
  List.length rs = List.length idx ->
  assign_columns col_eq_dec seg_col seg (mask_of idx) (map snd idx) rs columns =
  Ok (map (fun '(r, i) =>
             fold_left (fun r col => set_column col_eq_dec col (cell seg col i) r)
                       columns r)
          (combine rs idx)).
Proof.
  intros Hrange.
  induction columns as [|col columns IH]; intros rs Hlen; cbn [assign_columns].
  - f_equal. cbn [fold_left]. symmetry. now apply map_combine_fst.
  - rewrite assign_column_rowwise by assumption. simpl.
    rewrite IH.
    + f_equal.
      rewrite (combine_map_combine
                 (fun r i => set_column col_eq_dec col (cell seg col i) r)).
      rewrite map_map. apply map_ext. intros [r i]. reflexivity.
    + rewrite length_map, length_combine. lia.
Qed.

(** One partition with distinct boundaries: the table built column by
    column, with masks, is the table in which every position is annotated
    from its own pair of indices. *)
Lemma find_overlapping_segments_rowwise (pos : list P) (seg : list S)
    (columns : list C) :
  NoDup (map bnd seg) ->
  find_ pos seg columns =
  Ok (annotate_rows col_eq_dec pos_coord seg_start seg_end seg_col
        (sort_by by_boundary seg) columns pos).
Proof.
  intros Hnd.
  rewrite (find_overlapping_segments_unfold col_eq_dec pos_coord seg_start
             seg_end seg_col). cbv zeta.
  replace (has_duplicate boundary_eqb (map bnd (sort_by by_boundary seg)))
    with false.
  - rewrite assign_columns_rowwise.
    + f_equal. unfold annotate_rows. rewrite combine_map_left, map_map.
      apply map_ext. intros [p i]. reflexivity.
    + apply idx_of_range.
    + now rewrite (idx_of_length seg_start seg_end), !length_map.
  - symmetry. apply (has_duplicate_false_NoDup _ boundary_eqb_spec).
    eapply Permutation_NoDup; [|exact Hnd].
    apply Permutation_map, Permutation_sym, sort_by_perm.
Qed.

End RowWiseFacts.

Lemma find_first {A : Type} (f : A -> bool) (l : list A) (k : nat) (x : A) :
  nth_error l k = Some x -> f x = true ->
  (forall i y, (i < k)%nat -> nth_error l i = Some y -> f y = false) ->
  find f l = Some x.
Proof.
  revert k; induction l as [|a l IH]; intros k Hk Hx Hbefore.
  - destruct k; discriminate.
  - destruct k as [|k]; simpl in *.
    + injection Hk as ->. now rewrite Hx.
    + rewrite (Hbefore 0%nat a) by (try lia; reflexivity).
      apply (IH k Hk Hx). intros i y Hi Hy. apply (Hbefore (S i) y); [lia|exact Hy].
Qed.

Lemma find_nothing {A : Type} (f : A -> bool) (l : list A) :
  (forall x, In x l -> f x = false) -> find f l = None.
Proof.
  induction l as [|a l IH]; intros H; simpl; [reflexivity|].
  rewrite (H a) by now left. apply IH. intros x Hx. apply H. now right.
Qed.

Lemma nth_map_nth_error {A : Type} (f : A -> Z) (l : list A) (i : nat) (x : A) :
  nth_error l i = Some x -> nth i (map f l) 0 = f x.
Proof.
  revert i; induction l as [|a l IH]; intros [|i] H; try discriminate; simpl in *.
  - now injection H as ->.
  - now apply IH.
Qed.

Section IntervalFacts.
Context {P S C V : Type}.
Variable col_eq_dec : forall a b : C, {a = b} + {a <> b}.
Variable pos_coord : P -> Z.
Variables seg_start seg_end : S -> Z.
Variable seg_col : C -> S -> V.

Local Notation bnd := (boundary seg_start seg_end).
Local Notation by_boundary := (fun a b => boundary_leb (bnd a) (bnd b)).
Local Notation cell := (lookup_cell seg_col).
Local Notation alone := (idx_alone seg_start seg_end).
Local Notation ordered := (ordered_disjoint seg_start seg_end).
Local Notation starts seg := (map seg_start seg).
Local Notation ends seg := (map seg_end seg).

Lemma ordered_disjoint_nth (seg : list S) :
  ordered seg ->
  (forall i, (i < List.length seg)%nat ->
             nth i (starts seg) 0 < nth i (ends seg) 0)
  /\ (forall i j, (i < j < List.length seg)%nat ->
                  nth i (ends seg) 0 <= nth j (starts seg) 0).
Proof.
  induction seg as [|s seg IH]; intros Hord.
  - split; intros; simpl in *; lia.
  - destruct Hord as [Hs [Hnext Hrest]]. destruct (IH Hrest) as [IH1 IH2].
    split.
    + intros [|i] Hi; simpl in *; [exact Hs|]. apply IH1. lia.
    + intros [|i] [|j] Hij; simpl in *; try lia.
      * destruct seg as [|s' seg']; [simpl in Hij; lia|].
        destruct j as [|j]; [exact Hnext|].
        specialize (IH1 0%nat ltac:(simpl; lia)).
        specialize (IH2 0%nat (Datatypes.S j) ltac:(simpl in *; lia)).
        simpl in IH1, IH2 |- *. lia.
      * apply IH2. lia.
Qed.

Lemma ordered_disjoint_monotone (seg : list S) :
  ordered seg ->
  (forall i j, (i <= j < List.length (starts seg))%nat ->
               nth i (starts seg) 0 <= nth j (starts seg) 0)
  /\ (forall i j, (i <= j < List.length (ends seg))%nat ->
                  nth i (ends seg) 0 <= nth j (ends seg) 0).
Proof.
  intros Hord. destruct (ordered_disjoint_nth seg Hord) as [H1 H2].
  rewrite !length_map. split; intros i j Hij.
  - destruct (Nat.eq_dec i j) as [->|Hne]; [lia|].
    specialize (H1 i ltac:(lia)). specialize (H2 i j ltac:(lia)). lia.
  - destruct (Nat.eq_dec i j) as [->|Hne]; [lia|].
    specialize (H1 j ltac:(lia)). specialize (H2 i j ltac:(lia)). lia.
Qed.

(** When the two columns are sorted, the indices of a coordinate do not
    depend on the coordinates before it. *)
Lemma idx_of_sorted (seg : list S) (coords : list Z) :
  (forall i j, (i <= j < List.length (starts seg))%nat ->
               nth i (starts seg) 0 <= nth j (starts seg) 0) ->
  (forall i j, (i <= j < List.length (ends seg))%nat ->
               nth i (ends seg) 0 <= nth j (ends seg) 0) ->
  idx_of seg_start seg_end seg coords = map (alone seg) coords.
Proof.
  intros HA HB. unfold idx_of, start_idx_of, end_idx_of.
  rewrite (searchsorted_sorted _ _ HA), (searchsorted_sorted _ _ HB).
  rewrite !map_map, combine_map. reflexivity.
Qed.

Lemma annotate_rows_alone (seg : list S) (columns : list C) (pos : list P) :
  idx_of seg_start seg_end seg (map pos_coord pos) =
    map (alone seg) (map pos_coord pos) ->
  annotate_rows col_eq_dec pos_coord seg_start seg_end seg_col seg columns pos =
  map (fun p => annotate_row col_eq_dec seg_col seg columns p
                  (alone seg (pos_coord p))) pos.
Proof.
  intros E. unfold annotate_rows. rewrite E, map_map. clear E.
  induction pos as [|p pos IH]; [reflexivity|].
  cbn [map combine]. f_equal. exact IH.
Qed.

(** On ordered segments that do not overlap, the test
    [start_idx == end_idx] finds the segment with [start < coord <= end]. *)
Lemma lookup_cell_covering (seg : list S) (col : C) (coord : Z) :
  ordered seg ->
  cell seg col (alone seg coord) =
  option_map (seg_col col) (covering seg_start seg_end seg coord).
Proof.
  intros Hord.
  destruct (ordered_disjoint_nth seg Hord) as [Hlt Hsep].
  destruct (ordered_disjoint_monotone seg Hord) as [HmA HmB].
  destruct (search_alone_sorted (starts seg) coord HmA) as [HA1 HA2].
  destruct (search_alone_sorted (ends seg) coord HmB) as [HB1 HB2].
  pose proof (search_alone_bounds (starts seg) coord) as HbA.
  pose proof (search_alone_bounds (ends seg) coord) as HbB.
  rewrite !length_map in *.
  unfold lookup_cell, covering, idx_alone. cbn [fst snd].
  set (r1 := search_alone (starts seg) coord) in *.
  set (r2 := search_alone (ends seg) coord) in *.
  destruct (Z.of_nat r1 - 1 =? Z.of_nat r2) eqn:E.
  - apply Z.eqb_eq in E. assert (r1 = Datatypes.S r2) as Er by lia.
    rewrite Nat2Z.id.
    destruct (nth_error seg r2) as [s|] eqn:Hn;
      [|apply nth_error_None in Hn; lia].
    assert (seg_start s < coord) as Hs.
    { rewrite <- (nth_map_nth_error seg_start seg r2 s Hn). apply HA1. lia. }
    assert (coord <= seg_end s) as He.
    { rewrite <- (nth_map_nth_error seg_end seg r2 s Hn). apply HB2. lia. }
    rewrite (find_first _ seg r2 s Hn); [reflexivity| |].
    + apply andb_true_iff. split; [apply Z.ltb_lt|apply Z.leb_le]; assumption.
    + intros i y Hi Hy. apply andb_false_iff. right. apply Z.leb_gt.
      rewrite <- (nth_map_nth_error seg_end seg i y Hy). apply HB1. exact Hi.
  - apply Z.eqb_neq in E. rewrite find_nothing; [reflexivity|].
    intros s Hin. apply In_nth_error in Hin. destruct Hin as [i Hi].
    assert (i < List.length seg)%nat as Hil
      by (apply nth_error_Some; congruence).
    apply andb_false_iff.
    destruct (Nat.lt_ge_cases i r2) as [Hlt2|Hge2].
    + right. apply Z.leb_gt.
      rewrite <- (nth_map_nth_error seg_end seg i s Hi). now apply HB1.
    + left. apply Z.ltb_ge.
      rewrite <- (nth_map_nth_error seg_start seg i s Hi).
      destruct (Nat.lt_ge_cases i r1) as [Hlt1|Hge1]; [|apply HA2; lia].
      (* r2 <= i < r1 and r1 <> r2 + 1, so r2 + 1 < r1 *)
      exfalso.
      assert (r2 < List.length seg)%nat as Hr2 by lia.
      assert (Datatypes.S r2 < r1)%nat as Hgap by lia.
      specialize (HA1 (Datatypes.S r2) Hgap).
      specialize (HB2 r2 ltac:(lia)).
      specialize (Hsep r2 (Datatypes.S r2) ltac:(lia)). lia.
Qed.

Lemma ordered_disjoint_sorted (seg : list S) :
  ordered seg -> sort_by by_boundary seg = seg.
Proof.
  induction seg as [|s seg IH]; intros Hord; [reflexivity|].
  destruct Hord as [Hs [Hnext Hrest]].
  unfold sort_by in *. cbn [fold_right]. rewrite (IH Hrest).
  destruct seg as [|s' seg']; [reflexivity|]. cbn [insert_sorted].
  destruct Hrest as [Hs' _].
  replace (boundary_leb (bnd s) (bnd s')) with true; [reflexivity|].
  symmetry. unfold boundary_leb, boundary. cbn [fst snd].
  apply orb_true_iff. left. apply Z.ltb_lt. lia.
Qed.

Lemma ordered_disjoint_NoDup (seg : list S) :
  ordered seg -> NoDup (map bnd seg).
Proof.
  intros Hord. destruct (ordered_disjoint_nth seg Hord) as [Hlt Hsep].
  apply (NoDup_nth (map bnd seg) (0, 0)). rewrite length_map.
  intros i j Hi Hj Heq.
  assert (forall k, (k < List.length seg)%nat ->
            fst (nth k (map bnd seg) (0, 0)) = nth k (starts seg) 0) as Hfst.
  { intros k Hk. rewrite <- (map_nth fst). rewrite map_map. reflexivity. }
  destruct (Nat.lt_trichotomy i j) as [Hij|[Hij|Hij]]; [|exact Hij|]; exfalso.
  - pose proof (Hlt i Hi). pose proof (Hsep i j ltac:(lia)).
    pose proof (Hfst i Hi) as Fi. pose proof (Hfst j Hj) as Fj.
    rewrite Heq in Fi. lia.
  - pose proof (Hlt j Hj). pose proof (Hsep j i ltac:(lia)).
    pose proof (Hfst i Hi) as Fi. pose proof (Hfst j Hj) as Fj.
    rewrite Heq in Fi. lia.
Qed.

Lemma fold_set_column_position (columns : list C) (f : C -> option V)
    (r : Annotated P C V) :
  position (fold_left (fun r col => set_column col_eq_dec col (f col) r) columns r)
  = position r.
Proof.
  revert r; induction columns as [|c columns IH]; intros r; simpl; [reflexivity|].
  now rewrite IH.
Qed.

Lemma fold_set_column_get (columns : list C) (f : C -> option V)
    (r : Annotated P C V) (col : C) :
  get_cell col_eq_dec col
    (columns_of (fold_left (fun r col => set_column col_eq_dec col (f col) r)
                           columns r)) =
  if in_dec col_eq_dec col columns then Ok (f col)
  else get_cell col_eq_dec col (columns_of r).
Proof.
  revert r; induction columns as [|c columns IH]; intros r; simpl; [reflexivity|].
  rewrite IH. destruct (in_dec col_eq_dec col columns) as [Hin|Hnin].
  - destruct (col_eq_dec c col); reflexivity.
  - destruct (col_eq_dec c col) as [->|Hne]; simpl.
    + apply get_set_cell.
    + apply get_set_cell_other. congruence.
Qed.

Lemma annotate_row_position (seg : list S) (columns : list C) (p : P)
    (idx : Z * Z) :
  position (annotate_row col_eq_dec seg_col seg columns p idx) = p.
Proof. unfold annotate_row. now rewrite fold_set_column_position. Qed.

Lemma annotate_row_get (seg : list S) (columns : list C) (p : P)
    (idx : Z * Z) (col : C) :
  In col columns ->
  get_cell col_eq_dec col
    (columns_of (annotate_row col_eq_dec seg_col seg columns p idx)) =
  Ok (cell seg col idx).
Proof.
  intros Hin. unfold annotate_row.
  rewrite (fold_set_column_get columns (fun col => cell seg col idx)).
  destruct (in_dec col_eq_dec col columns); [reflexivity|contradiction].
Qed.

Lemma annotate_rows_position (seg : list S) (columns : list C) (pos : list P) :
  map position
    (annotate_rows col_eq_dec pos_coord seg_start seg_end seg_col seg columns pos)
  = pos.
Proof.
  unfold annotate_rows. rewrite map_map.
  pose proof (idx_of_length seg_start seg_end seg (map pos_coord pos)) as Hlen.
  rewrite length_map in Hlen. revert Hlen.
  generalize (idx_of seg_start seg_end seg (map pos_coord pos)).
  induction pos as [|p pos IH]; intros [|i idx] Hlen; try discriminate;
    [reflexivity|].
  cbn [map combine]. rewrite annotate_row_position. f_equal.
  apply IH. now injection Hlen.
Qed.

End IntervalFacts.

Lemma mapM_inv {A B : Type} (f : A -> result B) (l : list A) (ys : list B) :
  mapM f l = Ok ys -> Forall2 (fun x y => f x = Ok y) l ys.
Proof.
  revert ys; induction l as [|x l IH]; simpl; intros ys H.
  - injection H as <-. constructor.
  - destruct (f x) as [y|e] eqn:Hx; simpl in H; [|discriminate].
    destruct (mapM f l) as [zs|e]; simpl in H; [|discriminate].
    injection H as <-. constructor; [exact Hx|]. now apply IH.
Qed.

Lemma mapM_error_inv {A B : Type} (f : A -> result B) (l : list A) (e : exn) :
  mapM f l = Error e -> exists x, In x l /\ f x = Error e.
Proof.
  induction l as [|x l IH]; simpl; intros H; [discriminate|].
  destruct (f x) as [y|e'] eqn:Hx; simpl in H.
  - destruct (mapM f l) as [zs|e'']; simpl in H; [discriminate|].
    injection H as ->. destruct (IH eq_refl) as [z [Hz Hf]].
    exists z. split; [now right|exact Hf].
  - injection H as ->. exists x. split; [now left|exact Hx].
Qed.

Section AnnotateInversion.
Context {P S C V : Type}.
Variable col_eq_dec : forall a b : C, {a = b} + {a <> b}.
Variables (pos_sample pos_chrom : P -> string) (pos_coord : P -> Z).
Variables (seg_sample seg_chr : S -> string) (seg_start seg_end : S -> Z).
Variable seg_col : C -> S -> V.

Local Notation bnd := (boundary seg_start seg_end).
Local Notation find_ :=
  (find_overlapping_segments col_eq_dec pos_coord seg_start seg_end seg_col).
Local Notation annotate :=
  (annotate_copy_number col_eq_dec pos_sample pos_chrom pos_coord
     seg_sample seg_chr seg_start seg_end seg_col).
Local Notation by_boundary := (fun a b => boundary_leb (bnd a) (bnd b)).
Local Notation segments_of := (segments_of seg_sample seg_chr).
Local Notation partition_of := (partition_of pos_sample pos_chrom).
Local Notation rows :=
  (annotate_rows col_eq_dec pos_coord seg_start seg_end seg_col).
Local Notation by_partition :=
  (annotated_by_partition col_eq_dec pos_sample pos_chrom pos_coord
     seg_sample seg_chr seg_start seg_end seg_col).

Lemma find_overlapping_segments_inv (pos : list P) (seg : list S)
    (columns : list C) (res : list (Annotated P C V)) :
  find_ pos seg columns = Ok res ->
  NoDup (map bnd seg)
  /\ res = rows (sort_by by_boundary seg) columns pos.
Proof.
  intros H.
  destruct (NoDup_boundary_dec seg_start seg_end seg) as [Hnd|Hnd].
  - split; [exact Hnd|].
    rewrite (find_overlapping_segments_rowwise col_eq_dec pos_coord seg_start
               seg_end seg_col pos seg columns Hnd) in H.
    now injection H.
  - rewrite (find_overlapping_segments_duplicate col_eq_dec pos_coord seg_start
               seg_end seg_col pos seg columns Hnd) in H.
    discriminate.
Qed.

(** When the annotation returns, no partition has two segments with the same
    boundaries, the segments table is not empty and the rows are those of the
    partitions, each position annotated from its pair of indices. *)
Lemma annotate_copy_number_inv (pos : list P) (seg : list S)
    (columns : list C) (res : list (Annotated P C V)) :
  annotate pos seg columns = Ok res ->
  seg <> []
  /\ (forall sample chrom, In sample (map seg_sample seg) ->
        In chrom (map seg_chr seg) ->
        NoDup (map bnd (segments_of seg sample chrom)))
  /\ res = by_partition pos seg columns.
Proof.
  unfold annotate_copy_number. intros H.
  destruct (mapM _ (unique String.eqb (map seg_sample seg)))
    as [results|e] eqn:Hres; simpl in H; [|discriminate].
  apply mapM_inv in Hres.
  assert (seg <> []) as Hne.
  { intros ->. simpl in Hres. inversion Hres; subst. simpl in H. discriminate. }
  split; [exact Hne|].
  unfold pd_concat in H. destruct (List.concat results) as [|t ts] eqn:Hc;
    [discriminate|]. rewrite <- Hc in H. clear Hc t ts. injection H as <-.
  split.
  - intros sample chrom Hs Hch.
    apply (In_unique String.eqb String.eqb_eq) in Hs.
    apply (In_unique String.eqb String.eqb_eq) in Hch.
    clear Hne. induction Hres as [|s tbls samples results Htbls _ IH];
      [contradiction|].
    destruct Hs as [->|Hs]; [|now apply IH].
    apply mapM_inv in Htbls. clear IH.
    induction Htbls as [|c tbl chroms tbls' Htbl _ IHc]; [contradiction|].
    destruct Hch as [->|Hch]; [|now apply IHc].
    now apply find_overlapping_segments_inv in Htbl.
  - unfold annotated_by_partition. clear Hne.
    induction Hres as [|s tbls samples results Htbls _ IH]; [reflexivity|].
    simpl. rewrite concat_app, IH. f_equal.
    apply mapM_inv in Htbls. clear IH.
    induction Htbls as [|c tbl chroms tbls' Htbl _ IHc]; [reflexivity|].
    simpl. rewrite IHc. f_equal.
    now apply find_overlapping_segments_inv in Htbl.
Qed.

Lemma annotated_by_partition_position (pos : list P) (seg : list S)
    (columns : list C) :
  map position (by_partition pos seg columns) =
  positions_by_partition pos_sample pos_chrom seg_sample seg_chr pos seg.
Proof.
  unfold annotated_by_partition, positions_by_partition.
  induction (unique String.eqb (map seg_sample seg)) as [|s samples IH];
    [reflexivity|].
  simpl. rewrite map_app, IH. f_equal. clear IH.
  induction (unique String.eqb (map seg_chr seg)) as [|c chroms IHc];
    [reflexivity|].
  simpl. rewrite map_app, IHc. f_equal.
  apply annotate_rows_position.
Qed.

Lemma annotate_copy_number_error (pos : list P) (seg : list S)
    (columns : list C) (e : exn) :
  annotate pos seg columns = Error e ->
  (seg = [] /\ e = ValueError "No objects to concatenate")
  \/ (e = DuplicateSegmentBoundary
      /\ exists sample chrom, ~ NoDup (map bnd (segments_of seg sample chrom))).
Proof.
  unfold annotate_copy_number. intros H.
  destruct (mapM _ (unique String.eqb (map seg_sample seg)))
    as [results|e'] eqn:Hres; simpl in H.
  - left. unfold pd_concat in H.
    destruct (List.concat results) as [|t ts] eqn:Hc; [|discriminate].
    injection H as <-. split; [|reflexivity].
    apply mapM_inv in Hres.
    destruct seg as [|s0 seg0]; [reflexivity|exfalso].
    simpl in Hres. inversion Hres as [|? tbls ? ? Htbls _]; subst.
    simpl in Htbls.
    destruct (find_overlapping_segments _ _ _ _ _ _ _ _) in Htbls;
      simpl in Htbls; [|discriminate].
    destruct (mapM _ _) in Htbls; simpl in Htbls; [|discriminate].
    injection Htbls as <-. simpl in Hc. discriminate.
  - right. injection H as ->.
    apply mapM_error_inv in Hres. destruct Hres as [sample [_ Hs]].
    apply mapM_error_inv in Hs. destruct Hs as [chrom [_ Hf]].
    destruct (NoDup_boundary_dec seg_start seg_end
                (segments_of seg sample chrom)) as [Hnd|Hnd].
    + destruct (find_overlapping_segments_ok col_eq_dec pos_coord seg_start
                  seg_end seg_col
                  (partition_of pos sample chrom)
                  (segments_of seg sample chrom) columns Hnd) as [r [Hr _]].
      pose proof (eq_trans (eq_sym Hf) Hr) as Hbad. discriminate Hbad.
    + rewrite (find_overlapping_segments_duplicate col_eq_dec pos_coord
                 seg_start seg_end seg_col _ _ columns Hnd) in Hf.
      split; [congruence|]. now exists sample, chrom.
Qed.

End AnnotateInversion.

Section AnnotatorExtras.
Context {P S C V : Type}.
Variable col_eq_dec : forall a b : C, {a = b} + {a <> b}.
Variables (pos_sample pos_chrom : P -> string) (pos_coord : P -> Z).
Variables (seg_sample seg_chr : S -> string) (seg_start seg_end : S -> Z).
Variable seg_col : C -> S -> V.

(** X2. On segments given in order that do not overlap (each with
    [start < end], each ending where the next one starts or before), a
    position receives in every requested column the attribute of the segment
    with [start < coord <= end], and NaN when there is none: the intervals
    are open on the left and closed on the right, so a coordinate equal to
    the start of a segment is not in that segment. *)
Theorem ordered_segments_cover (pos : list P) (seg : list S)
    (columns : list C) :
  ordered_disjoint seg_start seg_end seg ->
  exists res,
    find_overlapping_segments col_eq_dec pos_coord seg_start seg_end seg_col
      pos seg columns = Ok res
    /\ map position res = pos
    /\ Forall (fun r =>
                 forall col, In col columns ->
                   get_cell col_eq_dec col (columns_of r) =
                   Ok (option_map (seg_col col)
                         (covering seg_start seg_end seg (pos_coord (position r)))))
              res.
Proof.
  intros Hord.
  destruct (ordered_disjoint_monotone seg_start seg_end seg Hord) as [HA HB].
  eexists. split; [|split].
  - apply find_overlapping_segments_rowwise.
    now apply ordered_disjoint_NoDup.
  - apply annotate_rows_position.
  - rewrite (ordered_disjoint_sorted seg_start seg_end seg Hord).
    rewrite annotate_rows_alone by (now apply idx_of_sorted).
    apply Forall_map, Forall_forall. intros p _ col Hcol.
    rewrite annotate_row_position, annotate_row_get by exact Hcol.
    now rewrite lookup_cell_covering.
Qed.

(** X3. The exceptions of [annotate_copy_number]: it raises
    [ValueError('No objects to concatenate')] exactly when the segments table
    is empty, [ValueError('duplicate columns')] exactly when some partition
    has two segments with the same boundaries, and nothing else: the lookup
    by position never fails. *)
Theorem annotation_exceptions (pos : list P) (seg : list S)
    (columns : list C) (e : exn) :
  annotate_copy_number col_eq_dec pos_sample pos_chrom pos_coord
    seg_sample seg_chr seg_start seg_end seg_col pos seg columns = Error e
  <->
  (seg = [] /\ e = ValueError "No objects to concatenate")
  \/ (e = DuplicateSegmentBoundary
      /\ exists sample chrom,
           ~ NoDup (map (boundary seg_start seg_end)
                        (segments_of seg_sample seg_chr seg sample chrom))).
Proof.
  split; [apply annotate_copy_number_error|].
  intros [[-> ->]|[-> [sample [chrom Hdup]]]]; [reflexivity|].
  assert (exists s, In s seg /\ seg_sample s = sample /\ seg_chr s = chrom)
    as [s [Hin [Hs Hc]]].
  { destruct (segments_of seg_sample seg_chr seg sample chrom) as [|s rest] eqn:E.
    - exfalso. apply Hdup. constructor.
    - exists s. assert (In s (s :: rest)) as Hin by now left.
      rewrite <- E in Hin. unfold segments_of in Hin.
      rewrite !filter_In in Hin. destruct Hin as [[Hin Hs] Hc].
      apply String.eqb_eq in Hs. apply String.eqb_eq in Hc. auto. }
  unfold annotate_copy_number.
  rewrite (mapM_error _ _ DuplicateSegmentBoundary); [reflexivity| |].
  - intros sample' _. apply mapM_cases. intros chrom' _.
    apply find_overlapping_segments_cases.
  - exists sample. split.
    + apply (In_unique String.eqb String.eqb_eq). rewrite <- Hs. now apply in_map.
    + apply mapM_error.
      * intros chrom' _. apply find_overlapping_segments_cases.
      * exists chrom. split.
        -- apply (In_unique String.eqb String.eqb_eq). rewrite <- Hc.
           now apply in_map.
        -- now apply find_overlapping_segments_duplicate.
Qed.

End AnnotatorExtras.

(** ** The casts of the copy number table *)

Lemma combine_map_pair_id {A B D : Type} (g : A -> B) (h : A -> B -> D)
    (l : list A) :
  map (fun '(r, z) => h r z) (combine l (map g l)) = map (fun r => h r (g r)) l.
Proof. induction l as [|x l IH]; simpl; [reflexivity|now rewrite IH]. Qed.

Lemma astype_int_not_nan (c : num) :
  num_is_nan c = false -> astype_int c = Ok (int_value c).
Proof. destruct c; simpl; intros H; [reflexivity|reflexivity|discriminate]. Qed.

Lemma astype_int_nan (c : num) :
  num_is_nan c = true -> astype_int c = Error CannotConvert.
Proof. destruct c; simpl; intros H; try discriminate. reflexivity. Qed.

Lemma astype_int_column_cases (get : AlleleCn -> num)
    (set : AlleleCn -> num -> AlleleCn) (df : list AlleleCn) :
  astype_int_column get set df =
  if column_has_nan get df then Error CannotConvert
  else Ok (map (fun r => set r (IntV (int_value (get r)))) df).
Proof.
  unfold astype_int_column, column_has_nan.
  destruct (existsb (fun r => num_is_nan (get r)) df) eqn:E.
  - rewrite (mapM_error _ _ CannotConvert); [reflexivity| |].
    + intros r _. destruct (num_is_nan (get r)) eqn:En.
      * right. now apply astype_int_nan.
      * left. now rewrite astype_int_not_nan.
    + apply existsb_exists in E. destruct E as [r [Hr Hn]].
      exists r. split; [exact Hr|now apply astype_int_nan].
  - rewrite (mapM_total _ (fun r => int_value (get r))).
    + simpl. now rewrite combine_map_pair_id.
    + intros r Hr. apply astype_int_not_nan.
      destruct (num_is_nan (get r)) eqn:En; [|reflexivity].
      assert (existsb (fun r => num_is_nan (get r)) df = true) as E'
        by (apply existsb_exists; now exists r).
      congruence.
Qed.

Lemma existsb_map_compose {A B : Type} (f : B -> bool) (g : A -> B) (l : list A) :
  existsb f (map g l) = existsb (fun x => f (g x)) l.
Proof. induction l as [|x l IH]; simpl; [reflexivity|now rewrite IH]. Qed.

Lemma column_has_nan_cast_total (get : AlleleCn -> num) (df : list AlleleCn) :
  (forall r, get (cast_total_cn r) = get r) ->
  column_has_nan get (map cast_total_cn df) = column_has_nan get df.
Proof.
  intros H. unfold column_has_nan. rewrite existsb_map_compose.
  induction df as [|r df IH]; simpl; [reflexivity|]. now rewrite H, IH.
Qed.

Section PipelineCases.
Context `{N : Numerics}.

(** The four ways in which [compute_snv_log_likelihoods] ends, by the first
    column of the copy number table that holds a NaN. *)
Lemma compute_snv_log_likelihoods_cases (snv_data : list SnvRead)
    (allele_cn : list AlleleCn) (clusters : list ClusterAssignment) :
  compute_snv_log_likelihoods snv_data allele_cn clusters =
  if column_has_nan cn_total_cn allele_cn
  then (allele_cn, Error CannotConvert)
  else if column_has_nan cn_minor_cn allele_cn
  then (map cast_total_cn allele_cn, Error CannotConvert)
  else if column_has_nan cn_major_cn allele_cn
  then (map cast_minor_cn (map cast_total_cn allele_cn), Error CannotConvert)
  else (map cast_row allele_cn,
        annotate_and_score (aggregate (merge snv_data clusters))
          (map cast_row allele_cn)).
Proof.
  unfold compute_snv_log_likelihoods.
  rewrite astype_int_column_cases.
  destruct (column_has_nan cn_total_cn allele_cn); [reflexivity|].
  fold cast_total_cn. change (map (fun r => set_total_cn r (IntV (int_value (cn_total_cn r)))) allele_cn)
    with (map cast_total_cn allele_cn).
  rewrite astype_int_column_cases.
  rewrite (column_has_nan_cast_total cn_minor_cn) by reflexivity.
  destruct (column_has_nan cn_minor_cn allele_cn); [reflexivity|].
  change (map (fun r => set_minor_cn r (IntV (int_value (cn_minor_cn r))))
              (map cast_total_cn allele_cn))
    with (map cast_minor_cn (map cast_total_cn allele_cn)).
  rewrite astype_int_column_cases.
  unfold column_has_nan at 1. rewrite !existsb_map_compose.
  cbn [cast_minor_cn cast_total_cn set_minor_cn set_total_cn cn_major_cn].
  fold (column_has_nan cn_major_cn allele_cn).
  destruct (column_has_nan cn_major_cn allele_cn); [reflexivity|].
  rewrite !map_map. reflexivity.
Qed.

End PipelineCases.

Lemma column_has_nan_false_iff (get : AlleleCn -> num) (df : list AlleleCn) :
  column_has_nan get df = false <-> forall r, In r df -> get r <> NaNV.
Proof.
  unfold column_has_nan. split.
  - intros H r Hr Hn.
    assert (existsb (fun r => num_is_nan (get r)) df = true) as E.
    { apply existsb_exists. exists r. split; [exact Hr|]. now rewrite Hn. }
    congruence.
  - intros H. destruct (existsb _ df) eqn:E; [|reflexivity].
    apply existsb_exists in E. destruct E as [r [Hr Hn]].
    exfalso. apply (H r Hr). destruct (get r); try discriminate. reflexivity.
Qed.

Lemma column_has_nan_true_iff (get : AlleleCn -> num) (df : list AlleleCn) :
  column_has_nan get df = true <-> exists r, In r df /\ get r = NaNV.
Proof.
  unfold column_has_nan. rewrite existsb_exists. split.
  - intros [r [Hr Hn]]. exists r. split; [exact Hr|].
    destruct (get r); try discriminate. reflexivity.
  - intros [r [Hr Hn]]. exists r. split; [exact Hr|]. now rewrite Hn.
Qed.

Lemma column_has_nan_app_in (get : AlleleCn -> num) (df : list AlleleCn)
    (r : AlleleCn) :
  In r df -> column_has_nan get (df ++ [r]) = column_has_nan get df.
Proof.
  intros Hr. unfold column_has_nan. rewrite existsb_app. simpl.
  rewrite orb_false_r.
  destruct (num_is_nan (get r)) eqn:E; [|apply orb_false_r].
  rewrite orb_true_r. symmetry. apply existsb_exists. now exists r.
Qed.

Lemma cast_total_no_nan (df : list AlleleCn) :
  column_has_nan cn_total_cn (map cast_total_cn df) = false.
Proof.
  unfold column_has_nan. rewrite existsb_map_compose.
  induction df as [|r df IH]; simpl; [reflexivity|exact IH].
Qed.

Lemma cast_minor_no_nan (df : list AlleleCn) :
  column_has_nan cn_minor_cn (map cast_minor_cn df) = false.
Proof.
  unfold column_has_nan. rewrite existsb_map_compose.
  induction df as [|r df IH]; simpl; [reflexivity|exact IH].
Qed.

Lemma cast_major_no_nan (df : list AlleleCn) :
  column_has_nan cn_major_cn (map cast_major_cn df) = false.
Proof.
  unfold column_has_nan. rewrite existsb_map_compose.
  induction df as [|r df IH]; simpl; [reflexivity|exact IH].
Qed.

Lemma column_has_nan_map (get : AlleleCn -> num) (f : AlleleCn -> AlleleCn)
    (df : list AlleleCn) :
  (forall r, get (f r) = get r) ->
  column_has_nan get (map f df) = column_has_nan get df.
Proof.
  intros H. unfold column_has_nan. rewrite existsb_map_compose.
  induction df as [|r df IH]; simpl; [reflexivity|]. now rewrite H, IH.
Qed.

Lemma cast_total_cn_idem (r : AlleleCn) :
  cast_total_cn (cast_total_cn r) = cast_total_cn r.
Proof. reflexivity. Qed.

Lemma cast_minor_total_idem (r : AlleleCn) :
  cast_minor_cn (cast_total_cn (cast_minor_cn (cast_total_cn r))) =
  cast_minor_cn (cast_total_cn r).
Proof. reflexivity. Qed.

Lemma cast_row_idem (r : AlleleCn) : cast_row (cast_row r) = cast_row r.
Proof. reflexivity. Qed.

Lemma cast_row_no_nan (df : list AlleleCn) :
  column_has_nan cn_total_cn (map cast_row df) = false
  /\ column_has_nan cn_minor_cn (map cast_row df) = false
  /\ column_has_nan cn_major_cn (map cast_row df) = false.
Proof.
  unfold column_has_nan. rewrite !existsb_map_compose.
  repeat split; induction df as [|r df IH]; simpl; auto.
Qed.

Section CastExtras.
Context `{N : Numerics}.

(** X4. A NaN in a copy number column makes the call raise, and the caller's
    table is left half converted: the columns before the first column with a
    NaN have been cast to integers (in the order [total_cn], [minor_cn],
    [major_cn]), that column and the later ones are as they were.  The reads
    are taken to join with some cluster, so that the aggregation, which comes
    first, has rows to work on. *)
Theorem failed_cast_leaves_earlier_casts (snv_data : list SnvRead)
    (allele_cn : list AlleleCn) (clusters : list ClusterAssignment) :
  merge snv_data clusters <> [] ->
  ((exists r, In r allele_cn /\ cn_total_cn r = NaNV) ->
   compute_snv_log_likelihoods snv_data allele_cn clusters =
   (allele_cn, Error CannotConvert))
  /\ ((forall r, In r allele_cn -> cn_total_cn r <> NaNV) ->
      (exists r, In r allele_cn /\ cn_minor_cn r = NaNV) ->
      compute_snv_log_likelihoods snv_data allele_cn clusters =
      (map cast_total_cn allele_cn, Error CannotConvert))
  /\ ((forall r, In r allele_cn -> cn_total_cn r <> NaNV) ->
      (forall r, In r allele_cn -> cn_minor_cn r <> NaNV) ->
      (exists r, In r allele_cn /\ cn_major_cn r = NaNV) ->
      compute_snv_log_likelihoods snv_data allele_cn clusters =
      (map cast_minor_cn (map cast_total_cn allele_cn), Error CannotConvert)).
Proof.
  intros _. rewrite compute_snv_log_likelihoods_cases. repeat split.
  - intros H. apply column_has_nan_true_iff in H. now rewrite H.
  - intros H1 H2. apply column_has_nan_false_iff in H1.
    apply column_has_nan_true_iff in H2. now rewrite H1, H2.
  - intros H1 H2 H3. apply column_has_nan_false_iff in H1.
    apply column_has_nan_false_iff in H2.
    apply column_has_nan_true_iff in H3. now rewrite H1, H2, H3.
Qed.

(** X5. Calling again with the table that the first call left behind gives
    the same table and the same result: the casts are idempotent, and the
    returned table depends on the copy numbers only through their integer
    casts. *)
Theorem second_call_is_the_same (snv_data : list SnvRead)
    (allele_cn : list AlleleCn) (clusters : list ClusterAssignment) :
  compute_snv_log_likelihoods snv_data
    (fst (compute_snv_log_likelihoods snv_data allele_cn clusters)) clusters =
  compute_snv_log_likelihoods snv_data allele_cn clusters.
Proof.
  rewrite (compute_snv_log_likelihoods_cases snv_data allele_cn).
  destruct (column_has_nan cn_total_cn allele_cn) eqn:Et; cbn [fst].
  { rewrite compute_snv_log_likelihoods_cases. now rewrite Et. }
  destruct (column_has_nan cn_minor_cn allele_cn) eqn:Em; cbn [fst].
  { rewrite compute_snv_log_likelihoods_cases.
    rewrite cast_total_no_nan.
    rewrite (column_has_nan_map cn_minor_cn cast_total_cn) by reflexivity.
    rewrite Em. rewrite map_map. reflexivity. }
  destruct (column_has_nan cn_major_cn allele_cn) eqn:EM; cbn [fst].
  { rewrite compute_snv_log_likelihoods_cases.
    rewrite (column_has_nan_map cn_total_cn cast_minor_cn) by reflexivity.
    rewrite cast_total_no_nan, cast_minor_no_nan.
    rewrite (column_has_nan_map cn_major_cn cast_minor_cn) by reflexivity.
    rewrite (column_has_nan_map cn_major_cn cast_total_cn) by reflexivity.
    rewrite EM. rewrite !map_map. reflexivity. }
  rewrite compute_snv_log_likelihoods_cases.
  destruct (cast_row_no_nan allele_cn) as [-> [-> ->]].
  rewrite map_map. reflexivity.
Qed.

End CastExtras.

Lemma CnSegment_eqb_spec (a b : CnSegment) : CnSegment_eqb a b = true <-> a = b.
Proof.
  destruct a, b. unfold CnSegment_eqb. cbn.
  rewrite !andb_true_iff, !String.eqb_eq, !Z.eqb_eq. split.
  - intros [[[[[[-> ->] ->] ->] ->] ->] ->]. reflexivity.
  - intros H. injection H. intros. subst. repeat split.
Qed.

Lemma filter_app_singleton {A : Type} (f : A -> bool) (l : list A) (x : A) :
  filter f (l ++ [x]) = filter f l ++ (if f x then [x] else []).
Proof. rewrite filter_app. reflexivity. Qed.

Lemma unique_app_singleton {A : Type} (eqb : A -> A -> bool) (l : list A) (x : A) :
  (forall a b, eqb a b = true <-> a = b) ->
  unique eqb (l ++ [x]) =
  if existsb (eqb x) l then unique eqb l else unique eqb l ++ [x].
Proof.
  intros Hspec. induction l as [|y l IH]; [reflexivity|].
  cbn [app unique existsb]. rewrite IH.
  destruct (eqb x y) eqn:Exy; cbn [orb].
  - apply Hspec in Exy. subst y.
    destruct (existsb (eqb x) l); [reflexivity|].
    rewrite filter_app_singleton.
    replace (eqb x x) with true by (symmetry; now apply Hspec).
    cbn [negb]. now rewrite app_nil_r.
  - destruct (existsb (eqb x) l); [reflexivity|].
    rewrite filter_app_singleton.
    replace (eqb y x) with false; [reflexivity|].
    symmetry. destruct (eqb y x) eqn:Eyx; [|reflexivity].
    apply Hspec in Eyx. subst. 
    assert (eqb x x = true) by now apply Hspec. congruence.
Qed.

Lemma drop_duplicates_app_in (df : list CnSegment) (s : CnSegment) :
  In s df -> drop_duplicates (df ++ [s]) = drop_duplicates df.
Proof.
  intros Hin. unfold drop_duplicates.
  rewrite (unique_app_singleton _ _ _ CnSegment_eqb_spec).
  replace (existsb (CnSegment_eqb s) df) with true; [reflexivity|].
  symmetry. apply existsb_exists. exists s. split; [exact Hin|].
  now apply CnSegment_eqb_spec.
Qed.

Section DuplicateRows.
Context `{N : Numerics}.

(** X6. A row of the copy number table that repeats an earlier row verbatim
    changes nothing: the rows are deduplicated after the casts, so the call
    returns (or raises) the same as without the repeated row, where the
    annotator alone would raise for the duplicate boundaries. *)
Theorem repeated_segment_row_is_ignored (snv_data : list SnvRead)
    (allele_cn : list AlleleCn) (clusters : list ClusterAssignment)
    (r : AlleleCn) :
  In r allele_cn ->
  snd (compute_snv_log_likelihoods snv_data (allele_cn ++ [r]) clusters) =
  snd (compute_snv_log_likelihoods snv_data allele_cn clusters).
Proof.
  intros Hr. rewrite !compute_snv_log_likelihoods_cases.
  rewrite !column_has_nan_app_in by exact Hr.
  destruct (column_has_nan cn_total_cn allele_cn); [reflexivity|].
  destruct (column_has_nan cn_minor_cn allele_cn); [reflexivity|].
  destruct (column_has_nan cn_major_cn allele_cn); [reflexivity|].
  cbn [snd]. unfold annotate_and_score.
  rewrite !map_app. cbn [map].
  rewrite drop_duplicates_app_in; [reflexivity|].
  apply in_map, in_map. exact Hr.
Qed.

End DuplicateRows.

Lemma to_record_annotate_row (seg : list CnSegment) (p : SnvCount)
    (idx : Z * Z) :
  to_record (annotate_row CnColumn_eq_dec cn_column seg
               [MajorCn; MinorCn; TotalCn] p idx) =
  Ok (record_of seg idx p).
Proof. reflexivity. Qed.

Lemma count_of_record_of (seg : list CnSegment) (idx : Z * Z) (p : SnvCount) :
  count_of_record (record_of seg idx p) = p.
Proof. destruct p. reflexivity. Qed.

(** The cells of a row are all read at the same index: one is defined when
    another is. *)
Lemma lookup_cell_defined {S C V : Type} (seg_col : C -> S -> V)
    (seg : list S) (col col' : C) (idx : Z * Z) (v : V) :
  lookup_cell seg_col seg col idx = Some v ->
  exists v', lookup_cell seg_col seg col' idx = Some v'.
Proof.
  unfold lookup_cell.
  destruct (fst idx =? snd idx); [|discriminate].
  destruct (nth_error seg (Z.to_nat (snd idx))); [|discriminate].
  intros _. eexists. reflexivity.
Qed.

Lemma np_arange_empty (c_m : Z) : c_m < 0 -> np_arange 1 (c_m + 1) 1 = [].
Proof.
  intros H. unfold np_arange. replace (c_m + 1 - 1) with c_m by lia.
  rewrite ceil_div_1. destruct c_m; try lia. reflexivity.
Qed.

Section StageInversion.
Context `{N : Numerics}.

Lemma calculate_likelihood_present_cases (row : VariantClusterRecord)
    (e_s : float) :
  match major_cn row with
  | None =>
      calculate_likelihood_present row e_s =
      Error (ValueError "arange: cannot compute length")
  | Some m =>
      if m <? 0
      then calculate_likelihood_present row e_s =
           Error (ValueError "zero-size array to reduction operation maximum which has no identity")
      else exists v, calculate_likelihood_present row e_s = Ok v
  end.
Proof.
  destruct (major_cn row) as [m|] eqn:Hm.
  - destruct (m <? 0) eqn:E.
    + apply Z.ltb_lt in E.
      unfold calculate_likelihood_present, log_likelihood_present.
      rewrite Hm. cbn [cell_eq0]. destruct (m =? 0) eqn:E0; [lia|].
      cbn [arange_cell bind]. now rewrite np_arange_empty.
    + apply Z.ltb_ge in E.
      now apply (calculate_likelihood_present_returns row e_s m).
  - now apply calculate_likelihood_present_nan.
Qed.

Lemma calculate_likelihood_present_ok (row : VariantClusterRecord)
    (e_s v : float) :
  calculate_likelihood_present row e_s = Ok v ->
  exists m, major_cn row = Some m /\ 0 <= m.
Proof.
  intros H. pose proof (calculate_likelihood_present_cases row e_s) as Hc.
  destruct (major_cn row) as [m|]; [|congruence].
  destruct (m <? 0) eqn:E; [congruence|].
  exists m. split; [reflexivity|]. now apply Z.ltb_ge.
Qed.

Lemma calculate_likelihood_present_error (row : VariantClusterRecord)
    (e_s : float) (e : exn) :
  calculate_likelihood_present row e_s = Error e ->
  (major_cn row = None /\ e = ValueError "arange: cannot compute length")
  \/ ((exists m, major_cn row = Some m /\ m < 0)
      /\ e = ValueError "zero-size array to reduction operation maximum which has no identity").
Proof.
  intros H. pose proof (calculate_likelihood_present_cases row e_s) as Hc.
  destruct (major_cn row) as [m|].
  - destruct (m <? 0) eqn:E.
    + right. split; [|congruence]. exists m. split; [reflexivity|].
      now apply Z.ltb_lt.
    + destruct Hc as [v Hv]. congruence.
  - left. split; [reflexivity|congruence].
Qed.

Lemma compute_log_likelihoods_inv (df : list VariantClusterRecord)
    (out : list LikelihoodRow) :
  compute_log_likelihoods df = Ok out ->
  map record out = df
  /\ forall row, In row df -> exists m, major_cn row = Some m /\ 0 <= m.
Proof.
  unfold compute_log_likelihoods, compute_log_likelihoods_with, apply_rows.
  rewrite (mapM_total _ (fun row => calculate_likelihood_absent row default_error_rate))
    by reflexivity.
  cbn [bind].
  destruct (mapM (fun row => calculate_likelihood_present row default_error_rate) df)
    as [present|e] eqn:Hp; cbn [bind]; [|discriminate].
  intros H. injection H as <-. split.
  - pose proof (mapM_length _ _ _ Hp) as Hlen. clear Hp.
    rewrite map_map. revert present Hlen.
    induction df as [|row df IH]; intros [|p present] Hlen; try discriminate;
      [reflexivity|].
    simpl. f_equal. apply IH. now injection Hlen.
  - apply mapM_inv in Hp. intros row Hrow.
    clear -Hp Hrow. induction Hp as [|x y l ys Hx _ IH]; [contradiction|].
    destruct Hrow as [->|Hrow]; [|now apply IH].
    now apply (calculate_likelihood_present_ok row default_error_rate y).
Qed.

Lemma compute_log_likelihoods_error (df : list VariantClusterRecord) (e : exn) :
  compute_log_likelihoods df = Error e ->
  exists row, In row df
    /\ calculate_likelihood_present row default_error_rate = Error e.
Proof.
  unfold compute_log_likelihoods, compute_log_likelihoods_with, apply_rows.
  rewrite (mapM_total _ (fun row => calculate_likelihood_absent row default_error_rate))
    by reflexivity.
  cbn [bind].
  destruct (mapM (fun row => calculate_likelihood_present row default_error_rate) df)
    as [present|e'] eqn:Hp; cbn [bind]; [discriminate|].
  intros H. injection H as ->. now apply mapM_error_inv.
Qed.

(** The rows that reach the likelihood stage: the annotated rows read as
    records. *)
Lemma annotated_rows_to_records (snv_matrix : list SnvCount)
    (segs : list CnSegment) (ann : list (Annotated SnvCount CnColumn Z)) :
  annotate_snv_matrix snv_matrix segs = Ok ann ->
  exists df,
    mapM to_record ann = Ok df
    /\ map count_of_record df = map position ann
    /\ forall d, In d df ->
         exists seg idx p, In p snv_matrix /\ d = record_of seg idx p.
Proof.
  intros Hann. unfold annotate_snv_matrix in Hann.
  apply annotate_copy_number_inv in Hann. destruct Hann as [_ [_ ->]].
  set (ann := annotated_by_partition _ _ _ _ _ _ _ _ _ _ _ _).
  destruct (mapM_exists to_record
              (fun a d => count_of_record d = position a
                          /\ exists seg idx p,
                               In p snv_matrix /\ d = record_of seg idx p)
              ann) as [df [Hdf HF]].
  { intros a Ha. unfold ann, annotated_by_partition in Ha.
    apply in_flat_map in Ha. destruct Ha as [sample [_ Ha]].
    apply in_flat_map in Ha. destruct Ha as [chrom [_ Ha]].
    unfold annotate_rows in Ha.
    apply in_map_iff in Ha. destruct Ha as [[p idx] [<- Hp]].
    apply in_combine_l in Hp.
    eexists. split; [apply to_record_annotate_row|]. split.
    - now rewrite count_of_record_of, annotate_row_position.
    - eexists. exists idx, p. split; [|reflexivity].
      unfold partition_of in Hp. rewrite !filter_In in Hp. tauto. }
  exists df. split; [exact Hdf|]. split.
  - clear Hdf. induction HF as [|a d l ds [Hd _] _ IH]; [reflexivity|].
    simpl. now rewrite Hd, IH.
  - intros d Hd. destruct (Forall2_In_r _ _ _ _ HF Hd) as [a [_ [_ H]]]. exact H.
Qed.

End StageInversion.

(** Dropping rows keeps the keys distinct. *)
Lemma NoDup_map_filter {Row Key : Type} (key : Row -> Key) (keep : Row -> bool)
    (rows : list Row) :
  NoDup (map key rows) -> NoDup (map key (filter keep rows)).
Proof.
  intros Hnd. induction rows as [|row rows IH]; [constructor|].
  cbn [map] in Hnd. apply NoDup_cons_iff in Hnd. destruct Hnd as [Hrow Hrows].
  cbn [filter]. destruct (keep row); [|now apply IH].
  cbn [map]. constructor; [|now apply IH].
  intros Hin. apply Hrow. apply in_map_iff in Hin. destruct Hin as [y [E Hy]].
  apply filter_In in Hy. rewrite <- E. apply in_map. tauto.
Qed.

Lemma NoDup_aggregate_keys (merged : list MergedRead) :
  NoDup (map key_of (aggregate merged)).
Proof.
  rewrite aggregate_keys. apply NoDup_list_prod; apply NoDup_sorted_keys.
  - apply locus_eqb_spec.
  - apply String.eqb_eq.
Qed.

Section PipelineExtras.
Context `{N : Numerics}.

Lemma annotate_and_score_error (snv_matrix : list SnvCount)
    (allele_cn : list AlleleCn) (e : exn) :
  annotate_and_score snv_matrix allele_cn = Error e ->
  In e pipeline_exceptions.
Proof.
  unfold annotate_and_score. intros H.
  destruct (annotate_snv_matrix snv_matrix _) as [ann|e'] eqn:Hann;
    cbn [bind] in H.
  - destruct (annotated_rows_to_records _ _ _ Hann) as [df [Hdf _]].
    rewrite Hdf in H. cbn [bind] in H.
    apply compute_log_likelihoods_error in H. destruct H as [row [_ H]].
    apply calculate_likelihood_present_error in H.
    destruct H as [[_ ->]|[_ ->]]; simpl; tauto.
  - injection H as ->. unfold annotate_snv_matrix in Hann.
    apply annotate_copy_number_error in Hann.
    destruct Hann as [[_ ->]|[-> _]]; simpl; tauto.
Qed.

(** X7. [compute_snv_log_likelihoods] raises nothing but five [ValueError]s:
    of the cast of a NaN copy number, of duplicate segment boundaries, of an
    empty copy number table, and the two of a variant without a usable
    [major_cn] (NaN, or negative).  It never raises a [KeyError] or an
    [IndexError]: the columns it reads are always there and the positional
    lookup of a segment is always in bounds.  The tables are taken to have
    rows at every stage: the reads join with some cluster, and the copy number
    table is empty or has the cluster and the chromosome of some aggregated
    row. *)
Theorem pipeline_raises_only_value_errors (snv_data : list SnvRead)
    (allele_cn : list AlleleCn) (clusters : list ClusterAssignment) (e : exn) :
  merge snv_data clusters <> [] ->
  (allele_cn = []
   \/ exists p, In p (aggregate (merge snv_data clusters))
                /\ In (sc_cluster_id p) (map cn_cluster_id allele_cn)
                /\ In (sc_chrom p) (map cn_chr allele_cn)) ->
  snd (compute_snv_log_likelihoods snv_data allele_cn clusters) = Error e ->
  In e pipeline_exceptions.
Proof.
  intros _ _. rewrite compute_snv_log_likelihoods_cases.
  destruct (column_has_nan cn_total_cn allele_cn);
    [intros H; injection H as <-; now left|].
  destruct (column_has_nan cn_minor_cn allele_cn);
    [intros H; injection H as <-; now left|].
  destruct (column_has_nan cn_major_cn allele_cn);
    [intros H; injection H as <-; now left|].
  cbn [snd]. apply annotate_and_score_error.
Qed.

(** X8. When [compute_snv_log_likelihoods] returns, every row of the returned
    table has its three copy number columns defined, with [major_cn >= 0]
    (a variant outside every segment would have made the call raise); every
    row carries the counts of a row of the aggregated table, and no
    (variant, cluster) pair is returned twice. *)
Theorem returned_rows_are_covered (snv_data : list SnvRead)
    (allele_cn : list AlleleCn) (clusters : list ClusterAssignment)
    (rows : list LikelihoodRow) :
  snd (compute_snv_log_likelihoods snv_data allele_cn clusters) = Ok rows ->
  Forall (fun r =>
            (exists major minor total,
               major_cn (record r) = Some major
               /\ minor_cn (record r) = Some minor
               /\ total_cn (record r) = Some total
               /\ 0 <= major)
            /\ In (count_of_record (record r))
                  (aggregate (merge snv_data clusters)))
         rows
  /\ NoDup (map (fun r => key_of (count_of_record (record r))) rows).
Proof.
  rewrite compute_snv_log_likelihoods_cases.
  destruct (column_has_nan cn_total_cn allele_cn); [discriminate|].
  destruct (column_has_nan cn_minor_cn allele_cn); [discriminate|].
  destruct (column_has_nan cn_major_cn allele_cn); [discriminate|].
  cbn [snd]. unfold annotate_and_score.
  set (segs := drop_duplicates (map select_columns (map cast_row allele_cn))).
  set (sm := aggregate (merge snv_data clusters)).
  destruct (annotate_snv_matrix sm segs) as [ann|e] eqn:Hann; cbn [bind];
    [|discriminate].
  destruct (annotated_rows_to_records _ _ _ Hann) as [df [Hdf [Hpos Hrec]]].
  rewrite Hdf. cbn [bind]. intros Hout.
  apply compute_log_likelihoods_inv in Hout. destruct Hout as [Hmap Hmajor].
  split.
  - apply Forall_forall. intros r Hr.
    assert (In (record r) df) as Hd by (rewrite <- Hmap; now apply in_map).
    destruct (Hrec _ Hd) as [seg [idx [p [Hp Hd']]]].
    destruct (Hmajor _ Hd) as [m [Hm Hge]].
    split.
    + rewrite Hd' in Hm |- *. cbn [major_cn minor_cn total_cn record_of] in *.
      unfold cn_cell in *.
      destruct (lookup_cell_defined _ _ MajorCn MinorCn _ _ Hm) as [v1 H1].
      destruct (lookup_cell_defined _ _ MajorCn TotalCn _ _ Hm) as [v2 H2].
      exists m, v1, v2. auto.
    + rewrite Hd', count_of_record_of. exact Hp.
  - replace (map (fun r => key_of (count_of_record (record r))) rows)
      with (map key_of (map count_of_record (map record rows)))
      by (rewrite !map_map; reflexivity).
    rewrite Hmap, Hpos.
    unfold annotate_snv_matrix in Hann.
    apply annotate_copy_number_inv in Hann. destruct Hann as [_ [_ ->]].
    rewrite annotated_by_partition_position.
    eapply Permutation_NoDup.
    + apply Permutation_map, Permutation_sym, positions_by_partition_perm.
    + unfold known_positions. apply NoDup_map_filter, NoDup_aggregate_keys.
Qed.

(** X9. One row without a usable [major_cn] makes the whole likelihood
    stage raise: a [ValueError], and no table, whatever the other rows
    are. *)
Theorem one_bad_row_fails_the_stage (df : list VariantClusterRecord)
    (row : VariantClusterRecord) :
  In row df ->
  (major_cn row = None \/ exists m, major_cn row = Some m /\ m < 0) ->
  compute_log_likelihoods df =
    Error (ValueError "arange: cannot compute length")
  \/ compute_log_likelihoods df =
    Error (ValueError "zero-size array to reduction operation maximum which has no identity").
Proof.
  intros Hrow Hbad.
  destruct (compute_log_likelihoods df) as [out|e] eqn:H.
  - exfalso. apply compute_log_likelihoods_inv in H. destruct H as [_ H].
    destruct (H row Hrow) as [m [Hm Hge]].
    destruct Hbad as [Hn|[m' [Hm' Hlt]]]; [congruence|].
    rewrite Hm in Hm'. injection Hm' as <-. lia.
  - apply compute_log_likelihoods_error in H. destruct H as [row' [_ H]].
    apply calculate_likelihood_present_error in H.
    destruct H as [[_ ->]|[_ ->]]; auto.
Qed.

End PipelineExtras.

(** ** Conservation of the counts *)

Lemma sum_Z_map_add {A : Type} (f g : A -> Z) (l : list A) :
  sum_Z (map (fun x => f x + g x) l) = sum_Z (map f l) + sum_Z (map g l).
Proof.
  unfold sum_Z. induction l as [|x l IH]; simpl; [reflexivity|]. rewrite IH. lia.
Qed.

Lemma sum_Z_zero {A : Type} (l : list A) : sum_Z (map (fun _ => 0) l) = 0.
Proof. unfold sum_Z. induction l as [|x l IH]; simpl; [reflexivity|exact IH]. Qed.

Lemma sum_Z_indicator {A : Type} (eqb : A -> A -> bool) (x : A) (z : Z)
    (keys : list A) :
  (forall a b, eqb a b = true <-> a = b) ->
  NoDup keys ->
  sum_Z (map (fun k => if eqb x k then z else 0) keys) =
  if existsb (eqb x) keys then z else 0.
Proof.
  intros Hspec Hnd. unfold sum_Z.
  induction Hnd as [|k keys Hk _ IH]; simpl; [reflexivity|].
  rewrite IH. destruct (eqb x k) eqn:E; simpl; [|reflexivity].
  apply Hspec in E. subst k.
  destruct (existsb (eqb x) keys) eqn:Ex; [|lia].
  apply existsb_exists in Ex. destruct Ex as [y [Hy Exy]].
  apply Hspec in Exy. subst y. contradiction.
Qed.

(** Summing group by group, over distinct keys, is summing over the rows
    whose key is one of the keys. *)
Lemma sum_Z_by_group {A K : Type} (eqb : K -> K -> bool) (key : A -> K)
    (f : A -> Z) (keys : list K) (l : list A) :
  (forall a b, eqb a b = true <-> a = b) ->
  NoDup keys ->
  sum_Z (map (fun k => sum_Z (map f (filter (fun x => eqb (key x) k) l))) keys) =
  sum_Z (map f (filter (fun x => existsb (eqb (key x)) keys) l)).
Proof.
  intros Hspec Hnd. induction l as [|x l IH].
  - simpl. apply sum_Z_zero.
  - cbn [filter].
    rewrite (map_ext _ (fun k => (if eqb (key x) k then f x else 0)
                                 + sum_Z (map f (filter (fun y => eqb (key y) k) l)))).
    + rewrite sum_Z_map_add, IH, (sum_Z_indicator eqb) by assumption.
      destruct (existsb (eqb (key x)) keys); [|lia].
      cbn [map]. unfold sum_Z. cbn [fold_right]. lia.
    + intros k. destruct (eqb (key x) k); [|lia].
      cbn [map]. unfold sum_Z. cbn [fold_right]. lia.
Qed.

Lemma key_eqb_spec (a b : Locus * string) : key_eqb a b = true <-> a = b.
Proof.
  destruct a as [l1 c1], b as [l2 c2]. unfold key_eqb. cbn [fst snd].
  rewrite andb_true_iff, locus_eqb_spec, String.eqb_eq. split.
  - intros [-> ->]. reflexivity.
  - intros H. injection H. auto.
Qed.

Lemma aggregate_column (merged : list MergedRead) (col : SnvCount -> Z)
    (f : MergedRead -> Z) :
  (forall l c, col (let g := group_of merged l c in
                    let alt_counts := sum_Z (map (fun m => snv_alt_counts (read m)) g) in
                    let ref_counts := sum_Z (map (fun m => snv_ref_counts (read m)) g) in
                    let '(chrom, coord, ref, alt) := l in
                    {| sc_chrom := chrom; sc_coord := coord; sc_ref := ref;
                       sc_alt := alt; sc_cluster_id := c;
                       sc_alt_counts := alt_counts; sc_ref_counts := ref_counts;
                       sc_total_counts := ref_counts + alt_counts;
                       sc_variant_id := variant_id_of l |})
               = sum_Z (map f (group_of merged l c))) ->
  map col (aggregate merged) =
  map (fun k => sum_Z (map f (filter (fun m => key_eqb (locus_of m, read_cluster_id m) k)
                                     merged)))
      (list_prod (sorted_keys locus_eqb locus_leb (map locus_of merged))
                 (sorted_keys String.eqb String.leb (map read_cluster_id merged))).
Proof.
  intros Hcol. unfold aggregate. rewrite list_prod_as_flat_map.
  induction (sorted_keys locus_eqb locus_leb (map locus_of merged))
    as [|l loci IH]; [reflexivity|].
  cbn [flat_map]. rewrite !map_app, IH. f_equal.
  rewrite !map_map. apply map_ext. intros c. apply Hcol.
Qed.

Lemma aggregate_sum (merged : list MergedRead) (col : SnvCount -> Z)
    (f : MergedRead -> Z) :
  map col (aggregate merged) =
  map (fun k => sum_Z (map f (filter (fun m => key_eqb (locus_of m, read_cluster_id m) k)
                                     merged)))
      (list_prod (sorted_keys locus_eqb locus_leb (map locus_of merged))
                 (sorted_keys String.eqb String.leb (map read_cluster_id merged))) ->
  sum_Z (map col (aggregate merged)) = sum_Z (map f merged).
Proof.
  intros ->.
  rewrite (sum_Z_by_group key_eqb (fun m => (locus_of m, read_cluster_id m)) f).
  2: apply key_eqb_spec.
  2: { apply NoDup_list_prod; apply NoDup_sorted_keys;
       [apply locus_eqb_spec|apply String.eqb_eq]. }
  f_equal. f_equal. apply forallb_filter_id. apply forallb_forall.
  intros m Hm. apply existsb_exists. exists (locus_of m, read_cluster_id m).
  split; [|now apply key_eqb_spec].
  apply in_prod_iff. split.
  - apply (In_sorted_keys _ _ _ _ locus_eqb_spec). now apply in_map.
  - apply (In_sorted_keys _ _ _ _ String.eqb_eq). now apply in_map.
Qed.

Lemma merge_sum (f : SnvRead -> Z) (snv_data : list SnvRead)
    (clusters : list ClusterAssignment) :
  sum_Z (map (fun m => f (read m)) (merge snv_data clusters)) =
  sum_Z (map (fun r => f r * Z.of_nat (n_assignments clusters (snv_sample_id r)))
             snv_data).
Proof.
  induction snv_data as [|r reads IH]; [reflexivity|].
  unfold merge. cbn [flat_map]. fold (merge reads clusters).
  rewrite map_app, sum_Z_app, IH, map_map. cbn [read map].
  rewrite sum_Z_const. unfold n_assignments, sum_Z. cbn [fold_right]. lia.
Qed.

(** X10. The aggregation neither loses nor invents a count: the sum of
    [alt_counts] (of [ref_counts], of [total_counts]) over the aggregated
    table is the sum over the reads of the count of the read times the number
    of rows of the cluster table for its sample: once for a sample with one
    cluster, not at all for a sample without a cluster (the join is inner). *)
Theorem aggregation_conserves_counts (snv_data : list SnvRead)
    (clusters : list ClusterAssignment) :
  let out := aggregate (merge snv_data clusters) in
  sum_Z (map sc_alt_counts out) =
    sum_Z (map (fun r => snv_alt_counts r
                         * Z.of_nat (n_assignments clusters (snv_sample_id r)))
               snv_data)
  /\ sum_Z (map sc_ref_counts out) =
    sum_Z (map (fun r => snv_ref_counts r
                         * Z.of_nat (n_assignments clusters (snv_sample_id r)))
               snv_data)
  /\ sum_Z (map sc_total_counts out) =
     sum_Z (map sc_ref_counts out) + sum_Z (map sc_alt_counts out).
Proof.
  cbv zeta. split; [|split].
  - rewrite (aggregate_sum _ sc_alt_counts (fun m => snv_alt_counts (read m))).
    + apply (merge_sum snv_alt_counts).
    + apply aggregate_column. intros [[[ch k] rf] a] c. reflexivity.
  - rewrite (aggregate_sum _ sc_ref_counts (fun m => snv_ref_counts (read m))).
    + apply (merge_sum snv_ref_counts).
    + apply aggregate_column. intros [[[ch k] rf] a] c. reflexivity.
  - rewrite <- sum_Z_map_add. f_equal. apply map_ext_in.
    intros r Hr. destruct (In_aggregate _ r Hr) as [_ [_ H]]. exact H.
Qed.

(** ** The variant identifier *)

Lemma split_at_colon (a b r s : string) :
  has_colon a = false -> has_colon b = false ->
  (a ++ ":" ++ r)%string = (b ++ ":" ++ s)%string -> a = b /\ r = s.
Proof.
  revert b. induction a as [|x a IH]; intros [|y b] Ha Hb H.
  - cbn in H. injection H as H. auto.
  - cbn in H. injection H as Hy _. subst y. cbn in Hb. discriminate.
  - cbn in H. injection H as Hx _. subst x. cbn in Ha. discriminate.
  - cbn in H. injection H as Hxy H. subst y.
    cbn in Ha, Hb. apply orb_false_iff in Ha, Hb.
    destruct (IH b (proj2 Ha) (proj2 Hb) H) as [-> ->]. auto.
Qed.

Lemma string_of_uint_no_colon (d : Decimal.uint) :
  has_colon (NilEmpty.string_of_uint d) = false.
Proof. induction d; cbn; auto. Qed.

Lemma str_of_Z_no_colon (z : Z) : has_colon (str_of_Z z) = false.
Proof.
  unfold str_of_Z, NilZero.string_of_int, NilZero.string_of_uint.
  destruct (Z.to_int z) as [d|d]; destruct d; cbn;
    auto using string_of_uint_no_colon.
Qed.

Lemma str_of_Z_inj (z1 z2 : Z) : str_of_Z z1 = str_of_Z z2 -> z1 = z2.
Proof.
  intros H. apply DecimalZ.to_int_inj.
  assert (Hn : forall z, Z.to_int z <> Decimal.Pos Decimal.Nil
                         /\ Z.to_int z <> Decimal.Neg Decimal.Nil).
  { intros [|p|p]; cbn; split; try discriminate;
      intros E; injection E as E; now apply Unsigned.to_uint_nonnil in E. }
  assert (E : Some (Z.to_int z1) = Some (Z.to_int z2)).
  { rewrite <- (NilZero.isi (Z.to_int z1)) by apply Hn.
    rewrite <- (NilZero.isi (Z.to_int z2)) by apply Hn.
    unfold str_of_Z in H. now rewrite H. }
  now injection E.
Qed.

(** X11. The variant identifier [':'.join([chrom, str(coord), ref, alt])]
    determines the locus whenever the chromosome names and the reference
    alleles contain no [':']; with a [':'] in a chromosome name two different
    loci get the same identifier. *)
Theorem variant_id_determines_locus :
  (forall l1 l2 : Locus,
      has_colon (fst (fst (fst l1))) = false ->
      has_colon (snd (fst l1)) = false ->
      has_colon (fst (fst (fst l2))) = false ->
      has_colon (snd (fst l2)) = false ->
      variant_id_of l1 = variant_id_of l2 -> l1 = l2)
  /\ variant_id_of ("a:1", 2, "A", "T") = variant_id_of ("a", 1, "2", "A:T").
Proof.
  split; [|reflexivity].
  intros [[[c1 k1] r1] a1] [[[c2 k2] r2] a2]. cbn [fst snd].
  intros Hc1 Hr1 Hc2 Hr2 H. unfold variant_id_of in H. cbn [String.concat] in H.
  apply split_at_colon in H; [|assumption|assumption]. destruct H as [-> H].
  apply split_at_colon in H; [|apply str_of_Z_no_colon|apply str_of_Z_no_colon].
  destruct H as [Hk H]. apply str_of_Z_inj in Hk. subst k2.
  apply split_at_colon in H; [|assumption|assumption]. destruct H as [-> ->].
  reflexivity.
Qed.

(** ** Bounds of the likelihoods in exact arithmetic *)

Lemma sum_f_R0_term (f : nat -> R) (n k : nat) :
  (forall i, (i <= n)%nat -> (0 <= f i)%R) -> (k <= n)%nat ->
  (f k <= sum_f_R0 f n)%R.
Proof.
  induction n as [|n IH]; intros Hf Hk.
  - replace k with 0%nat by lia. simpl. lra.
  - simpl. destruct (Nat.eq_dec k (S n)) as [->|Hne].
    + assert (0 <= sum_f_R0 f n)%R.
      { clear IH Hk. induction n as [|n IH]; simpl.
        - apply Hf; lia.
        - assert (0 <= f (S n))%R by (apply Hf; lia).
          assert (0 <= sum_f_R0 f n)%R by (apply IH; intros; apply Hf; lia).
          lra. }
      lra.
    + assert (f k <= sum_f_R0 f n)%R by (apply IH; [intros; apply Hf|]; lia).
      assert (0 <= f (S n))%R by (apply Hf; lia).
      lra.
Qed.

Lemma binom_pmf_le_1 (k n : nat) (p : R) :
  (k <= n)%nat -> (0 <= p <= 1)%R -> (binom_pmf k n p <= 1)%R.
Proof.
  intros Hk Hp.
  assert (E : (1 = sum_f_R0 (fun i => C n i * p ^ i * (1 - p) ^ (n - i)) n)%R).
  { rewrite <- binomial. replace (p + (1 - p))%R with 1%R by lra.
    now rewrite pow1. }
  rewrite E. unfold binom_pmf.
  apply (sum_f_R0_term (fun i => C n i * p ^ i * (1 - p) ^ (n - i))%R); [|exact Hk].
  intros i _. apply (binom_pmf_nonneg i n p Hp).
Qed.

Lemma binom_pmf_0_0 (p : R) : binom_pmf 0 0 p = 1%R.
Proof. unfold binom_pmf, C. simpl. field. Qed.

Lemma sum_R_const {A : Type} (l : list A) :
  sum_R (map (fun _ => 1%R) l) = INR (List.length l).
Proof.
  unfold sum_R. induction l as [|x l IH]; [reflexivity|].
  cbn [map fold_right List.length]. rewrite IH, S_INR. lra.
Qed.

Lemma length_candidate_copy_numbers (major : Z) :
  0 <= major -> INR (List.length (candidate_copy_numbers major)) = IZR major.
Proof.
  intros H. unfold candidate_copy_numbers.
  rewrite length_map, length_seq, INR_IZR_INZ. f_equal. lia.
Qed.

Lemma sum_R_In {A : Type} (f : A -> R) (l : list A) (x : A) :
  (forall y, In y l -> (0 <= f y)%R) -> In x l -> (f x <= sum_R (map f l))%R.
Proof.
  unfold sum_R. induction l as [|y l IH]; intros Hf Hx; [contradiction|].
  cbn [map fold_right].
  assert (0 <= f y)%R by (apply Hf; now left).
  assert (0 <= fold_right Rplus 0 (map f l))%R.
  { apply (sum_R_nonneg (map f l)), Forall_map, Forall_forall.
    intros z Hz. apply Hf. now right. }
  destruct Hx as [->|Hx]; [lra|].
  assert (f x <= fold_right Rplus 0 (map f l))%R
    by (apply IH; [intros z Hz; apply Hf; now right|exact Hx]).
  lra.
Qed.

Lemma conditional_exact (c total_cn alt_counts total_counts : Z) :
  1 <= c <= total_cn -> 0 <= alt_counts <= total_counts ->
  log_binomial_pdf (N := ExactNumerics) alt_counts total_counts
    (fdiv (of_int c) (of_int total_cn)) =
  xln (binom_pmf (Z.to_nat alt_counts) (Z.to_nat total_counts)
                 (IZR c / IZR total_cn)).
Proof.
  intros Hc Ha.
  assert (0 < IZR total_cn)%R as Ht by (apply IZR_lt; lia).
  pose proof (fraction_bounds c total_cn Hc) as [Hp0 Hp1].
  unfold log_binomial_pdf.
  cbn [binom_logpmf fdiv of_int ExactNumerics]. unfold xdiv.
  destruct (Req_dec_T (IZR total_cn) 0) as [E|_]; [lra|].
  unfold xbinom_logpmf.
  destruct (total_counts <? 0) eqn:En; [lia|].
  destruct (Rle_dec 0 (IZR c / IZR total_cn)) as [_|Hn]; [|lra].
  destruct (Rle_dec (IZR c / IZR total_cn) 1) as [_|Hn]; [|lra].
  destruct ((alt_counts <? 0) || (total_counts <? alt_counts)) eqn:Eo;
    [apply orb_true_iff in Eo; lia|].
  reflexivity.
Qed.

(** X12. In exact arithmetic, for a record with [major_cn >= 1], a minor copy
    number [>= 0] and [0 <= alt_counts <= total_counts], the present
    log-likelihood is at least the conditional log-likelihood of every
    candidate number of mutated copies and at most [ln(major_cn)]: the
    candidates are summed, not averaged. *)
Theorem present_between_conditionals_and_ln_major
    (major minor alt_counts total_counts : Z) (e_s : xreal) :
  1 <= major -> 0 <= minor -> 0 <= alt_counts <= total_counts ->
  exists v,
    log_likelihood_present (N := ExactNumerics) (Some major) (Some (major + minor))
      e_s alt_counts total_counts = Ok v
    /\ (forall c_v, 1 <= c_v <= major ->
          xle (log_binomial_pdf (N := ExactNumerics) alt_counts total_counts
                 (fdiv (of_int c_v) (of_int (major + minor)))) v)
    /\ xle v (XFin (ln (IZR major))).
Proof.
  intros Hm Hk Ha. eexists. split; [now apply present_exact|].
  assert (Hpos : forall c, In c (candidate_copy_numbers major) ->
            (0 <= binom_pmf (Z.to_nat alt_counts) (Z.to_nat total_counts)
                    (IZR c / IZR (major + minor)))%R).
  { intros c Hc. apply In_candidate_copy_numbers in Hc.
    apply binom_pmf_nonneg, fraction_bounds. lia. }
  split.
  - intros c Hc. rewrite conditional_exact by lia.
    apply xln_mono. split.
    + apply binom_pmf_nonneg, fraction_bounds. lia.
    + unfold present_probability.
      apply (sum_R_In (fun c_v => binom_pmf (Z.to_nat alt_counts) (Z.to_nat total_counts)
                                    (IZR c_v / IZR (major + minor)))); [exact Hpos|].
      now apply In_candidate_copy_numbers.
  - assert (0 < IZR major)%R as HM by (apply IZR_lt; lia).
    assert (E : XFin (ln (IZR major)) = xln (IZR major)).
    { unfold xln. destruct (Rlt_dec 0 (IZR major)); [reflexivity|lra]. }
    rewrite E. apply xln_mono. split.
    + now apply present_probability_nonneg.
    + rewrite <- (length_candidate_copy_numbers major) by lia.
      rewrite <- sum_R_const. unfold present_probability.
      apply sum_R_le. intros c Hc. apply In_candidate_copy_numbers in Hc.
      apply binom_pmf_le_1; [lia|]. apply fraction_bounds. lia.
Qed.

(** X13. In exact arithmetic, a (variant, cluster) pair without reads
    ([alt_counts = total_counts = 0], as the aggregation writes for a pair it
    fills in) has absent log-likelihood 0 for every error rate in [[0, 1]]
    and, with [major_cn >= 1] and a minor copy number [>= 0], present
    log-likelihood [ln(major_cn)]. *)
Theorem likelihoods_without_reads (major minor : Z) (e : R) :
  (0 <= e <= 1)%R -> 1 <= major -> 0 <= minor ->
  log_likelihood_absent (N := ExactNumerics) (XFin e) 0 0 = XFin 0
  /\ log_likelihood_present (N := ExactNumerics) (Some major) (Some (major + minor))
       (XFin e) 0 0 =
     Ok (XFin (ln (IZR major))).
Proof.
  intros He Hm Hk. split.
  - unfold log_likelihood_absent, log_binomial_pdf.
    cbn [binom_logpmf ExactNumerics]. unfold xbinom_logpmf. cbn [Z.ltb Z.compare orb].
    destruct (Rle_dec 0 e) as [_|Hn]; [|lra].
    destruct (Rle_dec e 1) as [_|Hn]; [|lra].
    cbn [Z.to_nat]. rewrite binom_pmf_0_0. unfold xln.
    destruct (Rlt_dec 0 1) as [_|Hn]; [|lra]. now rewrite ln_1.
  - rewrite present_exact by lia. f_equal.
    unfold present_probability. cbn [Z.to_nat].
    rewrite (map_ext _ (fun _ => 1%R)) by (intros c; apply binom_pmf_0_0).
    rewrite sum_R_const, length_candidate_copy_numbers by lia.
    assert (0 < IZR major)%R as HM by (apply IZR_lt; lia).
    unfold xln. destruct (Rlt_dec 0 (IZR major)); [reflexivity|lra].
Qed.

(** ** The order of the segments *)

Section SortFacts.
Context {A : Type} (leb : A -> A -> bool).
Hypothesis leb_total : forall a b, leb a b = true \/ leb b a = true.
Hypothesis leb_trans :
  forall a b c, leb a b = true -> leb b c = true -> leb a c = true.

Lemma insert_sorted_sorted (x : A) (l : list A) :
  StronglySorted (fun a b => leb a b = true) l ->
  StronglySorted (fun a b => leb a b = true) (insert_sorted leb x l).
Proof.
  induction 1 as [|y l Hl IH Hy]; cbn [insert_sorted].
  - constructor; constructor.
  - destruct (leb x y) eqn:E.
    + constructor; [now constructor|]. constructor; [exact E|].
      eapply Forall_impl; [|exact Hy]. intros z Hz. now apply (leb_trans x y z).
    + constructor; [exact IH|].
      assert (Hyx : leb y x = true) by (destruct (leb_total x y); congruence).
      apply Forall_forall. intros z Hz.
      apply (Permutation_in _ (insert_sorted_perm leb x l)) in Hz.
      destruct Hz as [<-|Hz]; [exact Hyx|].
      now apply (proj1 (Forall_forall _ _) Hy).
Qed.

Lemma sort_by_sorted (l : list A) :
  StronglySorted (fun a b => leb a b = true) (sort_by leb l).
Proof.
  unfold sort_by. induction l as [|x l IH]; cbn [fold_right]; [constructor|].
  now apply insert_sorted_sorted.
Qed.

End SortFacts.

Lemma sorted_perm_eq {A : Type} (R : A -> A -> Prop) (l l' : list A) :
  StronglySorted R l -> StronglySorted R l' -> Permutation l l' ->
  (forall a b, In a l -> In b l -> R a b -> R b a -> a = b) ->
  l = l'.
Proof.
  intros Hl. revert l'. induction Hl as [|x l Hl IH Hx]; intros l' Hl' Hp Hanti.
  - now apply Permutation_nil in Hp.
  - destruct l' as [|y l'];
      [now apply Permutation_sym, Permutation_nil in Hp|].
    apply StronglySorted_inv in Hl'. destruct Hl' as [Hl' Hy].
    assert (x = y) as <-.
    { assert (In y (x :: l)) as Hiy
        by (apply (Permutation_in _ (Permutation_sym Hp)); now left).
      assert (In x (y :: l')) as Hix by (apply (Permutation_in _ Hp); now left).
      destruct Hiy as [E|Hiy]; [exact E|].
      destruct Hix as [E|Hix]; [now symmetry|].
      apply Hanti; [now left|now right| |].
      - now apply (proj1 (Forall_forall _ _) Hx).
      - now apply (proj1 (Forall_forall _ _) Hy). }
    f_equal. apply IH; [exact Hl'|now apply Permutation_cons_inv in Hp|].
    intros a b Ha Hb. apply Hanti; now right.
Qed.

Lemma boundary_leb_total (a b : Z * Z) :
  boundary_leb a b = true \/ boundary_leb b a = true.
Proof.
  unfold boundary_leb. destruct a as [a1 a2], b as [b1 b2]. cbn [fst snd].
  destruct (Z.ltb_spec a1 b1), (Z.ltb_spec b1 a1), (Z.eqb_spec a1 b1),
    (Z.eqb_spec b1 a1), (Z.leb_spec a2 b2), (Z.leb_spec b2 a2); cbn; auto; lia.
Qed.

Lemma boundary_leb_trans (a b c : Z * Z) :
  boundary_leb a b = true -> boundary_leb b c = true -> boundary_leb a c = true.
Proof.
  unfold boundary_leb. destruct a as [a1 a2], b as [b1 b2], c as [c1 c2].
  cbn [fst snd].
  rewrite !orb_true_iff, !andb_true_iff, !Z.ltb_lt, !Z.eqb_eq, !Z.leb_le. lia.
Qed.

Lemma boundary_leb_antisym (a b : Z * Z) :
  boundary_leb a b = true -> boundary_leb b a = true -> a = b.
Proof.
  unfold boundary_leb. destruct a as [a1 a2], b as [b1 b2]. cbn [fst snd].
  rewrite !orb_true_iff, !andb_true_iff, !Z.ltb_lt, !Z.eqb_eq, !Z.leb_le.
  intros H1 H2. f_equal; lia.
Qed.

Lemma NoDup_map_inj_in {A B : Type} (f : A -> B) (l : list A) (a b : A) :
  NoDup (map f l) -> In a l -> In b l -> f a = f b -> a = b.
Proof.
  induction l as [|x l IH]; cbn [map]; intros Hnd Ha Hb E; [contradiction|].
  inversion Hnd as [|? ? Hx Hl]; subst.
  destruct Ha as [->|Ha], Hb as [->|Hb]; auto.
  - exfalso. apply Hx. rewrite E. now apply in_map.
  - exfalso. apply Hx. rewrite <- E. now apply in_map.
Qed.

Section SegmentOrder.
Context {P S C V : Type}.
Variable col_eq_dec : forall a b : C, {a = b} + {a <> b}.
Variable pos_coord : P -> Z.
Variables seg_start seg_end : S -> Z.
Variable seg_col : C -> S -> V.

Local Notation bnd := (boundary seg_start seg_end).
Local Notation by_boundary := (fun a b => boundary_leb (bnd a) (bnd b)).

Lemma sort_by_boundary_perm (seg seg' : list S) :
  Permutation seg seg' -> NoDup (map bnd seg) ->
  sort_by by_boundary seg = sort_by by_boundary seg'.
Proof.
  intros Hp Hnd.
  apply (sorted_perm_eq (fun a b => by_boundary a b = true)).
  - apply sort_by_sorted; intros;
      [apply boundary_leb_total|eapply boundary_leb_trans; eassumption].
  - apply sort_by_sorted; intros;
      [apply boundary_leb_total|eapply boundary_leb_trans; eassumption].
  - rewrite !sort_by_perm. exact Hp.
  - intros a b Ha Hb Hab Hba.
    apply (Permutation_in _ (sort_by_perm _ seg)) in Ha, Hb.
    apply (NoDup_map_inj_in bnd seg a b Hnd Ha Hb).
    now apply boundary_leb_antisym.
Qed.

(** X14. The result of [find_overlapping_segments] does not depend on the
    order of the rows of the segments table: the table is sorted by
    [(start, end)] first, and either two rows have the same boundaries and
    the call raises, or the sorted table is the same. *)
Theorem segment_order_is_irrelevant (pos : list P) (seg seg' : list S)
    (columns : list C) :
  Permutation seg seg' ->
  find_overlapping_segments col_eq_dec pos_coord seg_start seg_end seg_col
    pos seg columns =
  find_overlapping_segments col_eq_dec pos_coord seg_start seg_end seg_col
    pos seg' columns.
Proof.
  intros Hp. unfold find_overlapping_segments.
  destruct (has_duplicate boundary_eqb (map bnd (sort_by by_boundary seg))) eqn:E1,
           (has_duplicate boundary_eqb (map bnd (sort_by by_boundary seg'))) eqn:E2.
  - reflexivity.
  - exfalso. apply (has_duplicate_false_NoDup _ boundary_eqb_spec) in E2.
    assert (NoDup (map bnd (sort_by by_boundary seg))) as Hnd.
    { eapply Permutation_NoDup; [|exact E2]. apply Permutation_map.
      rewrite !sort_by_perm. now apply Permutation_sym. }
    apply (has_duplicate_false_NoDup _ boundary_eqb_spec) in Hnd. congruence.
  - exfalso. apply (has_duplicate_false_NoDup _ boundary_eqb_spec) in E1.
    assert (NoDup (map bnd (sort_by by_boundary seg'))) as Hnd.
    { eapply Permutation_NoDup; [|exact E1]. apply Permutation_map.
      rewrite !sort_by_perm. exact Hp. }
    apply (has_duplicate_false_NoDup _ boundary_eqb_spec) in Hnd. congruence.
  - apply (has_duplicate_false_NoDup _ boundary_eqb_spec) in E1.
    assert (NoDup (map bnd seg)) as Hnd.
    { eapply Permutation_NoDup; [|exact E1]. apply Permutation_map, sort_by_perm. }
    now rewrite (sort_by_boundary_perm seg seg' Hp Hnd).
Qed.

End SegmentOrder.

(** ** Row by row *)

Lemma Sorted_le_nth (l : list Z) :
  Sorted Z.le l ->
  forall i j, (i <= j < List.length l)%nat -> nth i l 0 <= nth j l 0.
Proof.
  intros H. apply Sorted_StronglySorted in H;
    [|intros x y z; apply Z.le_trans].
  induction H as [|x l Hl IH Hx]; intros i j Hij; [simpl in Hij; lia|].
  destruct i as [|i], j as [|j]; simpl in *; try lia.
  - apply (proj1 (Forall_forall _ _) Hx). apply nth_In. lia.
  - apply IH. lia.
Qed.

Section RowByRow.
Context {P S C V : Type}.
Variable col_eq_dec : forall a b : C, {a = b} + {a <> b}.
Variable pos_coord : P -> Z.
Variables seg_start seg_end : S -> Z.
Variable seg_col : C -> S -> V.

Local Notation bnd := (boundary seg_start seg_end).
Local Notation by_boundary := (fun a b => boundary_leb (bnd a) (bnd b)).

(** Once the segments are sorted by [(start, end)] their starts are in
    order. *)
Lemma starts_sorted (seg : list S) :
  Sorted Z.le (map seg_start (sort_by by_boundary seg)).
Proof.
  apply StronglySorted_Sorted.
  pose proof (sort_by_sorted by_boundary
                (fun a b => boundary_leb_total (bnd a) (bnd b))
                (fun a b c => boundary_leb_trans (bnd a) (bnd b) (bnd c)) seg)
    as H.
  induction H as [|x l Hl IH Hx]; cbn [map]; constructor; [exact IH|].
  apply Forall_map. eapply Forall_impl; [|exact Hx].
  intros y Hy. unfold boundary_leb, boundary in Hy. cbn [fst snd] in Hy.
  apply orb_true_iff in Hy. destruct Hy as [Hy|Hy].
  - apply Z.ltb_lt in Hy. lia.
  - apply andb_true_iff in Hy. destruct Hy as [Hy _]. apply Z.eqb_eq in Hy. lia.
Qed.

(** X1. One partition is annotated row by row when no two of its segments
    have the same boundaries and the ends of the segments, once these are
    sorted by [(start, end)], are in order too (as when no segment lies
    inside another): then the table that [find_overlapping_segments] builds
    column by column, with masks, is the table in which every position is
    annotated on its own, from the search of its own coordinate in the sorted
    segments; no row depends on another row of the positions table. *)
Theorem partition_is_annotated_row_by_row (pos : list P) (seg : list S)
    (columns : list C) :
  NoDup (map (boundary seg_start seg_end) seg) ->
  Sorted Z.le
    (map seg_end
       (sort_by (fun a b => boundary_leb (boundary seg_start seg_end a)
                                         (boundary seg_start seg_end b))
                seg)) ->
  find_overlapping_segments col_eq_dec pos_coord seg_start seg_end seg_col
    pos seg columns =
  Ok (map (fun p =>
             let sorted :=
               sort_by (fun a b => boundary_leb (boundary seg_start seg_end a)
                                                (boundary seg_start seg_end b))
                       seg in
             annotate_row col_eq_dec seg_col sorted columns p
               (idx_alone seg_start seg_end sorted (pos_coord p)))
          pos).
Proof.
  intros Hnd Hends. cbv zeta.
  rewrite (find_overlapping_segments_rowwise col_eq_dec pos_coord seg_start
             seg_end seg_col) by exact Hnd.
  f_equal. apply annotate_rows_alone, idx_of_sorted; apply Sorted_le_nth;
    [apply starts_sorted|exact Hends].
Qed.

End RowByRow.

(** X15. Without the order of the ends the rows are not independent: the
    search of a coordinate takes its bounds from the coordinate before it.
    On the five segments [(0,12)], [(4,8)], [(4,14)], [(8,10)], [(8,14)] the
    position at coordinate 13 gets NaN when it is alone in the positions
    table, and the [major_cn] of [(8,14)] when the position at coordinate 12
    comes before it. *)
Theorem annotation_depends_on_earlier_positions :
  exists (seg : list CnSegment) (p q : SnvCount)
         (alone first second : Annotated SnvCount CnColumn Z),
    NoDup (map (boundary acn_start acn_end) seg)
    /\ find_overlapping_segments CnColumn_eq_dec sc_coord acn_start acn_end
         cn_column [q] seg [MajorCn] = Ok [alone]
    /\ find_overlapping_segments CnColumn_eq_dec sc_coord acn_start acn_end
         cn_column [p; q] seg [MajorCn] = Ok [first; second]
    /\ position alone = q /\ position second = q
    /\ get_cell CnColumn_eq_dec MajorCn (columns_of alone) = Ok None
    /\ get_cell CnColumn_eq_dec MajorCn (columns_of second) = Ok (Some 5).
Proof.
  exists ex_nested_segments, (ex_count "cluster1" 12), (ex_count "cluster1" 13).
  do 3 eexists. split.
  - repeat constructor; simpl; intuition discriminate.
  - repeat split; reflexivity.
Qed.

(** ** The properties at the examples *)

Lemma partition_is_annotated_row_by_row_witness :
  find_overlapping_segments CnColumn_eq_dec sc_coord acn_start acn_end cn_column
    [ex_count "cluster1" 100; ex_count "cluster1" 500]
    [ex_cn_segment "cluster1" 200 400 2 1; ex_cn_segment "cluster1" 0 200 1 1]
    [MajorCn; MinorCn] =
  Ok [{| position := ex_count "cluster1" 100;
         columns_of := [(MajorCn, Some 1); (MinorCn, Some 1)] |};
      {| position := ex_count "cluster1" 500;
         columns_of := [(MajorCn, None); (MinorCn, None)] |}].
Proof.
  rewrite (partition_is_annotated_row_by_row CnColumn_eq_dec sc_coord
             acn_start acn_end cn_column).
  - reflexivity.
  - repeat constructor; simpl; intuition discriminate.
  - repeat constructor; vm_compute; discriminate.
Defined.

Lemma ordered_segments_cover_witness :
  exists res,
    find_overlapping_segments CnColumn_eq_dec sc_coord acn_start acn_end cn_column
      [ex_count "cluster1" 200]
      [ex_cn_segment "cluster1" 0 200 1 1; ex_cn_segment "cluster1" 200 400 2 1]
      [MajorCn] = Ok res
    /\ map position res = [ex_count "cluster1" 200]
    /\ Forall (fun r => get_cell CnColumn_eq_dec MajorCn (columns_of r) = Ok (Some 1))
              res.
Proof.
  destruct (ordered_segments_cover CnColumn_eq_dec sc_coord acn_start acn_end
              cn_column [ex_count "cluster1" 200]
              [ex_cn_segment "cluster1" 0 200 1 1;
               ex_cn_segment "cluster1" 200 400 2 1]
              [MajorCn])
    as [res [Hres [Hpos Hcells]]].
  - cbn. lia.
  - exists res. split; [exact Hres|]. split; [exact Hpos|].
    destruct res as [|r [|r' res]]; try discriminate.
    injection Hpos as Hr. constructor; [|constructor].
    apply Forall_inv in Hcells.
    rewrite (Hcells MajorCn (or_introl eq_refl)), Hr. reflexivity.
Defined.

Lemma failed_cast_leaves_earlier_casts_witness :
  compute_snv_log_likelihoods (N := ExactNumerics) [ex_read]
    [ex_segment "cluster1" 0 200 (FloatV (2 # 1)) NaNV (IntV 1)] ex_clusters =
  ([ex_segment "cluster1" 0 200 (IntV 2) NaNV (IntV 1)], Error CannotConvert).
Proof.
  destruct (failed_cast_leaves_earlier_casts (N := ExactNumerics) [ex_read]
              [ex_segment "cluster1" 0 200 (FloatV (2 # 1)) NaNV (IntV 1)]
              ex_clusters) as [_ [H _]].
  - discriminate.
  - rewrite H; [reflexivity| |].
    + intros r [<-|[]]. discriminate.
    + eexists. split; [left; reflexivity|reflexivity].
Defined.

Lemma repeated_segment_row_is_ignored_witness :
  snd (compute_snv_log_likelihoods (N := ExactNumerics) [ex_read]
         (ex_allele_cn ++ [ex_segment "cluster1" 0 200 (IntV 2) (IntV 1) (IntV 1)])
         ex_clusters) =
  snd (compute_snv_log_likelihoods (N := ExactNumerics) [ex_read] ex_allele_cn
         ex_clusters).
Proof.
  apply (repeated_segment_row_is_ignored (N := ExactNumerics)).
  left. reflexivity.
Defined.

Lemma pipeline_raises_only_value_errors_witness :
  In (ValueError "arange: cannot compute length") pipeline_exceptions.
Proof.
  apply (pipeline_raises_only_value_errors (N := ExactNumerics)
           [ex_read_500] ex_allele_cn ex_clusters).
  - discriminate.
  - right. exists (ex_count "cluster1" 500).
    split; [left; reflexivity|]. split; left; reflexivity.
  - apply (uncovered_variant_example (N := ExactNumerics)).
Defined.

Lemma returned_rows_are_covered_witness :
  exists rows,
    snd (compute_snv_log_likelihoods (N := ExactNumerics) [ex_read] ex_allele_cn
           ex_clusters) = Ok rows
    /\ Forall (fun r => In (count_of_record (record r))
                           (aggregate (merge [ex_read] ex_clusters))) rows
    /\ NoDup (map (fun r => key_of (count_of_record (record r))) rows).
Proof.
  eexists. split.
  - rewrite (end_to_end_example (N := ExactNumerics)). reflexivity.
  - destruct (returned_rows_are_covered (N := ExactNumerics) [ex_read]
                ex_allele_cn ex_clusters _
                (f_equal snd (end_to_end_example (N := ExactNumerics))))
      as [Hrows Hkeys].
    split; [|exact Hkeys].
    eapply Forall_impl; [|exact Hrows]. intros r [_ Hr]. exact Hr.
Defined.

Lemma one_bad_row_fails_the_stage_witness :
  compute_log_likelihoods (N := ExactNumerics)
    [ex_record (Some 1) (Some 1); ex_record None None] =
    Error (ValueError "arange: cannot compute length")
  \/ compute_log_likelihoods (N := ExactNumerics)
       [ex_record (Some 1) (Some 1); ex_record None None] =
     Error (ValueError "zero-size array to reduction operation maximum which has no identity").
Proof.
  apply (one_bad_row_fails_the_stage (N := ExactNumerics) _ (ex_record None None)).
  - right. left. reflexivity.
  - left. reflexivity.
Defined.

Lemma present_between_conditionals_and_ln_major_witness :
  exists v,
    log_likelihood_present (N := ExactNumerics) (Some 2) (Some (2 + 1))
      (XFin (Q2R (1 # 1000))) 2 10 = Ok v
    /\ (forall c_v, 1 <= c_v <= 2 ->
          xle (log_binomial_pdf (N := ExactNumerics) 2 10
                 (fdiv (of_int c_v) (of_int (2 + 1)))) v)
    /\ xle v (XFin (ln (IZR 2))).
Proof.
  apply (present_between_conditionals_and_ln_major 2 1 2 10
           (XFin (Q2R (1 # 1000)))); lia.
Defined.

Lemma likelihoods_without_reads_witness :
  log_likelihood_absent (N := ExactNumerics) (XFin (/ 1000)) 0 0 = XFin 0
  /\ log_likelihood_present (N := ExactNumerics) (Some 2) (Some (2 + 0))
       (XFin (/ 1000)) 0 0 = Ok (XFin (ln (IZR 2))).
Proof.
  apply (likelihoods_without_reads 2 0 (/ 1000)%R); [lra|lia|lia].
Defined.

Lemma segment_order_is_irrelevant_witness :
  find_overlapping_segments CnColumn_eq_dec sc_coord acn_start acn_end cn_column
    [ex_count "cluster1" 100]
    [ex_cn_segment "cluster1" 200 400 2 1; ex_cn_segment "cluster1" 0 200 1 1]
    [MajorCn] =
  find_overlapping_segments CnColumn_eq_dec sc_coord acn_start acn_end cn_column
    [ex_count "cluster1" 100]
    [ex_cn_segment "cluster1" 0 200 1 1; ex_cn_segment "cluster1" 200 400 2 1]
    [MajorCn].
Proof.
  apply (segment_order_is_irrelevant CnColumn_eq_dec sc_coord acn_start acn_end
           cn_column).
  apply perm_swap.
Defined.
